(** * ML Arena: pose validators, round state machine and leaderboard merge

    A shallow embedding of the game logic of the arena pages

      - [app/arena/page-old-complex.tsx]: geometry kernel, the pose
        validators, the hold/deadline round logic with its refs and queued
        state updaters, and the cumulative leaderboard merge of
        [finishGame];
      - [app/arena/page.tsx]: the body check of [detect];
      - the leaderboard page ([loadLeaderboard]): the display ranking,
        the statistics and the podium;
      - the skeleton overlay ([drawSkeleton]) and the start-up of camera
        and model ([initializeCamera]).

    JavaScript numbers of the geometry code are IEEE-754 binary64 values and
    are modelled by the kernel's primitive floats.  Percentages, points and
    scores are integers well below 2^53 and are modelled in [Z]; readings of
    [performance.now()] are modelled as rationals. *)

From Stdlib Require Import ZArith QArith Qround Bool List String Ascii.
From Stdlib Require Import Floats Uint63 Lia Lqa Permutation Sorted.
Import ListNotations.

Set Warnings "-inexact-float".

(** ** The numbers and Math functions of the platform *)

Module JS.

Open Scope float_scope.

(** A number is falsy when it is [+0], [-0] or [NaN]. *)
Definition truthy (v : float) : bool :=
  negb (PrimFloat.is_zero v || PrimFloat.is_nan v).

(** [a || b] on numbers. *)
Definition or_else (a b : float) : float :=
  if truthy a then a else b.

(** [Math.max] on two arguments: [NaN] is contagious and [+0] is larger
    than [-0]. *)
Definition Math_max (a b : float) : float :=
  if PrimFloat.is_nan a || PrimFloat.is_nan b then nan
  else if a <? b then b
  else if b <? a then a
  else if PrimFloat.is_zero a && PrimFloat.is_zero b
       then (if get_sign a then b else a)
       else a.

(** [Math.min] on two arguments: [NaN] is contagious and [-0] is smaller
    than [+0]. *)
Definition Math_min (a b : float) : float :=
  if PrimFloat.is_nan a || PrimFloat.is_nan b then nan
  else if a <? b then a
  else if b <? a then b
  else if PrimFloat.is_zero a && PrimFloat.is_zero b
       then (if get_sign a then a else b)
       else a.

Definition Math_abs (a : float) : float := PrimFloat.abs a.

(** [Math.hypot] on two arguments.  The language fixes the result on
    infinities, [NaN] and zeros and leaves the rest to the implementation;
    this is the one of V8 (Chrome, Node): the magnitudes are divided by the
    largest of them, the squares are added with Kahan's compensation, and
    the square root of the sum is scaled back. *)
Definition kahan (max : float) (acc : float * float) (absValue : float)
  : float * float :=
  let '(sum, compensation) := acc in
  let n := absValue / max in
  let summand := n * n - compensation in
  let preliminary := sum + summand in
  (preliminary, (preliminary - sum) - summand).

Definition Math_hypot (a b : float) : float :=
  let absValues := [PrimFloat.abs a; PrimFloat.abs b] in
  let max :=
    fold_left (fun max absValue => if max <? absValue then absValue else max)
              absValues 0 in
  if max =? infinity then infinity
  else if PrimFloat.is_nan a || PrimFloat.is_nan b then nan
  else if max =? 0 then 0
  else
    let '(sum, _) := fold_left (kahan max) absValues (0, 0) in
    PrimFloat.sqrt sum * max.

(** A non-negative integer below 2^53 as a number. *)
Definition of_Z (z : Z) : float := PrimFloat.of_uint63 (Uint63.of_Z z).

(** [Math.round]: the closest integer, halves going towards [+Infinity];
    [NaN], zeros, infinities and integers are returned as they are, and a
    result of zero keeps the sign of the argument. *)
Definition Math_round (v : float) : float :=
  match Prim2SF v with
  | S754_finite sg m e =>
      if (0 <=? e)%Z then v
      else
        let k := Z.pow 2 (- e) in
        let n := if sg then Z.neg m else Z.pos m in
        let r := Z.div (2 * n + k) (2 * k) in
        if (r =? 0)%Z then (if sg then (- 0) else 0)
        else if (r <? 0)%Z then - of_Z (- r)
        else of_Z r
  | _ => v
  end.

Definition Math_PI : float := 3.141592653589793.

(** JavaScript arrays: a slot is either a value or a hole ([undefined] when
    read).  Reading past the end gives [undefined]; writing past the end
    extends the array with holes. *)
Definition array (A : Type) : Type := list (option A).

Definition get {A} (a : array A) (i : nat) : option A :=
  match nth_error a i with
  | Some (Some v) => Some v
  | _ => None
  end.

Fixpoint set {A} (a : array A) (i : nat) (v : A) : array A :=
  match i, a with
  | O, [] => [Some v]
  | O, _ :: t => Some v :: t
  | S i', [] => None :: set [] i' v
  | S i', h :: t => h :: set t i' v
  end.

(** [x ?? d] *)
Definition nullish {A} (x : option A) (d : A) : A :=
  match x with Some v => v | None => d end.

End JS.

(** ** Geometry kernel (page-old-complex.tsx, lines 14-74) *)

Module Geometry.

Import JS.
Open Scope string_scope.
Open Scope float_scope.

Record Keypoint : Type := mkKeypoint {
  x : float;
  y : float;
  score : option float;
  name : option string
}.

Record Pose : Type := mkPose { keypoints : list Keypoint }.

Definition MIN_KP_SCORE : float := 0.35.

Definition clamp (value min max : float) : float :=
  Math_max min (Math_min max value).

Definition lerp (a b t : float) : float := a + (b - a) * t.

Definition score01To100 (t : float) : float :=
  Math_round (clamp t 0 1 * 100).

Definition has_name (nm : string) (k : Keypoint) : bool :=
  match name k with
  | Some n => String.eqb n nm
  | None => false
  end.

(** [getKp pose name minScore]: the first keypoint carrying the name, unless
    its score (0 when missing) is below [minScore]. *)
Definition getKp_min (pose : Pose) (nm : string) (minScore : float)
  : option Keypoint :=
  match find (has_name nm) (keypoints pose) with
  | None => None
  | Some kp =>
      let sc := nullish (score kp) 0 in
      if sc <? minScore then None else Some kp
  end.

Definition getKp (pose : Pose) (nm : string) : option Keypoint :=
  getKp_min pose nm MIN_KP_SCORE.

Definition dist (a b : Keypoint) : float :=
  Math_hypot (x a - x b) (y a - y b).

Definition avgY (a b : Keypoint) : float := (y a + y b) / 2.
Definition avgX (a b : Keypoint) : float := (x a + x b) / 2.

(** One block of [shoulderScale]: with both joints usable and more than one
    pixel apart the function returns their distance; otherwise control
    falls through to what follows. *)
Definition width_over_1 (a b : option Keypoint) : option float :=
  match a, b with
  | Some ka, Some kb =>
      let s := dist ka kb in
      if 1 <? s then Some s else None
  | _, _ => None
  end.

Definition shoulderScale (pose : Pose) : float :=
  let ls := getKp pose "left_shoulder" in
  let rs := getKp pose "right_shoulder" in
  match width_over_1 ls rs with
  | Some s => s
  | None =>
      let lh := getKp pose "left_hip" in
      let rh := getKp pose "right_hip" in
      match width_over_1 lh rh with
      | Some s => s
      | None => 100
      end
  end.

Section Angles.

(** [Math.acos] is implementation approximated; the validators are
    parametric in it. *)
Variable Math_acos : float -> float.

(** Angle at point b (a-b-c), in degrees. *)
Definition angleDeg (a b c : Keypoint) : float :=
  let abx := x a - x b in
  let aby := y a - y b in
  let cbx := x c - x b in
  let cby := y c - y b in
  let dot := abx * cbx + aby * cby in
  let mag1 := Math_hypot abx aby in
  let mag2 := Math_hypot cbx cby in
  if (mag1 =? 0) || (mag2 =? 0) then 180
  else
    let cos := clamp (dot / (mag1 * mag2)) (-1) 1 in
    (Math_acos cos * 180) / Math_PI.

End Angles.

End Geometry.

(** ** Pose validators (page-old-complex.tsx, lines 140-851)

    Each validator fetches its joints with [getKp], returns 0 when one of
    them is unusable, and otherwise maps one to three scale-relative
    measurements to a percentage. *)

Module Validators.

Import JS Geometry.
Open Scope string_scope.
Open Scope float_scope.

Section Registry.

Variable Math_acos : float -> float.

Definition validate_T_Pose (pose : Pose) : float :=
  let ls' := getKp pose "left_shoulder" in
  let rs' := getKp pose "right_shoulder" in
  let lw' := getKp pose "left_wrist" in
  let rw' := getKp pose "right_wrist" in
  match ls', rs', lw', rw' with
  | Some ls, Some rs, Some lw, Some rw =>
      let s := dist ls rs in
      let span := Math_abs (x rw - x lw) in
      let ratio := span / (or_else s 1) in
      let wristsY := avgY lw rw in
      let shouldersY := avgY ls rs in
      let yDiff := Math_abs (wristsY - shouldersY) / (or_else s 1) in
      let spanScore := clamp ((ratio - 1.0) / (1.45 - 1.0)) 0 1 in
      let levelScore := clamp (1 - yDiff / 0.30) 0 1 in
      score01To100 (spanScore * levelScore)
  | _, _, _, _ => 0
  end.

Definition validate_Hands_Up (pose : Pose) : float :=
  let nose' := getKp pose "nose" in
  let lw' := getKp pose "left_wrist" in
  let rw' := getKp pose "right_wrist" in
  match nose', lw', rw' with
  | Some nose, Some lw, Some rw =>
      let s := shoulderScale pose in
      let wristsY := avgY lw rw in
      let delta := (y nose - wristsY) / s in
      score01To100 (clamp (delta / 0.75) 0 1)
  | _, _, _ => 0
  end.

Definition validate_Arms_Wide_Santa (pose : Pose) : float :=
  let ls' := getKp pose "left_shoulder" in
  let rs' := getKp pose "right_shoulder" in
  let lw' := getKp pose "left_wrist" in
  let rw' := getKp pose "right_wrist" in
  match ls', rs', lw', rw' with
  | Some ls, Some rs, Some lw, Some rw =>
      let s := dist ls rs in
      let span := Math_abs (x rw - x lw) in
      let ratio := span / (or_else s 1) in
      let score := clamp ((ratio - 1.05) / (1.55 - 1.05)) 0 1 in
      score01To100 score
  | _, _, _, _ => 0
  end.

Definition validate_Antlers_Reindeer (pose : Pose) : float :=
  let lw' := getKp pose "left_wrist" in
  let rw' := getKp pose "right_wrist" in
  let nose' := getKp pose "nose" in
  match lw', rw', nose' with
  | Some lw, Some rw, Some nose =>
      let s := shoulderScale pose in
      let wristsY := avgY lw rw in
      let up := clamp ((y nose - wristsY) / (0.65 * s)) 0 1 in
      let handsApart := clamp (Math_abs (x rw - x lw) / (1.2 * s)) 0 1 in
      score01To100 (up * 0.7 + handsApart * 0.3)
  | _, _, _ => 0
  end.

Definition validate_Hands_on_Hips (pose : Pose) : float :=
  let lh' := getKp pose "left_hip" in
  let rh' := getKp pose "right_hip" in
  let lw' := getKp pose "left_wrist" in
  let rw' := getKp pose "right_wrist" in
  match lh', rh', lw', rw' with
  | Some lh, Some rh, Some lw, Some rw =>
      let s := shoulderScale pose in
      let left := clamp (1 - dist lw lh / (0.9 * s)) 0 1 in
      let right := clamp (1 - dist rw rh / (0.9 * s)) 0 1 in
      score01To100 ((left + right) / 2)
  | _, _, _, _ => 0
  end.

Definition validate_Left_Arm_Up (pose : Pose) : float :=
  let nose' := getKp pose "nose" in
  let ls' := getKp pose "left_shoulder" in
  let rs' := getKp pose "right_shoulder" in
  let lw' := getKp pose "left_wrist" in
  let rw' := getKp pose "right_wrist" in
  match nose', ls', rs', lw', rw' with
  | Some nose, Some ls, Some rs, Some lw, Some rw =>
      let s := shoulderScale pose in
      let leftUp := clamp ((y nose - y lw) / (0.7 * s)) 0 1 in
      let rightDown := clamp ((y rw - y rs) / (0.6 * s)) 0 1 in
      score01To100 (leftUp * 0.65 + rightDown * 0.35)
  | _, _, _, _, _ => 0
  end.

Definition validate_Right_Arm_Up (pose : Pose) : float :=
  let nose' := getKp pose "nose" in
  let ls' := getKp pose "left_shoulder" in
  let rs' := getKp pose "right_shoulder" in
  let lw' := getKp pose "left_wrist" in
  let rw' := getKp pose "right_wrist" in
  match nose', ls', rs', lw', rw' with
  | Some nose, Some ls, Some rs, Some lw, Some rw =>
      let s := shoulderScale pose in
      let rightUp := clamp ((y nose - y rw) / (0.7 * s)) 0 1 in
      let leftDown := clamp ((y lw - y ls) / (0.6 * s)) 0 1 in
      score01To100 (rightUp * 0.65 + leftDown * 0.35)
  | _, _, _, _, _ => 0
  end.

Definition validate_Clap (pose : Pose) : float :=
  let lw' := getKp pose "left_wrist" in
  let rw' := getKp pose "right_wrist" in
  match lw', rw' with
  | Some lw, Some rw =>
      let s := shoulderScale pose in
      let close := clamp (1 - dist lw rw / (0.45 * s)) 0 1 in
      score01To100 close
  | _, _ => 0
  end.

Definition validate_Touch_Toes (pose : Pose) : float :=
  let lw' := getKp pose "left_wrist" in
  let rw' := getKp pose "right_wrist" in
  let la' := getKp pose "left_ankle" in
  let ra' := getKp pose "right_ankle" in
  match lw', rw', la', ra' with
  | Some lw, Some rw, Some la, Some ra =>
      let s := shoulderScale pose in
      let left := clamp (1 - dist lw la / (1.2 * s)) 0 1 in
      let right := clamp (1 - dist rw ra / (1.2 * s)) 0 1 in
      score01To100 ((left + right) / 2)
  | _, _, _, _ => 0
  end.

Definition validate_Squat (pose : Pose) : float :=
  let lh' := getKp pose "left_hip" in
  let lk' := getKp pose "left_knee" in
  let la' := getKp pose "left_ankle" in
  let rh' := getKp pose "right_hip" in
  let rk' := getKp pose "right_knee" in
  let ra' := getKp pose "right_ankle" in
  match lh', lk', la', rh', rk', ra' with
  | Some lh, Some lk, Some la, Some rh, Some rk, Some ra =>
      let a1 := angleDeg Math_acos lh lk la in
      let a2 := angleDeg Math_acos rh rk ra in
      let avg := (a1 + a2) / 2 in
      let bend := clamp ((160 - avg) / (160 - 95)) 0 1 in
      score01To100 bend
  | _, _, _, _, _, _ => 0
  end.

Definition validate_High_Knee_Left (pose : Pose) : float :=
  let lh' := getKp pose "left_hip" in
  let lk' := getKp pose "left_knee" in
  let rh' := getKp pose "right_hip" in
  match lh', lk', rh' with
  | Some lh, Some lk, Some rh =>
      let s := shoulderScale pose in
      let lift := clamp ((y lh - y lk) / (0.65 * s)) 0 1 in
      let stable := clamp ((y lk - y rh) / (1.2 * s)) 0 1 in
      score01To100 (lift * 0.75 + stable * 0.25)
  | _, _, _ => 0
  end.

Definition validate_High_Knee_Right (pose : Pose) : float :=
  let rh' := getKp pose "right_hip" in
  let rk' := getKp pose "right_knee" in
  let lh' := getKp pose "left_hip" in
  match rh', rk', lh' with
  | Some rh, Some rk, Some lh =>
      let s := shoulderScale pose in
      let lift := clamp ((y rh - y rk) / (0.65 * s)) 0 1 in
      let stable := clamp ((y rk - y lh) / (1.2 * s)) 0 1 in
      score01To100 (lift * 0.75 + stable * 0.25)
  | _, _, _ => 0
  end.

Definition validate_Side_Lunge_Left (pose : Pose) : float :=
  let lh' := getKp pose "left_hip" in
  let lk' := getKp pose "left_knee" in
  let la' := getKp pose "left_ankle" in
  let rh' := getKp pose "right_hip" in
  let rk' := getKp pose "right_knee" in
  let ra' := getKp pose "right_ankle" in
  match lh', lk', la', rh', rk', ra' with
  | Some lh, Some lk, Some la, Some rh, Some rk, Some ra =>
      let leftBend := clamp ((160 - angleDeg Math_acos lh lk la) / (160 - 100)) 0 1 in
      let rightStraight := clamp ((angleDeg Math_acos rh rk ra - 145) / (175 - 145)) 0 1 in
      score01To100 (leftBend * 0.7 + rightStraight * 0.3)
  | _, _, _, _, _, _ => 0
  end.

Definition validate_Side_Lunge_Right (pose : Pose) : float :=
  let lh' := getKp pose "left_hip" in
  let lk' := getKp pose "left_knee" in
  let la' := getKp pose "left_ankle" in
  let rh' := getKp pose "right_hip" in
  let rk' := getKp pose "right_knee" in
  let ra' := getKp pose "right_ankle" in
  match lh', lk', la', rh', rk', ra' with
  | Some lh, Some lk, Some la, Some rh, Some rk, Some ra =>
      let rightBend := clamp ((160 - angleDeg Math_acos rh rk ra) / (160 - 100)) 0 1 in
      let leftStraight := clamp ((angleDeg Math_acos lh lk la - 145) / (175 - 145)) 0 1 in
      score01To100 (rightBend * 0.7 + leftStraight * 0.3)
  | _, _, _, _, _, _ => 0
  end.

Definition validate_Balance_Left (pose : Pose) : float :=
  let la' := getKp pose "left_ankle" in
  let ra' := getKp pose "right_ankle" in
  let lk' := getKp pose "left_knee" in
  let rk' := getKp pose "right_knee" in
  match la', ra', lk', rk' with
  | Some la, Some ra, Some lk, Some rk =>
      let s := shoulderScale pose in
      let lift := clamp ((y ra - y la) / (0.7 * s)) 0 1 in
      let kneeDiff := clamp ((y rk - y lk) / (0.8 * s)) 0 1 in
      score01To100 (lift * 0.7 + kneeDiff * 0.3)
  | _, _, _, _ => 0
  end.

Definition validate_Balance_Right (pose : Pose) : float :=
  let la' := getKp pose "left_ankle" in
  let ra' := getKp pose "right_ankle" in
  let lk' := getKp pose "left_knee" in
  let rk' := getKp pose "right_knee" in
  match la', ra', lk', rk' with
  | Some la, Some ra, Some lk, Some rk =>
      let s := shoulderScale pose in
      let lift := clamp ((y la - y ra) / (0.7 * s)) 0 1 in
      let kneeDiff := clamp ((y lk - y rk) / (0.8 * s)) 0 1 in
      score01To100 (lift * 0.7 + kneeDiff * 0.3)
  | _, _, _, _ => 0
  end.

Definition validate_Star_Pose (pose : Pose) : float :=
  let lw' := getKp pose "left_wrist" in
  let rw' := getKp pose "right_wrist" in
  let nose' := getKp pose "nose" in
  let la' := getKp pose "left_ankle" in
  let ra' := getKp pose "right_ankle" in
  match lw', rw', nose', la', ra' with
  | Some lw, Some rw, Some nose, Some la, Some ra =>
      let s := shoulderScale pose in
      let wristsY := avgY lw rw in
      let handsUp := clamp ((y nose - wristsY) / (0.65 * s)) 0 1 in
      let feetWide := clamp (Math_abs (x ra - x la) / (1.6 * s)) 0 1 in
      score01To100 (handsUp * 0.6 + feetWide * 0.4)
  | _, _, _, _, _ => 0
  end.

Definition validate_Warrior (pose : Pose) : float :=
  let ls' := getKp pose "left_shoulder" in
  let rs' := getKp pose "right_shoulder" in
  let lw' := getKp pose "left_wrist" in
  let rw' := getKp pose "right_wrist" in
  let la' := getKp pose "left_ankle" in
  let ra' := getKp pose "right_ankle" in
  match ls', rs', lw', rw', la', ra' with
  | Some ls, Some rs, Some lw, Some rw, Some la, Some ra =>
      let s := dist ls rs in
      let armSpan := clamp (Math_abs (x rw - x lw) / (1.45 * s)) 0 1 in
      let wristsY := avgY lw rw in
      let shouldersY := avgY ls rs in
      let level := clamp (1 - Math_abs (wristsY - shouldersY) / (0.32 * s)) 0 1 in
      let stance := clamp (Math_abs (x ra - x la) / (1.6 * s)) 0 1 in
      score01To100 (armSpan * 0.5 + level * 0.2 + stance * 0.3)
  | _, _, _, _, _, _ => 0
  end.

Definition validate_Hands_Behind_Head (pose : Pose) : float :=
  let le' := getKp pose "left_ear" in
  let re' := getKp pose "right_ear" in
  let lw' := getKp pose "left_wrist" in
  let rw' := getKp pose "right_wrist" in
  match le', re', lw', rw' with
  | Some le, Some re, Some lw, Some rw =>
      let s := shoulderScale pose in
      let left := clamp (1 - dist lw le / (0.75 * s)) 0 1 in
      let right := clamp (1 - dist rw re / (0.75 * s)) 0 1 in
      score01To100 ((left + right) / 2)
  | _, _, _, _ => 0
  end.

Definition validate_Punch_Left (pose : Pose) : float :=
  let ls' := getKp pose "left_shoulder" in
  let le' := getKp pose "left_elbow" in
  let lw' := getKp pose "left_wrist" in
  match ls', le', lw' with
  | Some ls, Some le, Some lw =>
      let elbow := angleDeg Math_acos ls le lw in
      let straight := clamp ((elbow - 135) / (175 - 135)) 0 1 in
      score01To100 straight
  | _, _, _ => 0
  end.

Definition validate_Punch_Right (pose : Pose) : float :=
  let rs' := getKp pose "right_shoulder" in
  let re' := getKp pose "right_elbow" in
  let rw' := getKp pose "right_wrist" in
  match rs', re', rw' with
  | Some rs, Some re, Some rw =>
      let elbow := angleDeg Math_acos rs re rw in
      let straight := clamp ((elbow - 135) / (175 - 135)) 0 1 in
      score01To100 straight
  | _, _, _ => 0
  end.

Definition validate_Kick_Left (pose : Pose) : float :=
  let lh' := getKp pose "left_hip" in
  let la' := getKp pose "left_ankle" in
  match lh', la' with
  | Some lh, Some la =>
      let s := shoulderScale pose in
      let lift := clamp ((y lh - y la) / (0.75 * s)) 0 1 in
      score01To100 lift
  | _, _ => 0
  end.

Definition validate_Kick_Right (pose : Pose) : float :=
  let rh' := getKp pose "right_hip" in
  let ra' := getKp pose "right_ankle" in
  match rh', ra' with
  | Some rh, Some ra =>
      let s := shoulderScale pose in
      let lift := clamp ((y rh - y ra) / (0.75 * s)) 0 1 in
      score01To100 lift
  | _, _ => 0
  end.

Definition validate_Lean_Left (pose : Pose) : float :=
  let ls' := getKp pose "left_shoulder" in
  let rs' := getKp pose "right_shoulder" in
  let lh' := getKp pose "left_hip" in
  let rh' := getKp pose "right_hip" in
  match ls', rs', lh', rh' with
  | Some ls, Some rs, Some lh, Some rh =>
      let shoulderMidX := avgX ls rs in
      let hipMidX := avgX lh rh in
      let s := dist ls rs in
      let offset := (hipMidX - shoulderMidX) / (or_else s 1) in
      score01To100 (clamp (Math_abs offset / 0.35) 0 1)
  | _, _, _, _ => 0
  end.

Definition validate_Lean_Right (pose : Pose) : float :=
  let ls' := getKp pose "left_shoulder" in
  let rs' := getKp pose "right_shoulder" in
  let lh' := getKp pose "left_hip" in
  let rh' := getKp pose "right_hip" in
  match ls', rs', lh', rh' with
  | Some ls, Some rs, Some lh, Some rh =>
      let shoulderMidX := avgX ls rs in
      let hipMidX := avgX lh rh in
      let s := dist ls rs in
      let offset := (shoulderMidX - hipMidX) / (or_else s 1) in
      score01To100 (clamp (Math_abs offset / 0.35) 0 1)
  | _, _, _, _ => 0
  end.

Definition validate_Elf_Hop_Bend_Knees (pose : Pose) : float :=
  let lh' := getKp pose "left_hip" in
  let lk' := getKp pose "left_knee" in
  let la' := getKp pose "left_ankle" in
  let rh' := getKp pose "right_hip" in
  let rk' := getKp pose "right_knee" in
  let ra' := getKp pose "right_ankle" in
  match lh', lk', la', rh', rk', ra' with
  | Some lh, Some lk, Some la, Some rh, Some rk, Some ra =>
      let a1 := angleDeg Math_acos lh lk la in
      let a2 := angleDeg Math_acos rh rk ra in
      let avg := (a1 + a2) / 2 in
      let bend := clamp ((155 - avg) / (155 - 105)) 0 1 in
      score01To100 bend
  | _, _, _, _, _, _ => 0
  end.

Definition validate_Santa_Salute (pose : Pose) : float :=
  let rw' := getKp pose "right_wrist" in
  let re' := getKp pose "right_ear" in
  match rw', re' with
  | Some rw, Some re =>
      let s := shoulderScale pose in
      let salute := clamp (1 - dist rw re / (0.7 * s)) 0 1 in
      score01To100 salute
  | _, _ => 0
  end.

Definition validate_Reindeer_Jump (pose : Pose) : float :=
  let lw' := getKp pose "left_wrist" in
  let rw' := getKp pose "right_wrist" in
  let nose' := getKp pose "nose" in
  match lw', rw', nose' with
  | Some lw, Some rw, Some nose =>
      let s := shoulderScale pose in
      let up := clamp ((y nose - avgY lw rw) / (0.7 * s)) 0 1 in
      let apart := clamp (Math_abs (x rw - x lw) / (1.4 * s)) 0 1 in
      score01To100 (up * 0.6 + apart * 0.4)
  | _, _, _ => 0
  end.

Definition validate_Snowman_Stand (pose : Pose) : float :=
  let lw' := getKp pose "left_wrist" in
  let rw' := getKp pose "right_wrist" in
  let lh' := getKp pose "left_hip" in
  let rh' := getKp pose "right_hip" in
  match lw', rw', lh', rh' with
  | Some lw, Some rw, Some lh, Some rh =>
      let s := shoulderScale pose in
      let armsDown := clamp ((avgY lw rw - avgY lh rh) / (0.7 * s)) 0 1 in
      score01To100 armsDown
  | _, _, _, _ => 0
  end.

Definition validate_Gift_Box_Squat (pose : Pose) : float :=
  let lw' := getKp pose "left_wrist" in
  let rw' := getKp pose "right_wrist" in
  let lh' := getKp pose "left_hip" in
  let lk' := getKp pose "left_knee" in
  let la' := getKp pose "left_ankle" in
  let rh' := getKp pose "right_hip" in
  let rk' := getKp pose "right_knee" in
  let ra' := getKp pose "right_ankle" in
  match lw', rw', lh', lk', la', rh', rk', ra' with
  | Some lw, Some rw, Some lh, Some lk, Some la, Some rh, Some rk, Some ra =>
      let s := shoulderScale pose in
      let handsTogether := clamp (1 - dist lw rw / (0.5 * s)) 0 1 in
      let a1 := angleDeg Math_acos lh lk la in
      let a2 := angleDeg Math_acos rh rk ra in
      let squat := clamp ((160 - (a1 + a2) / 2) / (160 - 100)) 0 1 in
      score01To100 (handsTogether * 0.4 + squat * 0.6)
  | _, _, _, _, _, _, _, _ => 0
  end.

Definition validate_Christmas_Tree (pose : Pose) : float :=
  let lw' := getKp pose "left_wrist" in
  let rw' := getKp pose "right_wrist" in
  let nose' := getKp pose "nose" in
  match lw', rw', nose' with
  | Some lw, Some rw, Some nose =>
      let s := shoulderScale pose in
      let handsUp := clamp ((y nose - avgY lw rw) / (0.6 * s)) 0 1 in
      let together := clamp (1 - dist lw rw / (0.8 * s)) 0 1 in
      score01To100 (handsUp * 0.5 + together * 0.5)
  | _, _, _ => 0
  end.

Definition validate_Snowball_Throw (pose : Pose) : float :=
  let rw' := getKp pose "right_wrist" in
  let rs' := getKp pose "right_shoulder" in
  let re' := getKp pose "right_ear" in
  match rw', rs', re' with
  | Some rw, Some rs, Some re =>
      let s := shoulderScale pose in
      let behindHead := clamp ((y rs - y rw) / (0.5 * s)) 0 1 in
      score01To100 behindHead
  | _, _, _ => 0
  end.

Definition validate_Grinch_Pose (pose : Pose) : float :=
  let lw' := getKp pose "left_wrist" in
  let rw' := getKp pose "right_wrist" in
  let ls' := getKp pose "left_shoulder" in
  let rs' := getKp pose "right_shoulder" in
  match lw', rw', ls', rs' with
  | Some lw, Some rw, Some ls, Some rs =>
      let s := dist ls rs in
      let crossed := clamp (1 - Math_abs ((x lw - x rs) + (x rw - x ls)) / (1.2 * s)) 0 1 in
      score01To100 crossed
  | _, _, _, _ => 0
  end.

Definition validate_Angel_Wings (pose : Pose) : float :=
  let ls' := getKp pose "left_shoulder" in
  let rs' := getKp pose "right_shoulder" in
  let lw' := getKp pose "left_wrist" in
  let rw' := getKp pose "right_wrist" in
  match ls', rs', lw', rw' with
  | Some ls, Some rs, Some lw, Some rw =>
      let s := shoulderScale pose in
      let shoulderY := avgY ls rs in
      let wristY := avgY lw rw in
      let upward := clamp ((shoulderY - wristY) / (0.5 * s)) 0 1 in
      let wide := clamp (Math_abs (x rw - x lw) / (1.5 * s)) 0 1 in
      score01To100 (upward * 0.5 + wide * 0.5)
  | _, _, _, _ => 0
  end.

Definition validate_Candy_Cane (pose : Pose) : float :=
  let rw' := getKp pose "right_wrist" in
  let nose' := getKp pose "nose" in
  let ls' := getKp pose "left_shoulder" in
  let rs' := getKp pose "right_shoulder" in
  let lh' := getKp pose "left_hip" in
  let rh' := getKp pose "right_hip" in
  match rw', nose', ls', rs', lh', rh' with
  | Some rw, Some nose, Some ls, Some rs, Some lh, Some rh =>
      let s := shoulderScale pose in
      let armUp := clamp ((y nose - y rw) / (0.65 * s)) 0 1 in
      let shoulderMidX := avgX ls rs in
      let hipMidX := avgX lh rh in
      let lean := clamp (Math_abs (hipMidX - shoulderMidX) / (0.3 * s)) 0 1 in
      score01To100 (armUp * 0.7 + lean * 0.3)
  | _, _, _, _, _, _ => 0
  end.

Definition validate_Ho_Ho_Ho (pose : Pose) : float :=
  let lw' := getKp pose "left_wrist" in
  let rw' := getKp pose "right_wrist" in
  let lh' := getKp pose "left_hip" in
  let rh' := getKp pose "right_hip" in
  let ls' := getKp pose "left_shoulder" in
  let rs' := getKp pose "right_shoulder" in
  match lw', rw', lh', rh', ls', rs' with
  | Some lw, Some rw, Some lh, Some rh, Some ls, Some rs =>
      let bellyY := (avgY ls rs + avgY lh rh) / 2 in
      let wristsY := avgY lw rw in
      let s := shoulderScale pose in
      let onBelly := clamp (1 - Math_abs (wristsY - bellyY) / (0.4 * s)) 0 1 in
      score01To100 onBelly
  | _, _, _, _, _, _ => 0
  end.

Definition validate_Sleigh_Ride (pose : Pose) : float :=
  let lw' := getKp pose "left_wrist" in
  let rw' := getKp pose "right_wrist" in
  let ls' := getKp pose "left_shoulder" in
  let rs' := getKp pose "right_shoulder" in
  match lw', rw', ls', rs' with
  | Some lw, Some rw, Some ls, Some rs =>
      let s := shoulderScale pose in
      let handsForward := clamp ((avgY lw rw - avgY ls rs) / (0.4 * s)) 0 1 in
      score01To100 handsForward
  | _, _, _, _ => 0
  end.

Definition validate_Elf_Dance (pose : Pose) : float :=
  let lh' := getKp pose "left_hip" in
  let rh' := getKp pose "right_hip" in
  let lw' := getKp pose "left_wrist" in
  let rw' := getKp pose "right_wrist" in
  let lk' := getKp pose "left_knee" in
  let rk' := getKp pose "right_knee" in
  match lh', rh', lw', rw', lk', rk' with
  | Some lh, Some rh, Some lw, Some rw, Some lk, Some rk =>
      let s := shoulderScale pose in
      let handsOnHips := clamp (1 - (dist lw lh + dist rw rh) / (1.5 * s)) 0 1 in
      let kneeLift := clamp (Math_abs (y lk - y rk) / (0.6 * s)) 0 1 in
      score01To100 (handsOnHips * 0.5 + kneeLift * 0.5)
  | _, _, _, _, _, _ => 0
  end.

Definition validate_Star_on_Top (pose : Pose) : float :=
  let lw' := getKp pose "left_wrist" in
  let rw' := getKp pose "right_wrist" in
  let la' := getKp pose "left_ankle" in
  let ra' := getKp pose "right_ankle" in
  let nose' := getKp pose "nose" in
  match lw', rw', la', ra', nose' with
  | Some lw, Some rw, Some la, Some ra, Some nose =>
      let s := shoulderScale pose in
      let armsWide := clamp (Math_abs (x rw - x lw) / (1.6 * s)) 0 1 in
      let legsWide := clamp (Math_abs (x ra - x la) / (1.5 * s)) 0 1 in
      let armsUp := clamp ((y nose - avgY lw rw) / (0.6 * s)) 0 1 in
      score01To100 (armsWide * 0.4 + legsWide * 0.3 + armsUp * 0.3)
  | _, _, _, _, _ => 0
  end.

Definition validate_Present_Surprise (pose : Pose) : float :=
  let lw' := getKp pose "left_wrist" in
  let rw' := getKp pose "right_wrist" in
  let nose' := getKp pose "nose" in
  match lw', rw', nose' with
  | Some lw, Some rw, Some nose =>
      let s := shoulderScale pose in
      let nearFace := clamp (1 - (dist lw nose + dist rw nose) / (1.5 * s)) 0 1 in
      score01To100 nearFace
  | _, _, _ => 0
  end.

Definition validate_Jingle_Bell_Rock (pose : Pose) : float :=
  let lw' := getKp pose "left_wrist" in
  let rw' := getKp pose "right_wrist" in
  let nose' := getKp pose "nose" in
  let lh' := getKp pose "left_hip" in
  match lw', rw', nose', lh' with
  | Some lw, Some rw, Some nose, Some lh =>
      let s := shoulderScale pose in
      let oneUp := Math_max (clamp ((y nose - y lw) / (0.6 * s)) 0 1) (clamp ((y nose - y rw) / (0.6 * s)) 0 1) in
      let oneDown := Math_max (clamp ((y lw - y lh) / (0.5 * s)) 0 1) (clamp ((y rw - y lh) / (0.5 * s)) 0 1) in
      score01To100 ((oneUp + oneDown) / 2)
  | _, _, _, _ => 0
  end.

Definition validate_Frosty_Wave (pose : Pose) : float :=
  let rw' := getKp pose "right_wrist" in
  let rs' := getKp pose "right_shoulder" in
  let nose' := getKp pose "nose" in
  match rw', rs', nose' with
  | Some rw, Some rs, Some nose =>
      let s := shoulderScale pose in
      let handUp := clamp ((y nose - y rw) / (0.6 * s)) 0 1 in
      let toSide := clamp (Math_abs (x rw - x rs) / (0.5 * s)) 0 1 in
      score01To100 (handUp * 0.7 + toSide * 0.3)
  | _, _, _ => 0
  end.

Definition validate_Mistletoe_Kiss (pose : Pose) : float :=
  let rw' := getKp pose "right_wrist" in
  let nose' := getKp pose "nose" in
  match rw', nose' with
  | Some rw, Some nose =>
      let s := shoulderScale pose in
      let nearMouth := clamp (1 - dist rw nose / (0.6 * s)) 0 1 in
      score01To100 nearMouth
  | _, _ => 0
  end.

Definition validate_Nutcracker_March (pose : Pose) : float :=
  let lk' := getKp pose "left_knee" in
  let rk' := getKp pose "right_knee" in
  let lh' := getKp pose "left_hip" in
  let rh' := getKp pose "right_hip" in
  match lk', rk', lh', rh' with
  | Some lk, Some rk, Some lh, Some rh =>
      let s := shoulderScale pose in
      let kneeLift := Math_max (clamp ((y lh - y lk) / (0.65 * s)) 0 1) (clamp ((y rh - y rk) / (0.65 * s)) 0 1) in
      score01To100 kneeLift
  | _, _, _, _ => 0
  end.

Definition validate_Chimney_Climb (pose : Pose) : float :=
  let lw' := getKp pose "left_wrist" in
  let rw' := getKp pose "right_wrist" in
  let nose' := getKp pose "nose" in
  match lw', rw', nose' with
  | Some lw, Some rw, Some nose =>
      let s := shoulderScale pose in
      let bothUp := clamp ((y nose - avgY lw rw) / (0.8 * s)) 0 1 in
      score01To100 bothUp
  | _, _, _ => 0
  end.

Definition validate_Santas_Bag_Carry (pose : Pose) : float :=
  let rw' := getKp pose "right_wrist" in
  let rs' := getKp pose "right_shoulder" in
  let re' := getKp pose "right_ear" in
  match rw', rs', re' with
  | Some rw, Some rs, Some re =>
      let s := shoulderScale pose in
      let nearShoulder := clamp (1 - dist rw rs / (0.6 * s)) 0 1 in
      let handUp := clamp ((y rs - y rw) / (0.4 * s)) 0 1 in
      score01To100 (nearShoulder * 0.7 + handUp * 0.3)
  | _, _, _ => 0
  end.

(** A challenge; [required] lists the joints its validator fetches with
    [getKp], in the order of the source. *)
Record Challenge : Type := mkChallenge {
  name : string;
  description : string;
  required : list string;
  validate : Pose -> float
}.

Definition challenges : list Challenge :=
  [
    {| name := "T-Pose";
       description := "Arms straight out to the sides";
       required := ["left_shoulder"; "right_shoulder"; "left_wrist"; "right_wrist"];
       validate := validate_T_Pose |};
    {| name := "Hands Up";
       description := "Raise both hands above your head";
       required := ["nose"; "left_wrist"; "right_wrist"];
       validate := validate_Hands_Up |};
    {| name := "Arms Wide (Santa)";
       description := "Open your arms wide";
       required := ["left_shoulder"; "right_shoulder"; "left_wrist"; "right_wrist"];
       validate := validate_Arms_Wide_Santa |};
    {| name := "Antlers (Reindeer)";
       description := "Hands up near your head";
       required := ["left_wrist"; "right_wrist"; "nose"];
       validate := validate_Antlers_Reindeer |};
    {| name := "Hands on Hips";
       description := "Place hands near your hips";
       required := ["left_hip"; "right_hip"; "left_wrist"; "right_wrist"];
       validate := validate_Hands_on_Hips |};
    {| name := "Left Arm Up";
       description := "Left hand up, right hand down";
       required := ["nose"; "left_shoulder"; "right_shoulder"; "left_wrist"; "right_wrist"];
       validate := validate_Left_Arm_Up |};
    {| name := "Right Arm Up";
       description := "Right hand up, left hand down";
       required := ["nose"; "left_shoulder"; "right_shoulder"; "left_wrist"; "right_wrist"];
       validate := validate_Right_Arm_Up |};
    {| name := "Clap";
       description := "Bring your hands together";
       required := ["left_wrist"; "right_wrist"];
       validate := validate_Clap |};
    {| name := "Touch Toes";
       description := "Reach down towards your ankles";
       required := ["left_wrist"; "right_wrist"; "left_ankle"; "right_ankle"];
       validate := validate_Touch_Toes |};
    {| name := "Squat";
       description := "Bend your knees (squat down)";
       required := ["left_hip"; "left_knee"; "left_ankle"; "right_hip"; "right_knee"; "right_ankle"];
       validate := validate_Squat |};
    {| name := "High Knee (Left)";
       description := "Lift your left knee up";
       required := ["left_hip"; "left_knee"; "right_hip"];
       validate := validate_High_Knee_Left |};
    {| name := "High Knee (Right)";
       description := "Lift your right knee up";
       required := ["right_hip"; "right_knee"; "left_hip"];
       validate := validate_High_Knee_Right |};
    {| name := "Side Lunge (Left)";
       description := "Step wide and bend left knee";
       required := ["left_hip"; "left_knee"; "left_ankle"; "right_hip"; "right_knee"; "right_ankle"];
       validate := validate_Side_Lunge_Left |};
    {| name := "Side Lunge (Right)";
       description := "Step wide and bend right knee";
       required := ["left_hip"; "left_knee"; "left_ankle"; "right_hip"; "right_knee"; "right_ankle"];
       validate := validate_Side_Lunge_Right |};
    {| name := "Balance (Left)";
       description := "Stand on left leg (lift right foot)";
       required := ["left_ankle"; "right_ankle"; "left_knee"; "right_knee"];
       validate := validate_Balance_Left |};
    {| name := "Balance (Right)";
       description := "Stand on right leg (lift left foot)";
       required := ["left_ankle"; "right_ankle"; "left_knee"; "right_knee"];
       validate := validate_Balance_Right |};
    {| name := "Star Pose";
       description := "Hands up and feet wide";
       required := ["left_wrist"; "right_wrist"; "nose"; "left_ankle"; "right_ankle"];
       validate := validate_Star_Pose |};
    {| name := "Warrior";
       description := "Wide stance + arms out";
       required := ["left_shoulder"; "right_shoulder"; "left_wrist"; "right_wrist"; "left_ankle"; "right_ankle"];
       validate := validate_Warrior |};
    {| name := "Hands Behind Head";
       description := "Put hands near your ears";
       required := ["left_ear"; "right_ear"; "left_wrist"; "right_wrist"];
       validate := validate_Hands_Behind_Head |};
    {| name := "Punch Left";
       description := "Extend left arm forward";
       required := ["left_shoulder"; "left_elbow"; "left_wrist"];
       validate := validate_Punch_Left |};
    {| name := "Punch Right";
       description := "Extend right arm forward";
       required := ["right_shoulder"; "right_elbow"; "right_wrist"];
       validate := validate_Punch_Right |};
    {| name := "Kick Left";
       description := "Lift left foot up (kick)";
       required := ["left_hip"; "left_ankle"];
       validate := validate_Kick_Left |};
    {| name := "Kick Right";
       description := "Lift right foot up (kick)";
       required := ["right_hip"; "right_ankle"];
       validate := validate_Kick_Right |};
    {| name := "Lean Left";
       description := "Lean body to the left";
       required := ["left_shoulder"; "right_shoulder"; "left_hip"; "right_hip"];
       validate := validate_Lean_Left |};
    {| name := "Lean Right";
       description := "Lean body to the right";
       required := ["left_shoulder"; "right_shoulder"; "left_hip"; "right_hip"];
       validate := validate_Lean_Right |};
    {| name := "Elf Hop (Bend Knees)";
       description := "Bend knees like you’re about to jump";
       required := ["left_hip"; "left_knee"; "left_ankle"; "right_hip"; "right_knee"; "right_ankle"];
       validate := validate_Elf_Hop_Bend_Knees |};
    {| name := "Santa Salute";
       description := "Right hand salute near forehead";
       required := ["right_wrist"; "right_ear"];
       validate := validate_Santa_Salute |};
    {| name := "Reindeer Jump";
       description := "Both hands above head like antlers";
       required := ["left_wrist"; "right_wrist"; "nose"];
       validate := validate_Reindeer_Jump |};
    {| name := "Snowman Stand";
       description := "Arms straight down, stand stiff";
       required := ["left_wrist"; "right_wrist"; "left_hip"; "right_hip"];
       validate := validate_Snowman_Stand |};
    {| name := "Gift Box Squat";
       description := "Squat down with hands together";
       required := ["left_wrist"; "right_wrist"; "left_hip"; "left_knee"; "left_ankle"; "right_hip"; "right_knee"; "right_ankle"];
       validate := validate_Gift_Box_Squat |};
    {| name := "Christmas Tree";
       description := "Hands above head forming triangle";
       required := ["left_wrist"; "right_wrist"; "nose"];
       validate := validate_Christmas_Tree |};
    {| name := "Snowball Throw";
       description := "Right hand behind head like throwing";
       required := ["right_wrist"; "right_shoulder"; "right_ear"];
       validate := validate_Snowball_Throw |};
    {| name := "Grinch Pose";
       description := "Arms crossed over chest";
       required := ["left_wrist"; "right_wrist"; "left_shoulder"; "right_shoulder"];
       validate := validate_Grinch_Pose |};
    {| name := "Angel Wings";
       description := "Arms out at 45 degrees up";
       required := ["left_shoulder"; "right_shoulder"; "left_wrist"; "right_wrist"];
       validate := validate_Angel_Wings |};
    {| name := "Candy Cane";
       description := "One arm straight up, lean sideways";
       required := ["right_wrist"; "nose"; "left_shoulder"; "right_shoulder"; "left_hip"; "right_hip"];
       validate := validate_Candy_Cane |};
    {| name := "Ho Ho Ho";
       description := "Both hands on belly";
       required := ["left_wrist"; "right_wrist"; "left_hip"; "right_hip"; "left_shoulder"; "right_shoulder"];
       validate := validate_Ho_Ho_Ho |};
    {| name := "Sleigh Ride";
       description := "Lean back, hands forward like holding reins";
       required := ["left_wrist"; "right_wrist"; "left_shoulder"; "right_shoulder"];
       validate := validate_Sleigh_Ride |};
    {| name := "Elf Dance";
       description := "One knee up, hands on hips";
       required := ["left_hip"; "right_hip"; "left_wrist"; "right_wrist"; "left_knee"; "right_knee"];
       validate := validate_Elf_Dance |};
    {| name := "Star on Top";
       description := "Jump position - arms and legs wide";
       required := ["left_wrist"; "right_wrist"; "left_ankle"; "right_ankle"; "nose"];
       validate := validate_Star_on_Top |};
    {| name := "Present Surprise";
       description := "Hands near face in surprise";
       required := ["left_wrist"; "right_wrist"; "nose"];
       validate := validate_Present_Surprise |};
    {| name := "Jingle Bell Rock";
       description := "One hand up, one hand down";
       required := ["left_wrist"; "right_wrist"; "nose"; "left_hip"];
       validate := validate_Jingle_Bell_Rock |};
    {| name := "Frosty Wave";
       description := "Wave with right hand high";
       required := ["right_wrist"; "right_shoulder"; "nose"];
       validate := validate_Frosty_Wave |};
    {| name := "Mistletoe Kiss";
       description := "Blow a kiss - hand near lips";
       required := ["right_wrist"; "nose"];
       validate := validate_Mistletoe_Kiss |};
    {| name := "Nutcracker March";
       description := "Stand tall, one knee lifted high";
       required := ["left_knee"; "right_knee"; "left_hip"; "right_hip"];
       validate := validate_Nutcracker_March |};
    {| name := "Chimney Climb";
       description := "Both arms reaching up high";
       required := ["left_wrist"; "right_wrist"; "nose"];
       validate := validate_Chimney_Climb |};
    {| name := "Santa's Bag Carry";
       description := "One hand on shoulder carrying heavy bag";
       required := ["right_wrist"; "right_shoulder"; "right_ear"];
       validate := validate_Santas_Bag_Carry |}
  ].

End Registry.

End Validators.

(** ** Exceptions *)

Module Exn.

Inductive Error : Type := TypeError | SyntaxError.

(** The result of running a piece of code that may throw. *)
Inductive outcome (A : Type) : Type :=
| Return (a : A)
| Throw (e : Error).

Arguments Return {A} a.
Arguments Throw {A} e.

Definition bind {A B} (m : outcome A) (k : A -> outcome B) : outcome B :=
  match m with
  | Return a => k a
  | Throw e => Throw e
  end.

Definition fmap {A B} (f : A -> B) (m : outcome A) : outcome B :=
  bind m (fun a => Return (f a)).

(** [try { m } catch { d }] *)
Definition catch {A} (m : outcome A) (d : A) : A :=
  match m with
  | Return a => a
  | Throw _ => d
  end.

End Exn.

(** ** Leaderboard storage and merge

    [finishGame] of page-old-complex.tsx (lines 1615-1651) and the ranking
    of [loadLeaderboard]. *)

Module Leaderboard.

Import Exn.
Open Scope string_scope.
Open Scope list_scope.
Open Scope Z_scope.

(** A stored entry as the application writes it.  [timestamp] is the
    instant of the ISO-8601 string in milliseconds; [attempts] may be
    missing (the merge reads [attempts || 1]). *)
Record LeaderboardEntry : Type := mkEntry {
  name : string;
  score : Z;
  accuracy : Z;
  timestamp : Z;
  attempts : option Z
}.

(** An element of the stored array.  [Invalid] stands for every value [e]
    for which [e && typeof e.name === 'string'] is false: [null], a
    primitive, an array, or an object without a string [name].  For each of
    them [e.name.toLowerCase()] throws a TypeError. *)
Inductive Item : Type :=
| Invalid
| Valid (e : LeaderboardEntry).

(** What [localStorage.getItem('leaderboard')] holds, by the way the code
    can read it. *)
Inductive Stored : Type :=
| NoItem                      (* getItem returns null *)
| EmptyText                   (* the empty string *)
| BadText                     (* JSON.parse throws a SyntaxError *)
| NotAnArray                  (* valid JSON, Array.isArray is false *)
| ArrayOf (items : list Item) (* a JSON array *).

Definition MAX_ENTRIES : nat := 200.

(** [JSON.parse] on a non-empty text. *)
Definition JSON_parse (s : Stored) : outcome (option (list Item)) :=
  match s with
  | ArrayOf items => Return (Some items)
  | NotAnArray => Return None
  | _ => Throw SyntaxError
  end.

(** [Array.prototype.sort] with a comparator: the sort is stable, and [a]
    stays before [b] unless [cmp a b > 0].  Insertion from the right
    realises it for every consistent comparator. *)
Section Sort.

Context {A : Type} (cmp : A -> A -> Z).

Fixpoint insert (a : A) (l : list A) : list A :=
  match l with
  | [] => [a]
  | b :: l' => if cmp a b <=? 0 then a :: b :: l' else b :: insert a l'
  end.

Definition sort (l : list A) : list A := fold_right insert [] l.

End Sort.

(** [(a, b) => (b.score ?? 0) - (a.score ?? 0)]; the score of a stored
    entry is a number, on which [?? 0] is the identity. *)
Definition by_score (a b : LeaderboardEntry) : Z := score b - score a.

(** The comparator of [loadLeaderboard]: score descending, then most
    recent first. *)
Definition by_score_then_recent (a b : LeaderboardEntry) : Z :=
  let scoreDiff := score b - score a in
  if negb (scoreDiff =? 0) then scoreDiff
  else timestamp b - timestamp a.

(** [leaderboard.filter((e) => e && typeof e.name === 'string')] *)
Definition valid_entries (l : list Item) : list LeaderboardEntry :=
  flat_map (fun it => match it with Valid e => [e] | Invalid => [] end) l.

(** [attempts || 1] *)
Definition attempts_or_1 (a : option Z) : Z :=
  match a with
  | Some n => if n =? 0 then 1 else n
  | None => 1
  end.

Section Merge.

(** [String.prototype.toLowerCase] of the platform. *)
Variable toLowerCase : string -> string.

Definition same_player (a b : string) : bool :=
  String.eqb (toLowerCase a) (toLowerCase b).

(** [leaderboard.findIndex((entry) => entry.name.toLowerCase() ===
    participantName.toLowerCase())]: [None] is the index -1. *)
Fixpoint findIndex (l : list Item) (participantName : string)
  : outcome (option nat) :=
  match l with
  | [] => Return None
  | Invalid :: _ => Throw TypeError
  | Valid e :: rest =>
      if same_player (name e) participantName then Return (Some O)
      else fmap (option_map S) (findIndex rest participantName)
  end.

(** The four assignments to [leaderboard[existingPlayerIndex]]. *)
Definition accumulate (e : LeaderboardEntry) (finalScore finalAccuracy now : Z)
  : LeaderboardEntry :=
  {| name := name e;
     score := score e + finalScore;
     accuracy := finalAccuracy;
     timestamp := now;
     attempts := Some (attempts_or_1 (attempts e) + 1) |}.

Fixpoint update_at (l : list Item) (i : nat)
  (f : LeaderboardEntry -> LeaderboardEntry) : list Item :=
  match l, i with
  | [], _ => []
  | Valid e :: rest, O => Valid (f e) :: rest
  | it :: rest, O => it :: rest
  | it :: rest, S i' => it :: update_at rest i' f
  end.

(** Lines 1615-1622: the stored text read under [try]/[catch], with
    [Array.isArray] as a second guard. *)
Definition read_guarded (existing : Stored) : list Item :=
  catch
    (match existing with
     | NoItem | EmptyText => Return []
     | _ =>
         fmap (fun v => match v with Some l => l | None => [] end)
              (JSON_parse existing)
     end)
    [].

(** Lines 1624-1644: the player's entry is accumulated in place, or a
    new entry is pushed. *)
Definition merge_player (leaderboard : list Item)
  (participantName : string) (finalScore finalAccuracy now : Z)
  : outcome (list Item) :=
  bind (findIndex leaderboard participantName) (fun existingPlayerIndex =>
  Return
    match existingPlayerIndex with
    | Some i =>
        update_at leaderboard i
          (fun e => accumulate e finalScore finalAccuracy now)
    | None =>
        leaderboard ++
        [Valid {| name := participantName;
                  score := finalScore;
                  accuracy := finalAccuracy;
                  timestamp := now;
                  attempts := Some 1 |}]
    end).

(** Lines 1646-1650: filter, sort by score, keep the first 200. *)
Definition ordered (leaderboard : list Item) : list LeaderboardEntry :=
  sort by_score (valid_entries leaderboard).

Definition bounded (leaderboard : list Item) : list LeaderboardEntry :=
  firstn MAX_ENTRIES (ordered leaderboard).

(** The storage part of [finishGame] in page-old-complex.tsx: what is
    written back under the key, or the exception that escapes. *)
Definition finishGame (existing : Stored)
  (participantName : string) (finalScore finalAccuracy now : Z)
  : outcome Stored :=
  let leaderboard := read_guarded existing in
  bind (merge_player leaderboard participantName finalScore finalAccuracy now)
    (fun leaderboard => Return (ArrayOf (map Valid (bounded leaderboard)))).

(** What the key holds after a call: a call that throws leaves it as it
    was. *)
Definition after (existing : Stored) (r : outcome Stored) : Stored :=
  catch r existing.

(** Number of stored entries of a player. *)
Definition entries_of (who : string) (l : list Item) : list LeaderboardEntry :=
  filter (fun e => same_player (name e) who) (valid_entries l).

Definition items_of (s : Stored) : list Item :=
  match s with
  | ArrayOf items => items
  | _ => []
  end.

End Merge.

(** [toLowerCase] on names written in ASCII. *)
Definition lower_ascii (c : ascii) : ascii :=
  let n := nat_of_ascii c in
  if ((65 <=? n) && (n <=? 90))%nat then ascii_of_nat (n + 32) else c.

Fixpoint toLowerCase_ascii (s : string) : string :=
  match s with
  | EmptyString => EmptyString
  | String c s' => String (lower_ascii c) (toLowerCase_ascii s')
  end.

(** [loadLeaderboard] (lines 82-93 of the leaderboard page): ranking of
    the entries that passed the date filter. *)
Definition ranked (filtered : list LeaderboardEntry) : list LeaderboardEntry :=
  sort by_score_then_recent filtered.

Definition withRanks (sorted : list LeaderboardEntry)
  : list (LeaderboardEntry * nat) :=
  combine sorted (seq 1 (List.length sorted)).

End Leaderboard.

(** ** The round state machine of page-old-complex.tsx

    The refs and the state of [ArenaPage] that the game logic reads are the
    fields of one record; each callback ([detect] past [estimatePoses], the
    interval of [startPoseTimer], the delayed advance after a pass) is a
    function on it, from the state at the start of the callback to the
    state after the render that follows it.

    A ref is written when the assignment runs.  A state updater (the
    function given to [setScore], [setPoseResults] or [setCurrentChallenge])
    runs when React processes the queue of the component, at the next
    render: the callback of the interval and the delayed advance have
    changed displayed state before they issue one ([setPoseTimeLeft] with
    the new number of seconds, [setShowCelebration(false)]), so a render is
    pending and the updaters wait for it.  The refs [scoreRef] and
    [currentChallengeRef] are written by these updaters (and by the effects
    that mirror the state), so within such a callback they still hold the
    values of its start.  Between callbacks a ref and the state it mirrors
    agree and are one field.  The render that follows a callback is taken
    to complete before the next callback runs.

    State that is only displayed (holdTime, poseTimeLeft, showCelebration)
    is left out, and a callback reads [performance.now()] once.  A
    validator is used through the percentage it returns. *)

Module Round.

Import JS Exn.
Open Scope string_scope.
Open Scope list_scope.
Open Scope Z_scope.

Definition POSE_HOLD_SECONDS : Q := 2.
Definition POSE_TIME_LIMIT_SECONDS : Q := 20.
Definition POSE_TIME_LIMIT_MS : Q := POSE_TIME_LIMIT_SECONDS * 1000.

Inductive GameState : Type := GS_name | GS_countdown | GS_playing | GS_finished.

Inductive PoseResult : Type := pending | passed | failed.

Definition GameState_eqb (a b : GameState) : bool :=
  match a, b with
  | GS_name, GS_name | GS_countdown, GS_countdown
  | GS_playing, GS_playing | GS_finished, GS_finished => true
  | _, _ => false
  end.

Section Arena.

(** A tracked pose, as the validators receive it. *)
Variable Pose : Type.

(** [String.prototype.toLowerCase] of the platform. *)
Variable toLowerCase : string -> string.

Record Arena : Type := mkArena {
  participantName : string;
  gameState : GameState;                 (* gameStateRef.current *)
  currentChallenge : nat;                (* currentChallenge and its ref *)
  activeChallenges : list (Pose -> Z);   (* activeChallengesRef.current *)
  score : Z;                             (* score and scoreRef.current *)
  accuracy : Z;                          (* the accuracy displayed *)
  poseResults : array PoseResult;
  poseBestAccuracy : array Z;            (* poseBestAccuracyRef.current *)
  poseResolved : bool;                   (* poseResolvedRef.current *)
  holdStartMs : option Q;                (* holdStartMsRef.current *)
  poseDeadlineMs : option Q;             (* poseDeadlineMsRef.current *)
  poseTimerInterval : bool;              (* an interval is installed *)
  celebration : bool;                    (* the 1000 ms advance is pending *)
  localStorage : Leaderboard.Stored      (* the 'leaderboard' key *)
}.

Definition set_gameState (st : Arena) (v : GameState) : Arena :=
  mkArena (participantName st) v (currentChallenge st) (activeChallenges st)
    (score st) (accuracy st) (poseResults st) (poseBestAccuracy st)
    (poseResolved st) (holdStartMs st) (poseDeadlineMs st)
    (poseTimerInterval st) (celebration st) (localStorage st).

Definition set_currentChallenge (st : Arena) (v : nat) : Arena :=
  mkArena (participantName st) (gameState st) v (activeChallenges st)
    (score st) (accuracy st) (poseResults st) (poseBestAccuracy st)
    (poseResolved st) (holdStartMs st) (poseDeadlineMs st)
    (poseTimerInterval st) (celebration st) (localStorage st).

Definition set_score (st : Arena) (v : Z) : Arena :=
  mkArena (participantName st) (gameState st) (currentChallenge st)
    (activeChallenges st) v (accuracy st) (poseResults st)
    (poseBestAccuracy st) (poseResolved st) (holdStartMs st)
    (poseDeadlineMs st) (poseTimerInterval st) (celebration st)
    (localStorage st).

Definition set_accuracy (st : Arena) (v : Z) : Arena :=
  mkArena (participantName st) (gameState st) (currentChallenge st)
    (activeChallenges st) (score st) v (poseResults st)
    (poseBestAccuracy st) (poseResolved st) (holdStartMs st)
    (poseDeadlineMs st) (poseTimerInterval st) (celebration st)
    (localStorage st).

Definition set_poseResults (st : Arena) (v : array PoseResult) : Arena :=
  mkArena (participantName st) (gameState st) (currentChallenge st)
    (activeChallenges st) (score st) (accuracy st) v
    (poseBestAccuracy st) (poseResolved st) (holdStartMs st)
    (poseDeadlineMs st) (poseTimerInterval st) (celebration st)
    (localStorage st).

Definition set_poseBestAccuracy (st : Arena) (v : array Z) : Arena :=
  mkArena (participantName st) (gameState st) (currentChallenge st)
    (activeChallenges st) (score st) (accuracy st) (poseResults st) v
    (poseResolved st) (holdStartMs st) (poseDeadlineMs st)
    (poseTimerInterval st) (celebration st) (localStorage st).

Definition set_poseResolved (st : Arena) (v : bool) : Arena :=
  mkArena (participantName st) (gameState st) (currentChallenge st)
    (activeChallenges st) (score st) (accuracy st) (poseResults st)
    (poseBestAccuracy st) v (holdStartMs st) (poseDeadlineMs st)
    (poseTimerInterval st) (celebration st) (localStorage st).

Definition set_holdStartMs (st : Arena) (v : option Q) : Arena :=
  mkArena (participantName st) (gameState st) (currentChallenge st)
    (activeChallenges st) (score st) (accuracy st) (poseResults st)
    (poseBestAccuracy st) (poseResolved st) v (poseDeadlineMs st)
    (poseTimerInterval st) (celebration st) (localStorage st).

Definition set_poseDeadlineMs (st : Arena) (v : option Q) : Arena :=
  mkArena (participantName st) (gameState st) (currentChallenge st)
    (activeChallenges st) (score st) (accuracy st) (poseResults st)
    (poseBestAccuracy st) (poseResolved st) (holdStartMs st) v
    (poseTimerInterval st) (celebration st) (localStorage st).

Definition set_poseTimerInterval (st : Arena) (v : bool) : Arena :=
  mkArena (participantName st) (gameState st) (currentChallenge st)
    (activeChallenges st) (score st) (accuracy st) (poseResults st)
    (poseBestAccuracy st) (poseResolved st) (holdStartMs st)
    (poseDeadlineMs st) v (celebration st) (localStorage st).

Definition set_celebration (st : Arena) (v : bool) : Arena :=
  mkArena (participantName st) (gameState st) (currentChallenge st)
    (activeChallenges st) (score st) (accuracy st) (poseResults st)
    (poseBestAccuracy st) (poseResolved st) (holdStartMs st)
    (poseDeadlineMs st) (poseTimerInterval st) v (localStorage st).

Definition set_localStorage (st : Arena) (v : Leaderboard.Stored) : Arena :=
  mkArena (participantName st) (gameState st) (currentChallenge st)
    (activeChallenges st) (score st) (accuracy st) (poseResults st)
    (poseBestAccuracy st) (poseResolved st) (holdStartMs st)
    (poseDeadlineMs st) (poseTimerInterval st) (celebration st) v.

(** [Math.round] of the ratio of two integers, the second positive. *)
Definition Math_round_div (a b : Z) : Z :=
  Qfloor (inject_Z a / inject_Z b + (1 # 2)).

Definition clearPoseTimer (st : Arena) : Arena :=
  set_poseDeadlineMs (set_poseTimerInterval st false) None.

(** A state updater, and the render that runs the updaters a callback has
    queued, in the order they were issued. *)
Definition Updater : Type := Arena -> Arena.

Definition render (st : Arena) (queue : list Updater) : Arena :=
  fold_left (fun st updater => updater st) queue st.

(** Lines 1601-1651.  [scoreRef.current] is the score at the start of the
    callback.  An exception of the leaderboard code escapes after the game
    state is set and before anything is stored. *)
Definition finishGame (st : Arena) (date : Z) : Arena :=
  let st := set_gameState st GS_finished in
  let st := clearPoseTimer st in
  let finalScore := score st in
  let len := Z.of_nat (List.length (activeChallenges st)) in
  let rounds := Z.max 1 (if len =? 0 then 3 else len) in
  let finalAccuracy :=
    Math_round_div
      (fold_left (fun sum v => sum + nullish v 0)
                 (firstn (Z.to_nat rounds) (poseBestAccuracy st)) 0)
      rounds in
  set_localStorage st
    (Leaderboard.after (localStorage st)
       (Leaderboard.finishGame toLowerCase (localStorage st)
          (participantName st) finalScore finalAccuracy date)).

(** Lines 1240-1256 and the installation of the interval.
    [currentChallengeRef.current] is the index at the start of the
    callback. *)
Definition startPoseTimer (st : Arena) (now : Q) : Arena :=
  let st := clearPoseTimer st in
  let st := set_poseResolved st false in
  let st := set_holdStartMs st None in
  let st := set_accuracy st 0 in
  let idx := currentChallenge st in
  let st := set_poseBestAccuracy st (set (poseBestAccuracy st) idx 0) in
  let st := set_poseDeadlineMs st (Some (now + POSE_TIME_LIMIT_MS)%Q) in
  set_poseTimerInterval st true.

(** [setCurrentChallenge(prev => { const next = prev + 1;
    currentChallengeRef.current = next; return next; })] *)
Definition nextChallenge : Updater :=
  fun st => set_currentChallenge st (S (currentChallenge st)).

(** The common tail of both resolutions: the next challenge, or the end of
    the game.  [queue] holds the updaters the callback has issued so far;
    [startPoseTimer] and [finishGame] run before any of them, and before
    the updater that moves to the next challenge. *)
Definition advance (st : Arena) (idx : nat) (now : Q) (date : Z)
  (queue : list Updater) : Arena :=
  if Z.of_nat idx <? Z.of_nat (List.length (activeChallenges st)) - 1 then
    let queue := queue ++ [nextChallenge] in
    render (startPoseTimer st now) queue
  else render (finishGame st date) queue.

(** The callback of the interval (lines 1257-1308), every 200 ms while the
    interval is installed. *)
Definition timerTick (st : Arena) (now : Q) (date : Z) : Arena :=
  if negb (poseTimerInterval st) then st
  else if negb (GameState_eqb (gameState st) GS_playing) then st
  else
    match poseDeadlineMs st with
    | None => st
    | Some deadline =>
        if Qeq_bool deadline 0 then st
        else
          let remainingMs := (deadline - now)%Q in
          if Qle_bool remainingMs 0 then
            let st := clearPoseTimer st in
            if poseResolved st then st
            else
              let st := set_poseResolved st true in
              let idx := currentChallenge st in
              let bestAcc := nullish (get (poseBestAccuracy st) idx) 0 in
              let earnedPoints := bestAcc / 10 in
              let award : list Updater :=
                if 0 <? earnedPoints
                then [fun st => set_score st (score st + earnedPoints)]
                else [] in
              let mark : Updater :=
                fun st =>
                  match get (poseResults st) idx with
                  | Some pending =>
                      set_poseResults st (set (poseResults st) idx failed)
                  | _ => st
                  end in
              advance st idx now date (award ++ [mark])
          else st
    end.

(** [detect] from the result of [estimatePoses] on (lines 1456-1543).  The
    callback reads nothing its updaters write, so they are applied where
    they are issued. *)
Definition detect (st : Arena) (now : Q) (poses : list Pose) : Arena :=
  if GameState_eqb (gameState st) GS_finished then st
  else
    match poses with
    | [] => st
    | pose :: _ =>
        if poseResolved st then st
        else
          let challengeIndex := currentChallenge st in
          let currentAccuracy :=
            match nth_error (activeChallenges st) challengeIndex with
            | Some challenge => challenge pose
            | None => 0
            end in
          let roundedAccuracy := currentAccuracy in
          let st := set_accuracy st roundedAccuracy in
          let st :=
            if nullish (get (poseBestAccuracy st) challengeIndex) 0
               <? roundedAccuracy
            then set_poseBestAccuracy st
                   (set (poseBestAccuracy st) challengeIndex roundedAccuracy)
            else st in
          if 80 <=? currentAccuracy then
            let st :=
              match holdStartMs st with
              | None => set_holdStartMs st (Some now)
              | Some _ => st
              end in
            let holdSeconds := ((now - nullish (holdStartMs st) now) / 1000)%Q in
            if negb (poseResolved st) && Qle_bool POSE_HOLD_SECONDS holdSeconds
            then
              let st := set_poseResolved st true in
              let st := set_holdStartMs st None in
              let st := clearPoseTimer st in
              let bestAcc :=
                nullish (get (poseBestAccuracy st) challengeIndex)
                        roundedAccuracy in
              let st := set_accuracy st bestAcc in
              let earnedPoints := bestAcc / 10 in
              let st := set_score st (score st + earnedPoints) in
              let st :=
                set_poseResults st (set (poseResults st) challengeIndex passed) in
              set_celebration st true
            else st
          else set_holdStartMs st None
    end.

(** The delayed callback of the pass path (lines 1521-1537). *)
Definition celebrationDone (st : Arena) (now : Q) (date : Z) : Arena :=
  if negb (celebration st) then st
  else
    let st := set_celebration st false in
    advance st (currentChallenge st) now date [].

(** The callbacks the browser runs during a game. *)
Inductive Event : Type :=
| Frame (now : Q) (poses : list Pose)
| TimerTick (now : Q) (date : Z)
| CelebrationDone (now : Q) (date : Z).

Definition step (st : Arena) (ev : Event) : Arena :=
  match ev with
  | Frame now poses => detect st now poses
  | TimerTick now date => timerTick st now date
  | CelebrationDone now date => celebrationDone st now date
  end.

Definition run (st : Arena) (evs : list Event) : Arena :=
  fold_left step evs st.

(** [startGame] past the name check (lines 1194-1216), on the three
    challenges the shuffle selected. *)
Definition startGame (name : string) (selected : list (Pose -> Z))
  (storage : Leaderboard.Stored) : Arena :=
  {| participantName := name;
     gameState := GS_countdown;
     currentChallenge := 0;
     activeChallenges := firstn 3 selected;
     score := 0;
     accuracy := 0;
     poseResults := [Some pending; Some pending; Some pending];
     poseBestAccuracy := [Some 0; Some 0; Some 0];
     poseResolved := false;
     holdStartMs := None;
     poseDeadlineMs := None;
     poseTimerInterval := false;
     celebration := false;
     localStorage := storage |}.

(** The end of [initializeCamera] (lines 1388-1391): the game is playing
    and the first round is armed. *)
Definition beginPlaying (st : Arena) (now : Q) : Arena :=
  startPoseTimer (set_gameState st GS_playing) now.

End Arena.

Arguments mkArena {Pose}.
Arguments participantName {Pose}.
Arguments gameState {Pose}.
Arguments currentChallenge {Pose}.
Arguments activeChallenges {Pose}.
Arguments score {Pose}.
Arguments accuracy {Pose}.
Arguments poseResults {Pose}.
Arguments poseBestAccuracy {Pose}.
Arguments poseResolved {Pose}.
Arguments holdStartMs {Pose}.
Arguments poseDeadlineMs {Pose}.
Arguments poseTimerInterval {Pose}.
Arguments celebration {Pose}.
Arguments localStorage {Pose}.
Arguments clearPoseTimer {Pose}.
Arguments startPoseTimer {Pose}.
Arguments finishGame {Pose}.
Arguments render {Pose}.
Arguments nextChallenge {Pose}.
Arguments advance {Pose}.
Arguments timerTick {Pose}.
Arguments detect {Pose}.
Arguments celebrationDone {Pose}.
Arguments Frame {Pose}.
Arguments TimerTick {Pose}.
Arguments CelebrationDone {Pose}.
Arguments step {Pose}.
Arguments run {Pose}.
Arguments startGame {Pose}.
Arguments beginPlaying {Pose}.

End Round.

(** ** The body check of page.tsx

    [detect] of page.tsx (line 291) takes a pose for a plausible body when
    ten of its keypoints or more are confident. *)

Module SimpleRound.

Import JS.
Open Scope list_scope.

(** [pose.keypoints.filter(kp => (kp.score || 0) > 0.3).length >= 10] *)
Definition hasGoodDetection (pose : Geometry.Pose) : bool :=
  (10 <=? List.length
     (filter (fun kp =>
        let s := match Geometry.score kp with
                 | Some v => or_else v 0%float
                 | None => 0%float
                 end in
        (0.3 <? s)%float)
        (Geometry.keypoints pose)))%nat.

End SimpleRound.

(** ** What the arena page shows and stores about a game

    The values page-old-complex.tsx derives from the state of the round
    machine: the seconds left on the round's clock (lines 1261-1262), the
    accuracy [finishGame] stores (lines 1609-1613) and the totals of the
    finish screen (lines 1892-1893). *)

Module Scoreboard.

Import JS Round.
Open Scope list_scope.
Open Scope Z_scope.

(** [Math.max(0, Math.ceil(remainingMs / 1000))], a function of the number
    [remainingMs] the subtraction [deadline - performance.now()] has
    produced. *)
Definition remainingSec (remainingMs : Q) : Z :=
  Z.max 0 (Qceiling (remainingMs / 1000)).

Definition PoseResult_eqb (a b : PoseResult) : bool :=
  match a, b with
  | pending, pending | passed, passed | failed, failed => true
  | _, _ => false
  end.

(** [poseResults.filter(r => r === which).length] *)
Definition count_results (which : PoseResult) (results : array PoseResult)
  : nat :=
  List.length
    (filter (fun r => match r with
                      | Some r' => PoseResult_eqb r' which
                      | None => false
                      end) results).

Section Arena.

Variable Pose : Type.

(** [Math.max(1, activeChallengesRef.current.length || 3)] *)
Definition rounds (st : Arena Pose) : Z :=
  let len := Z.of_nat (List.length (activeChallenges st)) in
  Z.max 1 (if len =? 0 then 3 else len).

(** The mean of the best accuracies of the rounds, rounded. *)
Definition finalAccuracy (st : Arena Pose) : Z :=
  Math_round_div
    (fold_left (fun sum v => sum + nullish v 0)
               (firstn (Z.to_nat (rounds st)) (poseBestAccuracy st)) 0)
    (rounds st).

Definition passedCount (st : Arena Pose) : nat :=
  count_results passed (poseResults st).

Definition failedCount (st : Arena Pose) : nat :=
  count_results failed (poseResults st).

End Arena.

Arguments rounds {Pose}.
Arguments finalAccuracy {Pose}.
Arguments passedCount {Pose}.
Arguments failedCount {Pose}.

End Scoreboard.

(** ** The leaderboard page (app/page.tsx, [Leaderboard])

    [loadLeaderboard] (lines 50-105) from the parsed array on, and the
    podium of the render (lines 247-285).  An element of the stored array
    that is no entry makes the page behave by what the element is ([null]
    throws, a number does not); the page is modelled on arrays of
    entries. *)

Module LeaderboardPage.

Import Exn Leaderboard.
Open Scope string_scope.
Open Scope list_scope.
Open Scope Z_scope.

Inductive Filter : Type := today | week | alltime.

Record Stats : Type := mkStats {
  totalPlayers : nat;
  gamesPlayed : nat;
  highScore : Z
}.

(** [DisplayEntry]: an entry and its rank. *)
Definition DisplayEntry : Type := (LeaderboardEntry * nat)%type.

Definition rank (d : DisplayEntry) : nat := snd d.

(** The state of the component. *)
Record Page : Type := mkPage {
  entries : list DisplayEntry;
  stats : Stats
}.

Definition initial : Page := mkPage [] (mkStats 0 0 0).

Section Load.

(** [Date.prototype.toDateString] of the instant, in the local time zone
    of the platform. *)
Variable toDateString : Z -> string.

(** The test of the date filters (lines 69-80); [now] is the instant of
    [new Date()]. *)
Definition keep (filter : Filter) (now : Z) (entry : LeaderboardEntry) : bool :=
  match filter with
  | today =>
      let entryDate := timestamp entry in
      String.eqb (toDateString entryDate) (toDateString now)
  | week =>
      let weekAgo := now - 7 * 24 * 60 * 60 * 1000 in
      let entryDate := timestamp entry in
      weekAgo <=? entryDate
  | alltime => true
  end.

Definition filtered (filter : Filter) (now : Z)
  (leaderboard : list LeaderboardEntry) : list LeaderboardEntry :=
  match filter with
  | today => List.filter (keep today now) leaderboard
  | week => List.filter (keep week now) leaderboard
  | alltime => leaderboard
  end.

(** [new Set(leaderboard.map(e => e.name)).size] *)
Definition uniquePlayers (leaderboard : list LeaderboardEntry) : nat :=
  List.length (nodup string_dec (map name leaderboard)).

(** [leaderboard.length > 0 ? Math.max(...leaderboard.map(e => e.score)) : 0] *)
Definition maxScore (leaderboard : list LeaderboardEntry) : Z :=
  match map score leaderboard with
  | [] => 0
  | s :: rest => fold_left Z.max rest s
  end.

(** Lines 65-104: what the page shows for a parsed array of entries. *)
Definition show (filter : Filter) (now : Z)
  (leaderboard : list LeaderboardEntry) : Page :=
  let sorted := ranked (filtered filter now leaderboard) in
  {| entries := withRanks sorted;
     stats := {| totalPlayers := uniquePlayers leaderboard;
                 gamesPlayed := List.length leaderboard;
                 highScore := maxScore leaderboard |} |}.

(** The entries of an array whose elements are all entries. *)
Fixpoint all_entries (items : list Item) : option (list LeaderboardEntry) :=
  match items with
  | [] => Some []
  | Invalid :: _ => None
  | Valid e :: rest => option_map (cons e) (all_entries rest)
  end.

(** [loadLeaderboard]: [None] stands for an array with an element that is
    no entry, which is outside the model. *)
Definition loadLeaderboard (filter : Filter) (now : Z)
  (storedData : Stored) (page : Page) : option Page :=
  match storedData with
  | NoItem | EmptyText => Some {| entries := []; stats := stats page |}
  | BadText | NotAnArray => Some (show filter now [])
  | ArrayOf items => option_map (show filter now) (all_entries items)
  end.

End Load.

(** The podium and the rows below it (lines 247-285): which entries the
    page renders, in the order of the slots. *)
Definition positions : list nat := [1; 0; 2]%nat.

Definition podium (entries : list DisplayEntry) : list DisplayEntry :=
  flat_map
    (fun index =>
       let actualIndex := nth index positions 0%nat in
       match nth_error entries actualIndex with
       | Some actualEntry => [actualEntry]
       | None => []
       end)
    (seq 0 (List.length (firstn 3 entries))).

Definition rows (entries : list DisplayEntry) : list DisplayEntry :=
  if (3 <? List.length entries)%nat then skipn 3 entries else [].

Definition rendered (entries : list DisplayEntry) : list DisplayEntry :=
  if (0 <? List.length entries)%nat then podium entries ++ rows entries
  else [].

End LeaderboardPage.

(** ** The skeleton overlay

    [drawSkeleton] (page-old-complex.tsx lines 1556-1599, page.tsx lines
    352-393) as the sequence of calls it makes on the canvas context. *)

Module Overlay.

Import JS Geometry.
Open Scope string_scope.
Open Scope list_scope.
Open Scope float_scope.

Inductive CanvasCall : Type :=
| beginPath
| moveTo (x y : float)
| lineTo (x y : float)
| arc (x y radius startAngle endAngle : float)
| strokeStyle (style : string)
| fillStyle (style : string)
| lineWidth (width : float)
| stroke
| fill.

Definition connections : list (string * string) :=
  [ ("left_shoulder", "right_shoulder");
    ("left_shoulder", "left_elbow");
    ("left_elbow", "left_wrist");
    ("right_shoulder", "right_elbow");
    ("right_elbow", "right_wrist");
    ("left_shoulder", "left_hip");
    ("right_shoulder", "right_hip");
    ("left_hip", "right_hip");
    ("left_hip", "left_knee");
    ("left_knee", "left_ankle");
    ("right_hip", "right_knee");
    ("right_knee", "right_ankle") ].

(** [kp?.score] is truthy. *)
Definition has_score (kp : option Keypoint) : bool :=
  match kp with
  | Some k => match score k with
              | Some s => truthy s
              | None => false
              end
  | None => false
  end.

(** [kp.score > 0.3]; the score of a keypoint without one is [undefined],
    which is not above any number. *)
Definition above_03 (k : Keypoint) : bool :=
  match score k with
  | Some s => 0.3 <? s
  | None => false
  end.

Definition line (startKp endKp : Keypoint) : list CanvasCall :=
  [ beginPath;
    moveTo (x startKp) (y startKp);
    lineTo (x endKp) (y endKp);
    strokeStyle "rgba(255, 215, 0, 0.6)";
    lineWidth 4;
    stroke ].

Definition dot (kp : Keypoint) : list CanvasCall :=
  [ beginPath;
    arc (x kp) (y kp) 6 0 (2 * Math_PI);
    fillStyle "#FFD700";
    fill;
    strokeStyle "#FFF";
    lineWidth 2;
    stroke ].

(** The body of [connections.forEach]. *)
Definition drawConnection (pose : Pose) (c : string * string)
  : list CanvasCall :=
  let (start, end_) := c in
  let startKp := find (has_name start) (keypoints pose) in
  let endKp := find (has_name end_) (keypoints pose) in
  if has_score startKp && has_score endKp then
    match startKp, endKp with
    | Some s, Some e =>
        if above_03 s && above_03 e then line s e else []
    | _, _ => []
    end
  else [].

(** The body of [pose.keypoints.forEach]. *)
Definition drawKeypoint (kp : Keypoint) : list CanvasCall :=
  if has_score (Some kp) && above_03 kp then dot kp else [].

Definition drawSkeleton (pose : Pose) : list CanvasCall :=
  flat_map (drawConnection pose) connections
  ++ flat_map drawKeypoint (keypoints pose).

End Overlay.

(** ** Opening the camera and loading the model

    [initializeCamera] of page-old-complex.tsx (lines 1311-1418).  What the
    browser and the libraries answer is a parameter: each awaited call
    either resolves or rejects with a reason, of which the code reads the
    [name]. *)

Module Camera.

Import Round.
Open Scope string_scope.
Open Scope list_scope.
Open Scope Z_scope.

(** The settlement of an awaited promise; [name] is the [name] property of
    the reason of a rejection, if it has one. *)
Inductive Settled (A : Type) : Type :=
| Resolves (a : A)
| Rejects (name : option string).

Arguments Resolves {A} a.
Arguments Rejects {A} name.

Record Constraints : Type := mkConstraints {
  width : Z;
  height : Z;
  frameRate : Z;
  facingMode : string
}.

Definition tryConstraints : list Constraints :=
  [ mkConstraints 1280 720 30 "user"; mkConstraints 640 480 30 "user" ].

Inductive ModelType : Type := SINGLEPOSE_THUNDER | SINGLEPOSE_LIGHTNING.

Section Platform.

(** A media stream, as [getUserMedia] hands it out. *)
Variable MediaStream : Type.

Record Browser : Type := mkBrowser {
  getUserMedia : Constraints -> Settled MediaStream;
  videoMounted : bool;          (* videoRef.current is an element *)
  metadataLoaded : bool;        (* the video fires loadedmetadata *)
  play : Settled unit;          (* videoRef.current.play() *)
  importPoseDetection : Settled unit;
  createDetector : ModelType -> Settled unit
}.

(** The state [initializeCamera] writes. *)
Record Startup : Type := mkStartup {
  gameState : GameState;
  isLoading : bool;
  uiError : option string;
  stream : option MediaStream;
  tracksStopped : bool;
  detector : option ModelType;
  roundArmed : bool             (* startPoseTimer and startDetection ran *)
}.

(** Lines 1336-1344: the first constraints the browser grants. *)
Fixpoint firstGranted (browser : Browser) (candidates : list Constraints)
  : option MediaStream :=
  match candidates with
  | [] => None
  | constraints :: rest =>
      match getUserMedia browser constraints with
      | Resolves mediaStream => Some mediaStream
      | Rejects _ => firstGranted browser rest
      end
  end.

(** Lines 1408-1412: the message for the [name] of what was caught. *)
Definition cameraMessage (name : option string) : string :=
  let message :=
    "Camera access was denied. Please allow camera access and try again." in
  let message :=
    if match name with Some n => String.eqb n "NotFoundError" | None => false end
    then "No camera was found on this device." else message in
  let message :=
    if match name with Some n => String.eqb n "NotReadableError" | None => false end
    then "Camera is in use by another app. Close it and try again."
    else message in
  let message :=
    if match name with Some n => String.eqb n "OverconstrainedError" | None => false end
    then "Camera settings are not supported on this device. Try again."
    else message in
  message.

(** Lines 1366-1383: the accurate model, or the fast one when the accurate
    one cannot be created. *)
Definition loadDetector (browser : Browser) : Settled ModelType :=
  match createDetector browser SINGLEPOSE_THUNDER with
  | Resolves _ => Resolves SINGLEPOSE_THUNDER
  | Rejects _ =>
      match createDetector browser SINGLEPOSE_LIGHTNING with
      | Resolves _ => Resolves SINGLEPOSE_LIGHTNING
      | Rejects name => Rejects name
      end
  end.

(** Lines 1355-1404: the handler of [loadedmetadata].  Between [play] and
    the import it awaits [ensureTensorflowReady], which catches what its
    steps throw and never rejects. *)
Definition onloadedmetadata (browser : Browser) (st : Startup) : Startup :=
  let failed :=
    {| gameState := GS_name;
       isLoading := false;
       uiError := Some "Failed to start the game. Please refresh and try again.";
       stream := stream st;
       tracksStopped := true;
       detector := detector st;
       roundArmed := roundArmed st |} in
  match play browser with
  | Rejects _ => failed
  | Resolves _ =>
      match importPoseDetection browser with
      | Rejects _ => failed
      | Resolves _ =>
          match loadDetector browser with
          | Rejects _ => failed
          | Resolves poseDetector =>
              {| gameState := GS_playing;
                 isLoading := false;
                 uiError := uiError st;
                 stream := stream st;
                 tracksStopped := tracksStopped st;
                 detector := Some poseDetector;
                 roundArmed := true |}
          end
      end
  end.

Definition initializeCamera (browser : Browser) (st : Startup) : Startup :=
  let st :=
    {| gameState := gameState st; isLoading := true; uiError := None;
       stream := stream st; tracksStopped := tracksStopped st;
       detector := detector st; roundArmed := roundArmed st |} in
  match firstGranted browser tryConstraints with
  | None =>
      (* throw new Error('Unable to access camera ...'), caught below *)
      {| gameState := GS_name; isLoading := isLoading st;
         uiError := Some (cameraMessage (Some "Error"));
         stream := stream st; tracksStopped := tracksStopped st;
         detector := detector st; roundArmed := roundArmed st |}
  | Some mediaStream =>
      let st :=
        {| gameState := gameState st; isLoading := isLoading st;
           uiError := uiError st; stream := Some mediaStream;
           tracksStopped := tracksStopped st; detector := detector st;
           roundArmed := roundArmed st |} in
      if videoMounted browser && metadataLoaded browser
      then onloadedmetadata browser st
      else st
  end.

End Platform.

Arguments mkBrowser {MediaStream}.
Arguments getUserMedia {MediaStream}.
Arguments videoMounted {MediaStream}.
Arguments metadataLoaded {MediaStream}.
Arguments play {MediaStream}.
Arguments importPoseDetection {MediaStream}.
Arguments createDetector {MediaStream}.
Arguments mkStartup {MediaStream}.
Arguments gameState {MediaStream}.
Arguments isLoading {MediaStream}.
Arguments uiError {MediaStream}.
Arguments stream {MediaStream}.
Arguments tracksStopped {MediaStream}.
Arguments detector {MediaStream}.
Arguments roundArmed {MediaStream}.
Arguments firstGranted {MediaStream}.
Arguments loadDetector {MediaStream}.
Arguments onloadedmetadata {MediaStream}.
Arguments initializeCamera {MediaStream}.

End Camera.

(** * Properties *)

(** ** Joints and validators *)

Module ValidatorsSpec.

Import JS Geometry Validators.
Open Scope string_scope.
Open Scope list_scope.

(** The confidence [getKp] compares with the threshold. *)
Definition confidence (k : Keypoint) : float := nullish (score k) 0%float.

(** No keypoint of the pose carries the name. *)
Definition absent (pose : Pose) (j : string) : Prop :=
  forall k, In k (keypoints pose) -> Geometry.name k <> Some j.

(** The keypoint [getKp] finds under the name has a confidence below
    [MIN_KP_SCORE]. *)
Definition low_confidence (pose : Pose) (j : string) : Prop :=
  exists k, find (has_name j) (keypoints pose) = Some k /\
            (confidence k <? MIN_KP_SCORE)%float = true.

Definition unusable (pose : Pose) (j : string) : Prop :=
  absent pose j \/ low_confidence pose j.

Lemma find_has_name_none pose j :
  absent pose j -> find (has_name j) (keypoints pose) = None.
Proof.
  unfold absent. induction (keypoints pose) as [|k ks IH]; intros Habs.
  - reflexivity.
  - simpl. unfold has_name at 1.
    destruct (Geometry.name k) as [n|] eqn:Hn.
    + destruct (String.eqb_spec n j) as [->|Hne].
      * exfalso. apply (Habs k); [now left | exact Hn].
      * apply IH. intros k' Hin. apply Habs. now right.
    + apply IH. intros k' Hin. apply Habs. now right.
Qed.

Lemma getKp_unusable pose j : unusable pose j -> getKp pose j = None.
Proof.
  unfold getKp, getKp_min. intros [Habs | (k & Hfind & Hlow)].
  - now rewrite (find_has_name_none pose j Habs).
  - rewrite Hfind. unfold confidence in Hlow. now rewrite Hlow.
Qed.

Lemma getKp_usable pose j k :
  getKp pose j = Some k ->
  In k (keypoints pose) /\ Geometry.name k = Some j /\
  (confidence k <? MIN_KP_SCORE)%float = false.
Proof.
  unfold getKp, getKp_min, confidence.
  destruct (find (has_name j) (keypoints pose)) as [k'|] eqn:Hfind; [|discriminate].
  destruct (nullish (score k') 0 <? MIN_KP_SCORE)%float eqn:Hlow; [discriminate|].
  intros [= <-]. apply find_some in Hfind as [Hin Hname].
  repeat split; auto.
  unfold has_name in Hname. destruct (Geometry.name k') as [n|]; [|discriminate].
  apply String.eqb_eq in Hname. now subst.
Qed.

(** Every case of a validator's guard that misses a joint returns 0. *)
Ltac guard_returns_zero H :=
  cbv beta delta [validate] iota; cbv beta zeta delta -[getKp score01To100 clamp shoulderScale dist avgX avgY angleDeg Math_abs Math_max Math_min or_else];
  rewrite H;
  repeat match goal with
         | |- context [match getKp ?p ?n with _ => _ end] =>
             destruct (getKp p n)
         end;
  reflexivity.

Lemma validate_guard (Math_acos : float -> float) (c : Challenge) (pose : Pose) (j : string) :
  In c (challenges Math_acos) -> In j (required c) ->
  getKp pose j = None -> validate c pose = 0%float.
Proof.
  intros Hc Hj Hnone. unfold challenges in Hc.
  repeat (destruct Hc as [<- | Hc];
          [ cbn [required In] in Hj;
            repeat (destruct Hj as [<- | Hj]; [ guard_returns_zero Hnone | ]);
            contradiction | ]).
  contradiction.
Qed.

(** A confident keypoint of a sample pose. *)
Definition kp (n : string) (px py : float) : Keypoint :=
  mkKeypoint px py (Some 0.9%float) (Some n).

(** Both wrists raised, the nose not tracked, the left wrist below the
    confidence threshold. *)
Definition pose_without_nose : Pose :=
  mkPose [ mkKeypoint 300 80 (Some 0.2%float) (Some "left_wrist");
           kp "right_wrist" 340 80;
           kp "left_shoulder" 280 200;
           kp "right_shoulder" 360 200 ].

(** Arms out and feet apart with both shoulders tracked at one point, the
    wrists level with them. *)
Definition pose_shoulders_coincide : Pose :=
  mkPose [ kp "left_shoulder" 100 100; kp "right_shoulder" 100 100;
           kp "left_wrist" 50 100; kp "right_wrist" 150 100;
           kp "left_ankle" 80 300; kp "right_ankle" 120 300 ].

(** The same with the wrists 20 pixels below the shoulders. *)
Definition pose_shoulders_coincide_low : Pose :=
  mkPose [ kp "left_shoulder" 100 100; kp "right_shoulder" 100 100;
           kp "left_wrist" 50 120; kp "right_wrist" 150 120;
           kp "left_ankle" 80 300; kp "right_ankle" 120 300 ].

(** C5.  For every pose and every validator of the registry, if a joint
    the validator requires is absent from the pose, or the keypoint found
    under its name has a confidence below MIN_KP_SCORE (0.35), the
    validator returns exactly 0. *)
Theorem validator_returns_0_on_unusable_joint
  (Math_acos : float -> float) (c : Challenge) (pose : Pose) (j : string) :
  In c (challenges Math_acos) -> In j (required c) ->
  unusable pose j -> validate c pose = 0%float.
Proof.
  intros Hc Hj Hu. apply (validate_guard Math_acos c pose j Hc Hj).
  now apply getKp_unusable.
Qed.

Lemma validator_returns_0_on_unusable_joint_witness :
  unusable pose_without_nose "nose" /\
  unusable pose_without_nose "left_wrist" /\
  validate_Hands_Up pose_without_nose = 0%float /\
  validate_Clap pose_without_nose = 0%float.
Proof.
  assert (Hnose : unusable pose_without_nose "nose").
  { left. intros k Hin. simpl in Hin.
    repeat (destruct Hin as [<- | Hin]; [ discriminate | ]). contradiction. }
  assert (Hwrist : unusable pose_without_nose "left_wrist").
  { right. eexists. split; [ reflexivity | vm_compute; reflexivity ]. }
  split; [ exact Hnose | split; [ exact Hwrist | split ] ].
  - refine (validator_returns_0_on_unusable_joint (fun v => v)
              (mkChallenge "Hands Up" "Raise both hands above your head"
                 ["nose"; "left_wrist"; "right_wrist"] validate_Hands_Up)
              pose_without_nose "nose" _ _ Hnose).
    + simpl. right. left. reflexivity.
    + simpl. left. reflexivity.
  - refine (validator_returns_0_on_unusable_joint (fun v => v)
              (mkChallenge "Clap" "Bring your hands together"
                 ["left_wrist"; "right_wrist"] validate_Clap)
              pose_without_nose "left_wrist" _ _ Hwrist).
    + simpl. do 7 right. left. reflexivity.
    + simpl. left. reflexivity.
Defined.

(** [s > 1] implies [s > 0]. *)
Lemma gt_1_gt_0 (s : float) : (1 <? s)%float = true -> (0 <? s)%float = true.
Proof.
  rewrite !FloatAxioms.ltb_spec.
  destruct (Prim2SF s) as [sg|sg| |sg m e]; vm_compute; try congruence;
    destruct sg; congruence.
Qed.

Lemma width_over_1_spec a b s :
  width_over_1 a b = Some s -> (1 <? s)%float = true.
Proof.
  unfold width_over_1. destruct a as [ka|], b as [kb|]; try discriminate.
  destruct (1 <? dist ka kb)%float eqn:H; [|discriminate].
  now intros [= <-].
Qed.

(** [shoulderScale] is a distance above 1 or the constant 100, and so
    strictly positive, on every pose. *)
Lemma shoulderScale_positive (pose : Pose) :
  ((1 <? shoulderScale pose)%float = true \/ shoulderScale pose = 100%float) /\
  (0 <? shoulderScale pose)%float = true.
Proof.
  unfold shoulderScale.
  destruct (width_over_1 (getKp pose "left_shoulder") (getKp pose "right_shoulder"))
    as [s|] eqn:Hs.
  - apply width_over_1_spec in Hs. split; [now left | now apply gt_1_gt_0].
  - destruct (width_over_1 (getKp pose "left_hip") (getKp pose "right_hip"))
      as [s|] eqn:Hh.
    + apply width_over_1_spec in Hh. split; [now left | now apply gt_1_gt_0].
    + split; [now right | reflexivity].
Qed.

(** C10, at the failing input.  [Warrior] and [Grinch Pose] scale by the
    raw shoulder distance, not by [shoulderScale]: with both shoulders
    tracked at one point every divisor of [Warrior] is 0 although
    [shoulderScale] is 100, and the percentage is NaN (wrists level with
    the shoulders) or a passing 80 (wrists 20 pixels lower). *)
Theorem Warrior_divides_by_zero_shoulder_distance :
  shoulderScale pose_shoulders_coincide = 100%float /\
  (exists ls rs,
      getKp pose_shoulders_coincide "left_shoulder" = Some ls /\
      getKp pose_shoulders_coincide "right_shoulder" = Some rs /\
      (1.45 * dist ls rs = 0)%float /\
      (0.32 * dist ls rs = 0)%float /\
      (1.6 * dist ls rs = 0)%float) /\
  PrimFloat.is_nan (validate_Warrior pose_shoulders_coincide) = true /\
  PrimFloat.is_nan (validate_Grinch_Pose pose_shoulders_coincide_low) = true /\
  validate_Warrior pose_shoulders_coincide_low = 80%float.
Proof.
  split; [ vm_compute; reflexivity | split ].
  - exists (kp "left_shoulder" 100 100), (kp "right_shoulder" 100 100).
    repeat split; vm_compute; reflexivity.
  - repeat split; vm_compute; reflexivity.
Qed.

End ValidatorsSpec.

(** ** The leaderboard *)

Module LeaderboardSpec.

Import Exn Leaderboard.
Open Scope string_scope.
Open Scope list_scope.
Open Scope Z_scope.

(** *** The sort *)

Section SortFacts.

Context {A : Type} (cmp : A -> A -> Z).

(** [a] may stand before [b]. *)
Definition before (a b : A) : Prop := cmp a b <= 0.

Lemma insert_perm a l : Permutation (a :: l) (insert cmp a l).
Proof.
  induction l as [|b l IH]; simpl; [reflexivity|].
  destruct (cmp a b <=? 0); [reflexivity|].
  rewrite perm_swap. now constructor.
Qed.

Lemma sort_perm l : Permutation l (sort cmp l).
Proof.
  induction l as [|a l IH]; simpl; [constructor|].
  rewrite <- insert_perm. now constructor.
Qed.

Lemma sort_length l : List.length (sort cmp l) = List.length l.
Proof. symmetry. apply Permutation_length, sort_perm. Qed.

Lemma sort_In a l : In a (sort cmp l) <-> In a l.
Proof.
  split; apply Permutation_in; [symmetry|]; apply sort_perm.
Qed.

(** Stability: elements that the comparator does not separate keep their
    order. *)
Lemma insert_filter (p : A -> bool) a l :
  (forall b, In b l -> p a = true -> p b = true -> cmp a b <= 0) ->
  filter p (insert cmp a l) = filter p (a :: l).
Proof.
  induction l as [|b l IH]; intros H; [reflexivity|].
  simpl. destruct (cmp a b <=? 0) eqn:Hab; [reflexivity|].
  apply Z.leb_gt in Hab. simpl.
  rewrite IH by (intros; apply H; auto; now right). simpl.
  destruct (p a) eqn:Hpa, (p b) eqn:Hpb; try reflexivity.
  exfalso. specialize (H b (or_introl eq_refl) eq_refl Hpb). lia.
Qed.

Lemma sort_filter_stable (p : A -> bool) l :
  (forall a b, p a = true -> p b = true -> cmp a b <= 0) ->
  filter p (sort cmp l) = filter p l.
Proof.
  intros H. induction l as [|a l IH]; [reflexivity|].
  simpl sort. rewrite insert_filter by (intros; now apply H).
  simpl. now rewrite IH.
Qed.

Hypothesis cmp_total : forall a b, 0 < cmp a b -> cmp b a <= 0.
Hypothesis cmp_trans :
  forall a b c, cmp a b <= 0 -> cmp b c <= 0 -> cmp a c <= 0.

Lemma insert_sorted a l :
  StronglySorted before l -> StronglySorted before (insert cmp a l).
Proof.
  induction 1 as [|b l Hs IH Hb]; simpl.
  - repeat constructor.
  - destruct (cmp a b <=? 0) eqn:Hab.
    + apply Z.leb_le in Hab. constructor; [now constructor|].
      constructor; [exact Hab|].
      eapply Forall_impl; [|exact Hb]. intros c Hc. now apply (cmp_trans a b c).
    + apply Z.leb_gt in Hab. constructor; [exact IH|].
      rewrite Forall_forall. intros c Hc.
      apply (Permutation_in _ (Permutation_sym (insert_perm a l))) in Hc.
      destruct Hc as [<-|Hc]; [now apply cmp_total|].
      rewrite Forall_forall in Hb. now apply Hb.
Qed.

Lemma sort_sorted l : StronglySorted before (sort cmp l).
Proof.
  induction l as [|a l IH]; simpl; [constructor | now apply insert_sorted].
Qed.

End SortFacts.

(** *** Prefixes of sorted lists *)

Lemma In_firstn {A} n (l : list A) a : In a (firstn n l) -> In a l.
Proof.
  intros H. rewrite <- (firstn_skipn n l). apply in_or_app. now left.
Qed.

Lemma In_skipn {A} n (l : list A) a : In a (skipn n l) -> In a l.
Proof.
  intros H. rewrite <- (firstn_skipn n l). apply in_or_app. now right.
Qed.

Lemma StronglySorted_firstn {A} (R : A -> A -> Prop) n l :
  StronglySorted R l -> StronglySorted R (firstn n l).
Proof.
  intros H. revert n. induction H as [|a l Hs IH Ha]; intros [|n]; simpl;
    try constructor; auto.
  rewrite Forall_forall in *. intros b Hb. apply Ha.
  now apply (In_firstn n l).
Qed.

Lemma StronglySorted_split {A} (R : A -> A -> Prop) n l :
  StronglySorted R l ->
  forall a b, In a (firstn n l) -> In b (skipn n l) -> R a b.
Proof.
  intros H. revert n. induction H as [|c l Hs IH Hc]; intros n a b Ha Hb.
  - destruct n; simpl in Ha; contradiction.
  - destruct n as [|n]; simpl in Ha, Hb; [contradiction|].
    destruct Ha as [<-|Ha].
    + rewrite Forall_forall in Hc. apply Hc. now apply (In_skipn n l).
    + now apply (IH n).
Qed.

Lemma NoDup_firstn {A} n (l : list A) : NoDup l -> NoDup (firstn n l).
Proof.
  intros H. rewrite <- (firstn_skipn n l) in H.
  now apply NoDup_app_remove_r in H.
Qed.

Lemma Permutation_filter {A} (p : A -> bool) l l' :
  Permutation l l' -> Permutation (filter p l) (filter p l').
Proof.
  induction 1 as [|a l l' H IH|a b l|l l' l'' H IH H' IH']; simpl.
  - constructor.
  - destruct (p a); [now constructor | exact IH].
  - destruct (p a), (p b); try reflexivity. apply perm_swap.
  - now transitivity (filter p l').
Qed.

(** *** The comparators *)

Lemma by_score_total a b : 0 < by_score a b -> by_score b a <= 0.
Proof. unfold by_score. lia. Qed.

Lemma by_score_trans a b c :
  by_score a b <= 0 -> by_score b c <= 0 -> by_score a c <= 0.
Proof. unfold by_score. lia. Qed.

Lemma by_score_then_recent_spec a b :
  by_score_then_recent a b <= 0 <->
  score b < score a \/ (score b = score a /\ timestamp b <= timestamp a).
Proof.
  unfold by_score_then_recent.
  destruct (score b - score a =? 0) eqn:H; simpl.
  - apply Z.eqb_eq in H. lia.
  - apply Z.eqb_neq in H. lia.
Qed.

Lemma by_score_then_recent_total a b :
  0 < by_score_then_recent a b -> by_score_then_recent b a <= 0.
Proof.
  intros H. apply by_score_then_recent_spec.
  assert (H' : ~ by_score_then_recent a b <= 0) by lia.
  rewrite by_score_then_recent_spec in H'. lia.
Qed.

Lemma by_score_then_recent_trans a b c :
  by_score_then_recent a b <= 0 -> by_score_then_recent b c <= 0 ->
  by_score_then_recent a c <= 0.
Proof. rewrite !by_score_then_recent_spec. lia. Qed.

(** *** The merge *)

Section MergeFacts.

Variable toLowerCase : string -> string.

(** The identity of a player: the lower-cased name. *)
Definition key (e : LeaderboardEntry) : string := toLowerCase (name e).

Definition keys (l : list Item) : list string := map key (valid_entries l).

(** At most one entry per case-insensitive name. *)
Definition unique_names (l : list Item) : Prop := NoDup (keys l).

Definition all_valid (l : list Item) : Prop :=
  Forall (fun it => it <> Invalid) l.

(** Entries as the application writes them: every element is an entry, and
    a recorded number of attempts is not negative. *)
Definition well_formed (l : list Item) : Prop :=
  all_valid l /\
  forall e n, In e (valid_entries l) -> attempts e = Some n -> 0 <= n.

Lemma same_player_iff a b :
  same_player toLowerCase a b = true <-> toLowerCase a = toLowerCase b.
Proof. unfold same_player. apply String.eqb_eq. Qed.

Lemma read_guarded_items s : read_guarded s = items_of s.
Proof. now destruct s. Qed.

Lemma valid_entries_map_Valid l : valid_entries (map Valid l) = l.
Proof. induction l as [|e l IH]; simpl; [|rewrite IH]; reflexivity. Qed.

Lemma valid_entries_app l1 l2 :
  valid_entries (l1 ++ l2) = valid_entries l1 ++ valid_entries l2.
Proof. unfold valid_entries. apply flat_map_app. Qed.

Lemma all_valid_map_Valid l : all_valid (map Valid l).
Proof. induction l; constructor; [discriminate | assumption]. Qed.

Lemma all_valid_length l :
  all_valid l -> List.length (valid_entries l) = List.length l.
Proof.
  induction 1 as [|it l Hit _ IH]; [reflexivity|].
  destruct it; [contradiction|]. simpl. now rewrite IH.
Qed.

Lemma valid_entries_length l :
  (List.length (valid_entries l) <= List.length l)%nat.
Proof.
  induction l as [|[|e] l IH]; simpl; lia.
Qed.

Lemma entries_of_key who who' l :
  toLowerCase who = toLowerCase who' ->
  entries_of toLowerCase who l = entries_of toLowerCase who' l.
Proof.
  intros H. unfold entries_of, same_player. now rewrite H.
Qed.

Lemma entries_of_In who l e :
  In e (entries_of toLowerCase who l) <->
  In e (valid_entries l) /\ key e = toLowerCase who.
Proof.
  unfold entries_of. rewrite filter_In, same_player_iff. reflexivity.
Qed.

Lemma entries_of_nil who l :
  entries_of toLowerCase who l = [] <-> ~ In (toLowerCase who) (keys l).
Proof.
  unfold keys. rewrite in_map_iff. split.
  - intros H (e & He & Hin).
    assert (Hin' : In e (entries_of toLowerCase who l))
      by (apply entries_of_In; auto).
    rewrite H in Hin'. contradiction.
  - intros H. destruct (entries_of toLowerCase who l) as [|e es] eqn:E; [reflexivity|].
    exfalso. apply H. exists e.
    assert (Hin : In e (entries_of toLowerCase who l)) by (rewrite E; now left).
    apply entries_of_In in Hin. tauto.
Qed.

(** *** [findIndex] *)

Lemma findIndex_None l who :
  findIndex toLowerCase l who = Return None ->
  all_valid l /\ ~ In (toLowerCase who) (keys l).
Proof.
  induction l as [|[|e] l IH]; simpl.
  - intros _. split; [constructor | intros []].
  - discriminate.
  - destruct (same_player toLowerCase (name e) who) eqn:Hs; [discriminate|].
    destruct (findIndex toLowerCase l who) as [[i|]|err]; cbv [fmap bind option_map]; try discriminate.
    intros _. destruct (IH eq_refl) as [Hv Hn]. split.
    + constructor; [discriminate | exact Hv].
    + unfold keys. simpl. intros [Hk | Hin]; [|now apply Hn].
      unfold key in Hk. apply same_player_iff in Hk. congruence.
Qed.

Lemma findIndex_Some l who i :
  findIndex toLowerCase l who = Return (Some i) ->
  exists e, nth_error l i = Some (Valid e) /\ key e = toLowerCase who.
Proof.
  revert i. induction l as [|[|e] l IH]; simpl; intros i.
  - discriminate.
  - discriminate.
  - destruct (same_player toLowerCase (name e) who) eqn:Hs.
    + intros [= <-]. exists e. split; [reflexivity|]. now apply same_player_iff.
    + destruct (findIndex toLowerCase l who) as [[j|]|err]; cbv [fmap bind option_map]; try discriminate.
      intros [= <-]. apply (IH j eq_refl).
Qed.

Lemma findIndex_returns l who :
  all_valid l -> exists r, findIndex toLowerCase l who = Return r.
Proof.
  induction 1 as [|[|e] l Hit _ IH]; simpl.
  - now exists None.
  - contradiction.
  - destruct (same_player toLowerCase (name e) who); [now exists (Some O)|].
    destruct IH as [r ->]. cbv [fmap bind]. now eexists.
Qed.

(** *** Updating an entry in place *)

Lemma update_at_length l i f : List.length (update_at l i f) = List.length l.
Proof.
  revert i. induction l as [|it l IH]; intros i; [reflexivity|].
  destruct i, it; simpl; auto.
Qed.

Lemma update_at_all_valid l i f : all_valid l -> all_valid (update_at l i f).
Proof.
  intros H. revert i. induction H as [|it l Hit Hl IH]; intros i; [constructor|].
  destruct it as [|e]; [now elim Hit|].
  destruct i; simpl; constructor; try discriminate; try exact Hl; apply IH.
Qed.

Lemma update_at_keys l i f :
  (forall e, name (f e) = name e) -> keys (update_at l i f) = keys l.
Proof.
  intros Hf. revert i. induction l as [|it l IH]; intros i; [reflexivity|].
  unfold keys in *. destruct i as [|i], it as [|e]; simpl.
  - reflexivity.
  - unfold key. now rewrite Hf.
  - apply IH.
  - f_equal. apply IH.
Qed.

Lemma update_at_entries_of l i f e who :
  unique_names l -> nth_error l i = Some (Valid e) ->
  key e = toLowerCase who -> key (f e) = toLowerCase who ->
  entries_of toLowerCase who (update_at l i f) = [f e].
Proof.
  intros Hu Hn He Hfe. revert i Hu Hn.
  induction l as [|it l IH]; intros i Hu Hn; [destruct i; discriminate|].
  destruct i as [|i]; simpl in Hn.
  - injection Hn as ->. simpl. unfold entries_of. simpl.
    apply same_player_iff in Hfe. unfold key in Hfe. fold (key (f e)) in *.
    unfold key. rewrite Hfe.
    unfold unique_names, keys in Hu. simpl in Hu. inversion Hu as [|k ks Hnotin _]; subst.
    assert (E : entries_of toLowerCase who l = []).
    { apply entries_of_nil. now rewrite <- He. }
    unfold entries_of in E. now rewrite E.
  - assert (Hin : In (toLowerCase who) (keys l)).
    { unfold keys. apply in_map_iff. exists e. split; [exact He|].
      unfold valid_entries. apply in_flat_map. exists (Valid e).
      split; [now apply nth_error_In with i | now left]. }
    destruct it as [|e0]; simpl.
    + apply (IH i); auto.
    + unfold unique_names, keys in Hu. simpl in Hu.
      inversion Hu as [|k ks Hnotin Hnd]; subst.
      unfold entries_of. simpl.
      destruct (same_player toLowerCase (name e0) who) eqn:Hs.
      * apply same_player_iff in Hs. exfalso. apply Hnotin.
        unfold key at 1. rewrite Hs. exact Hin.
      * apply (IH i); auto.
Qed.

Lemma update_at_entries l i f x :
  In x (valid_entries (update_at l i f)) ->
  In x (valid_entries l) \/ exists e, In e (valid_entries l) /\ x = f e.
Proof.
  revert i. induction l as [|it l IH]; intros i; [destruct i; intros []|].
  destruct i as [|i], it as [|e]; simpl.
  - auto.
  - intros [<-|H]; [right; exists e; auto | auto].
  - intros H. destruct (IH i H) as [|(e & He & ->)]; eauto.
  - intros [<-|H]; [auto|].
    destruct (IH i H) as [|(e' & He & ->)]; eauto.
Qed.

(** *** One entry per player *)

Lemma filter_nil {A} (p : A -> bool) l :
  (forall a, In a l -> p a = false) -> filter p l = [].
Proof.
  induction l as [|a l IH]; intros H; [reflexivity|].
  simpl. rewrite (H a (or_introl eq_refl)). apply IH. intros; apply H; now right.
Qed.

Lemma filter_unique es e who :
  NoDup (map key es) -> In e es -> key e = toLowerCase who ->
  filter (fun x => same_player toLowerCase (name x) who) es = [e].
Proof.
  induction es as [|x es IH]; intros Hnd Hin He; [contradiction|].
  simpl in Hnd. inversion Hnd as [|k ks Hnotin Hnd']; subst.
  simpl. destruct Hin as [->|Hin].
  - assert (Hs : same_player toLowerCase (name e) who = true)
      by now apply same_player_iff.
    rewrite Hs. f_equal. apply filter_nil. intros y Hy.
    destruct (same_player toLowerCase (name y) who) eqn:Hsy; [|reflexivity].
    apply same_player_iff in Hsy. exfalso. apply Hnotin.
    apply in_map_iff. exists y. split; [|exact Hy]. unfold key in *. congruence.
  - destruct (same_player toLowerCase (name x) who) eqn:Hs.
    + apply same_player_iff in Hs. exfalso. apply Hnotin.
      apply in_map_iff. exists e. split; [|exact Hin]. unfold key in *. congruence.
    + now apply IH.
Qed.

Lemma entries_of_unique who l :
  unique_names l ->
  entries_of toLowerCase who l = [] \/
  exists e, entries_of toLowerCase who l = [e].
Proof.
  intros Hu. destruct (entries_of toLowerCase who l) as [|e es] eqn:E; [now left|].
  right. exists e.
  assert (Hin : In e (entries_of toLowerCase who l)) by (rewrite E; now left).
  apply entries_of_In in Hin as [Hin He]. rewrite <- E.
  now apply filter_unique.
Qed.

(** *** Ordering and bounding *)

Lemma ordered_perm l : Permutation (valid_entries l) (ordered l).
Proof. apply sort_perm. Qed.

Lemma bounded_fits l :
  (List.length l <= MAX_ENTRIES)%nat -> bounded l = ordered l.
Proof.
  intros H. unfold bounded. apply firstn_all2. unfold ordered.
  rewrite sort_length. pose proof (valid_entries_length l). lia.
Qed.

Lemma bounded_length l : (List.length (bounded l) <= MAX_ENTRIES)%nat.
Proof. unfold bounded. apply firstn_le_length. Qed.

Lemma bounded_In l e : In e (bounded l) -> In e (valid_entries l).
Proof.
  intros H. apply In_firstn in H.
  now apply (Permutation_in _ (Permutation_sym (ordered_perm l))).
Qed.

Lemma bounded_unique l : unique_names l -> unique_names (map Valid (bounded l)).
Proof.
  unfold unique_names, keys. rewrite valid_entries_map_Valid.
  intros H. unfold bounded. rewrite <- firstn_map. apply NoDup_firstn.
  eapply Permutation_NoDup; [|exact H].
  apply Permutation_map, ordered_perm.
Qed.

Lemma ordered_entries_of who l :
  Permutation (entries_of toLowerCase who l)
              (entries_of toLowerCase who (map Valid (ordered l))).
Proof.
  unfold entries_of. rewrite valid_entries_map_Valid.
  apply Permutation_filter, ordered_perm.
Qed.

(** *** One merge *)

Definition new_entry (who : string) (s a t : Z) : LeaderboardEntry :=
  {| name := who; score := s; accuracy := a; timestamp := t;
     attempts := Some 1 |}.

(** The entry of the player after a merge, from the entries before it. *)
Definition merged_entry (before : list LeaderboardEntry)
  (who : string) (s a t : Z) : LeaderboardEntry :=
  match before with
  | [] => new_entry who s a t
  | e0 :: _ => accumulate e0 s a t
  end.

Lemma finishGame_keeps_unique existing who s a t :
  unique_names (items_of existing) ->
  unique_names
    (items_of (after existing (finishGame toLowerCase existing who s a t))).
Proof.
  intros Hu. unfold finishGame, merge_player. rewrite read_guarded_items.
  destruct (findIndex toLowerCase (items_of existing) who) as [[i|]|err] eqn:Hf;
    cbv [bind after catch]; [| |exact Hu]; cbn [items_of]; apply bounded_unique.
  - unfold unique_names. now rewrite update_at_keys.
  - apply findIndex_None in Hf as [_ Hn].
    unfold unique_names, keys. rewrite valid_entries_app, map_app. simpl.
    apply NoDup_app; [exact Hu | repeat constructor; intros [] |].
    intros k Hk [<-|[]]. now apply Hn.
Qed.

Lemma finishGame_once l who s a t :
  well_formed l -> unique_names l ->
  (List.length l <= MAX_ENTRIES)%nat ->
  (entries_of toLowerCase who l = [] -> (List.length l < MAX_ENTRIES)%nat) ->
  exists l',
    finishGame toLowerCase (ArrayOf l) who s a t = Return (ArrayOf l') /\
    well_formed l' /\ unique_names l' /\
    (List.length l' <= MAX_ENTRIES)%nat /\
    entries_of toLowerCase who l' =
      [merged_entry (entries_of toLowerCase who l) who s a t].
Proof.
  intros [Hv Hatt] Hu Hlen Hroom.
  pose proof (finishGame_keeps_unique (ArrayOf l) who s a t Hu) as Hu'.
  unfold finishGame, merge_player in *. rewrite read_guarded_items in *.
  cbn [items_of] in *.
  destruct (findIndex_returns l who Hv) as [[i|] Hf]; rewrite Hf in *;
    cbv [bind after catch] in *; cbn [items_of] in Hu';
    eexists; (split; [reflexivity|]).
  - (* the player has an entry *)
    apply findIndex_Some in Hf as (e & Hnth & He).
    assert (Hin : In e (valid_entries l)).
    { unfold valid_entries. apply in_flat_map. exists (Valid e).
      split; [now apply nth_error_In with i | now left]. }
    assert (E : entries_of toLowerCase who l = [e])
      by (unfold entries_of; now apply filter_unique).
    set (m := update_at l i (fun e => accumulate e s a t)) in *.
    assert (Hm : (List.length m <= MAX_ENTRIES)%nat)
      by (unfold m; now rewrite update_at_length).
    rewrite (bounded_fits m Hm) in *.
    split; [split|split; [exact Hu'|split]].
    + apply all_valid_map_Valid.
    + intros x n Hx Hxn. rewrite valid_entries_map_Valid in Hx.
      apply (Permutation_in _ (Permutation_sym (ordered_perm m))) in Hx.
      apply update_at_entries in Hx as [Hx|(e' & He' & ->)]; [eauto|].
      simpl in Hxn. injection Hxn as <-.
      assert (1 <= attempts_or_1 (attempts e')).
      { unfold attempts_or_1. destruct (attempts e') as [k|] eqn:Hk; [|lia].
        specialize (Hatt e' k He' Hk). destruct (k =? 0) eqn:Hk0; [lia|].
        apply Z.eqb_neq in Hk0. lia. }
      lia.
    + rewrite length_map. unfold ordered. rewrite sort_length.
      pose proof (valid_entries_length m). lia.
    + rewrite E. simpl.
      apply Permutation_length_1_inv. rewrite <- ordered_entries_of.
      unfold m. now rewrite (update_at_entries_of l i _ e who).
  - (* a new player *)
    apply findIndex_None in Hf as [_ Hn].
    assert (E : entries_of toLowerCase who l = []) by now apply entries_of_nil.
    specialize (Hroom E).
    set (m := l ++ [Valid (new_entry who s a t)]) in *.
    change (l ++ [Valid {| name := who; score := s; accuracy := a;
                           timestamp := t; attempts := Some 1 |}]) with m in *.
    assert (Hm : (List.length m <= MAX_ENTRIES)%nat)
      by (unfold m; rewrite length_app; simpl; lia).
    rewrite (bounded_fits m Hm) in *.
    split; [split|split; [exact Hu'|split]].
    + apply all_valid_map_Valid.
    + intros x n Hx Hxn. rewrite valid_entries_map_Valid in Hx.
      apply (Permutation_in _ (Permutation_sym (ordered_perm m))) in Hx.
      unfold m in Hx. rewrite valid_entries_app in Hx.
      apply in_app_or in Hx as [Hx|[<-|[]]]; [eauto|].
      simpl in Hxn. injection Hxn as <-. lia.
    + rewrite length_map. unfold ordered. rewrite sort_length.
      pose proof (valid_entries_length m). lia.
    + rewrite E. simpl.
      apply Permutation_length_1_inv. rewrite <- ordered_entries_of.
      unfold m, entries_of. rewrite valid_entries_app, filter_app.
      unfold entries_of in E. rewrite E. simpl.
      assert (Hs : same_player toLowerCase who who = true)
        by now apply same_player_iff.
      now rewrite Hs.
Qed.

(** The merge completes on every collection whose elements are entries. *)
Lemma finishGame_completes existing who s a t :
  all_valid (items_of existing) ->
  exists l', finishGame toLowerCase existing who s a t = Return (ArrayOf l').
Proof.
  intros Hv. unfold finishGame, merge_player. rewrite read_guarded_items.
  destruct (findIndex_returns (items_of existing) who Hv) as [r ->].
  cbv [bind]. now eexists.
Qed.

(** C9.  For every stored value that is absent, empty, no JSON text, or
    JSON that is not an array, the merge of [finishGame] does what it does
    on the empty collection: no exception escapes (the parse is inside a
    [try] and the result is tested with [Array.isArray]) and the session
    is stored as the only entry, with one attempt. *)
Theorem finishGame_unreadable_is_empty existing who s a t :
  existing = NoItem \/ existing = EmptyText \/
  existing = BadText \/ existing = NotAnArray ->
  finishGame toLowerCase existing who s a t =
    finishGame toLowerCase (ArrayOf []) who s a t /\
  finishGame toLowerCase existing who s a t =
    Return (ArrayOf [Valid (new_entry who s a t)]).
Proof.
  intros [ -> | [ -> | [ -> | -> ]]]; split; reflexivity.
Qed.

(** A finished session, as it is handed to the merge. *)
Record SessionSummary : Type := mkSession {
  playerName : string;
  totalScore : Z;
  meanBestAccuracy : Z;
  completedAt : Z
}.

Definition merge (existing : Stored) (ss : SessionSummary) : outcome Stored :=
  finishGame toLowerCase existing
    (playerName ss) (totalScore ss) (meanBestAccuracy ss) (completedAt ss).

Definition merge_two (existing : Stored) (first second : SessionSummary)
  : outcome Stored :=
  bind (merge existing first) (fun st => merge st second).

(** What the key holds after the sessions have been merged one after the
    other; a merge that throws stores nothing. *)
Definition persisted (existing : Stored) (sessions : list SessionSummary)
  : Stored :=
  fold_left (fun stored ss => after stored (merge stored ss)) sessions existing.

(** C8.  For every stored collection with at most one entry per
    case-insensitive name (an absent or unreadable one among them) and
    every sequence of finished sessions, the collection persisted after
    the sessions have been merged one after the other has at most one
    entry per case-insensitive name. *)
Theorem merged_collection_has_one_entry_per_name existing sessions :
  unique_names (items_of existing) ->
  unique_names (items_of (persisted existing sessions)).
Proof.
  unfold persisted. revert existing.
  induction sessions as [|ss sessions IH]; intros existing Hu; [exact Hu|].
  simpl. apply IH. unfold merge. now apply finishGame_keeps_unique.
Qed.

Definition prior_score (prior : list LeaderboardEntry) : Z :=
  match prior with e :: _ => score e | [] => 0 end.

Definition prior_attempts (prior : list LeaderboardEntry) : Z :=
  match prior with e :: _ => attempts_or_1 (attempts e) | [] => 0 end.

Lemma merge_two_in_order l X Y :
  well_formed l -> unique_names l ->
  (List.length l <= MAX_ENTRIES)%nat ->
  (entries_of toLowerCase (playerName X) l = [] ->
   (List.length l < MAX_ENTRIES)%nat) ->
  toLowerCase (playerName X) = toLowerCase (playerName Y) ->
  exists l' e,
    merge_two (ArrayOf l) X Y = Return (ArrayOf l') /\
    entries_of toLowerCase (playerName X) l' = [e] /\
    score e =
      prior_score (entries_of toLowerCase (playerName X) l)
      + totalScore X + totalScore Y /\
    attempts e =
      Some (prior_attempts (entries_of toLowerCase (playerName X) l) + 2).
Proof.
  intros Hwf Hu Hlen Hroom Hkey. unfold merge_two, merge.
  destruct (finishGame_once l (playerName X) (totalScore X)
              (meanBestAccuracy X) (completedAt X) Hwf Hu Hlen Hroom)
    as (l1 & R1 & Hwf1 & Hu1 & Hlen1 & E1).
  rewrite R1. cbv [bind].
  assert (E1' : entries_of toLowerCase (playerName Y) l1 =
                [merged_entry (entries_of toLowerCase (playerName X) l)
                   (playerName X) (totalScore X) (meanBestAccuracy X)
                   (completedAt X)])
    by (rewrite <- E1; apply entries_of_key; auto).
  destruct (finishGame_once l1 (playerName Y) (totalScore Y)
              (meanBestAccuracy Y) (completedAt Y) Hwf1 Hu1 Hlen1)
    as (l2 & R2 & Hwf2 & Hu2 & Hlen2 & E2).
  { rewrite E1'. discriminate. }
  rewrite R2. rewrite E1' in E2. simpl in E2.
  eexists; eexists; split; [reflexivity|]. split.
  - rewrite (entries_of_key _ _ l2 Hkey). exact E2.
  - destruct Hwf as [_ Hatt].
    destruct (entries_of toLowerCase (playerName X) l) as [|e0 es] eqn:E0;
      simpl; [split; [lia | reflexivity]|].
    assert (Hin : In e0 (valid_entries l)).
    { assert (H : In e0 (entries_of toLowerCase (playerName X) l))
        by (rewrite E0; now left).
      now apply entries_of_In in H. }
    assert (H1 : 1 <= attempts_or_1 (attempts e0)).
    { unfold attempts_or_1. destruct (attempts e0) as [k|] eqn:Hk; [|lia].
      specialize (Hatt e0 k Hin Hk). destruct (k =? 0) eqn:Hk0; [lia|].
      apply Z.eqb_neq in Hk0. lia. }
    split; [lia|]. f_equal.
    destruct (attempts_or_1 (attempts e0) + 1 =? 0) eqn:H0; [|lia].
    apply Z.eqb_eq in H0. lia.
Qed.

(** C6 (amended).  For every collection of well-formed entries with at
    most one entry per case-insensitive name and at most 200 entries, and
    fewer than 200 when the player has none, and every pair of finished
    sessions of one case-insensitive player name, merging both in either
    order yields exactly one entry for the player; its score is the
    player's previous score (0 for a new player) plus both session totals,
    and its attempts is the previous count (1 when unrecorded, 0 for a new
    player) plus 2. *)
Theorem two_sessions_accumulate_given_room l (A B : SessionSummary) :
  well_formed l -> unique_names l ->
  (List.length l <= MAX_ENTRIES)%nat ->
  (entries_of toLowerCase (playerName A) l = [] ->
   (List.length l < MAX_ENTRIES)%nat) ->
  toLowerCase (playerName A) = toLowerCase (playerName B) ->
  forall first second,
    (first, second) = (A, B) \/ (first, second) = (B, A) ->
    exists l' e,
      merge_two (ArrayOf l) first second = Return (ArrayOf l') /\
      entries_of toLowerCase (playerName A) l' = [e] /\
      score e =
        prior_score (entries_of toLowerCase (playerName A) l)
        + (totalScore A + totalScore B) /\
      attempts e =
        Some (prior_attempts (entries_of toLowerCase (playerName A) l) + 2).
Proof.
  intros Hwf Hu Hlen Hroom Hkey first second [[= -> ->]|[= -> ->]].
  - destruct (merge_two_in_order l A B Hwf Hu Hlen Hroom Hkey)
      as (l' & e & R & E & Hs & Ha).
    exists l', e. repeat split; auto. lia.
  - assert (EB : entries_of toLowerCase (playerName B) l =
                 entries_of toLowerCase (playerName A) l)
      by (apply entries_of_key; auto).
    destruct (merge_two_in_order l B A Hwf Hu Hlen) as (l' & e & R & E & Hs & Ha).
    + rewrite EB. exact Hroom.
    + auto.
    + exists l', e. rewrite EB in *. repeat split; auto.
      * rewrite <- E. apply entries_of_key. auto.
      * lia.
Qed.

(** Sortedness in the words of the claims. *)
Definition score_descending (a b : LeaderboardEntry) : Prop :=
  score b <= score a.

Definition score_descending_recent_first (a b : LeaderboardEntry) : Prop :=
  score b < score a \/ (score b = score a /\ timestamp b <= timestamp a).

Lemma StronglySorted_impl {A} (R R' : A -> A -> Prop) l :
  (forall a b, R a b -> R' a b) -> StronglySorted R l -> StronglySorted R' l.
Proof.
  intros H. induction 1 as [|a l Hs IH Ha]; constructor; auto.
  eapply Forall_impl; [|exact Ha]. intros b. apply H.
Qed.

Lemma ordered_sorted l : StronglySorted score_descending (ordered l).
Proof.
  apply StronglySorted_impl with (R := before by_score).
  - unfold before, by_score, score_descending. intros; lia.
  - apply sort_sorted; [exact by_score_total | exact by_score_trans].
Qed.

Lemma ordered_stable l k :
  filter (fun e => score e =? k) (ordered l) =
  filter (fun e => score e =? k) (valid_entries l).
Proof.
  apply sort_filter_stable. intros a b Ha Hb.
  apply Z.eqb_eq in Ha, Hb. unfold by_score. lia.
Qed.

Lemma ranked_sorted filtered :
  StronglySorted score_descending_recent_first (ranked filtered).
Proof.
  apply StronglySorted_impl with (R := before by_score_then_recent).
  - intros a b. apply by_score_then_recent_spec.
  - apply sort_sorted;
      [exact by_score_then_recent_total | exact by_score_then_recent_trans].
Qed.

(** C7 (amended).  After every merge of page-old-complex.tsx that
    completes, the persisted collection contains only entries with a string
    name, is sorted in descending order of score with entries of equal
    score left in the order they had (the most-recent-first tie-break is
    the display ranking of loadLeaderboard, not part of what is persisted),
    and has at most 200 entries, every evicted entry scoring no more than
    every entry kept. *)
Theorem persisted_collection_sorted_and_bounded existing who s a t stored' :
  finishGame toLowerCase existing who s a t = Return stored' ->
  exists merged,
    merge_player toLowerCase (items_of existing) who s a t = Return merged /\
    stored' = ArrayOf (map Valid (bounded merged)) /\
    all_valid (items_of stored') /\
    StronglySorted score_descending (valid_entries (items_of stored')) /\
    (forall k, filter (fun e => score e =? k) (ordered merged) =
               filter (fun e => score e =? k) (valid_entries merged)) /\
    valid_entries (items_of stored') = firstn MAX_ENTRIES (ordered merged) /\
    (List.length (items_of stored') <= MAX_ENTRIES)%nat /\
    Permutation
      (valid_entries (items_of stored') ++ skipn MAX_ENTRIES (ordered merged))
      (valid_entries merged) /\
    (forall kept evicted,
        In kept (valid_entries (items_of stored')) ->
        In evicted (skipn MAX_ENTRIES (ordered merged)) ->
        score evicted <= score kept) /\
    (forall filtered,
        StronglySorted score_descending_recent_first (ranked filtered)).
Proof.
  unfold finishGame. rewrite read_guarded_items.
  destruct (merge_player toLowerCase (items_of existing) who s a t)
    as [merged|err]; cbv [bind]; [|discriminate].
  intros [= <-]. exists merged. cbn [items_of].
  rewrite valid_entries_map_Valid.
  repeat (split; [try reflexivity|]).
  - apply all_valid_map_Valid.
  - apply StronglySorted_firstn, ordered_sorted.
  - apply ordered_stable.
  - rewrite length_map. apply bounded_length.
  - unfold bounded. rewrite firstn_skipn. symmetry. apply ordered_perm.
  - intros kept evicted Hk He.
    apply (StronglySorted_split score_descending MAX_ENTRIES (ordered merged)
             (ordered_sorted merged) kept evicted Hk He).
  - apply ranked_sorted.
Qed.

End MergeFacts.

(** *** Sample collections *)

Fixpoint nodupb (l : list string) : bool :=
  match l with
  | [] => true
  | k :: rest => negb (existsb (String.eqb k) rest) && nodupb rest
  end.

Lemma nodupb_NoDup l : nodupb l = true -> NoDup l.
Proof.
  induction l as [|k l IH]; simpl; [constructor|].
  intros H. apply andb_prop in H as [Hk Hl]. constructor; [|auto].
  intros Hin. apply negb_true_iff in Hk.
  assert (existsb (String.eqb k) l = true); [|congruence].
  apply existsb_exists. exists k. split; [exact Hin | apply String.eqb_refl].
Qed.

Definition digit (n : nat) : ascii := ascii_of_nat (48 + n).

(** The names p000 ... p199. *)
Definition player_name (i : nat) : string :=
  String "p" (String (digit (i / 100))
    (String (digit ((i / 10) mod 10)) (String (digit (i mod 10)) EmptyString))).

(** A full board: 200 players with 100 points each. *)
Definition full_board : list Item :=
  map (fun i => Valid (mkEntry (player_name i) 100 90 (Z.of_nat i) (Some 1)))
      (seq 0 200).

Definition Ana_10 : LeaderboardEntry := mkEntry "Ana" 10 80 1000 (Some 1).

Lemma well_formed_Ana : well_formed [Valid Ana_10].
Proof.
  split; [repeat constructor; discriminate|].
  intros e n [<-|[]] [= <-]. lia.
Qed.

Lemma two_sessions_accumulate_given_room_witness :
  exists l' e,
    merge_two toLowerCase_ascii (ArrayOf [Valid Ana_10])
      (mkSession "ANA" 7 70 3000) (mkSession "Ana" 15 90 2000)
      = Return (ArrayOf l') /\
    entries_of toLowerCase_ascii "Ana" l' = [e] /\
    score e = 10 + (15 + 7) /\
    attempts e = Some (1 + 2).
Proof.
  refine (two_sessions_accumulate_given_room toLowerCase_ascii
            [Valid Ana_10] (mkSession "Ana" 15 90 2000)
            (mkSession "ANA" 7 70 3000) well_formed_Ana _ _ _ _
            (mkSession "ANA" 7 70 3000) (mkSession "Ana" 15 90 2000) _).
  - apply nodupb_NoDup. reflexivity.
  - unfold MAX_ENTRIES. simpl. lia.
  - vm_compute. discriminate.
  - reflexivity.
  - right. reflexivity.
Defined.

(** C6 as stated fails on a full board: both sessions of a new player are
    evicted by the bound, and no entry of the player remains. *)
Lemma full_board_evicts_new_player :
  List.length full_board = 200%nat /\
  nodupb (keys toLowerCase_ascii full_board) = true /\
  merge_two toLowerCase_ascii (ArrayOf full_board)
    (mkSession "Ana" 5 60 1000) (mkSession "Ana" 7 70 2000)
    = Return (ArrayOf full_board) /\
  entries_of toLowerCase_ascii "Ana" full_board = [].
Proof.
  repeat split; vm_compute; reflexivity.
Qed.

(** The scenario of the specification: a session of 15 points for the
    entry Ana with 10 points and 1 attempt. *)
Example Ana_10_plus_15 :
  finishGame toLowerCase_ascii (ArrayOf [Valid Ana_10]) "Ana" 15 90 2000 =
  Return (ArrayOf [Valid (mkEntry "Ana" 25 90 2000 (Some 2))]).
Proof. reflexivity. Qed.

Lemma persisted_collection_sorted_and_bounded_witness :
  exists merged,
    merge_player toLowerCase_ascii [Valid Ana_10; Invalid] "ana" 15 90 2000
      = Return merged /\
    valid_entries
      (items_of (ArrayOf [Valid (mkEntry "Ana" 25 90 2000 (Some 2))])) =
    firstn MAX_ENTRIES (ordered merged).
Proof.
  destruct (persisted_collection_sorted_and_bounded toLowerCase_ascii
              (ArrayOf [Valid Ana_10; Invalid]) "ana" 15 90 2000
              (ArrayOf [Valid (mkEntry "Ana" 25 90 2000 (Some 2))])
              eq_refl)
    as (merged & Hm & _ & _ & _ & _ & Hfirst & _).
  exists merged. split; [exact Hm | exact Hfirst].
Defined.

(** C7 as stated fails on a tie: the merge leaves the older entry first. *)
Lemma tie_keeps_older_entry_first :
  finishGame toLowerCase_ascii (ArrayOf [Valid Ana_10]) "Bob" 10 75 2000 =
  Return (ArrayOf [Valid Ana_10; Valid (mkEntry "Bob" 10 75 2000 (Some 1))]) /\
  score Ana_10 = 10 /\ timestamp Ana_10 < 2000.
Proof. repeat split. Qed.

Lemma merged_collection_has_one_entry_per_name_witness :
  unique_names toLowerCase_ascii
    (items_of
       (persisted toLowerCase_ascii (ArrayOf [Valid Ana_10])
          [mkSession "ana" 15 90 2000; mkSession "Bob" 20 85 3000;
           mkSession "ANA" 7 70 4000])).
Proof.
  apply (merged_collection_has_one_entry_per_name toLowerCase_ascii
           (ArrayOf [Valid Ana_10])
           [mkSession "ana" 15 90 2000; mkSession "Bob" 20 85 3000;
            mkSession "ANA" 7 70 4000]).
  apply nodupb_NoDup. reflexivity.
Defined.

(** The same three sessions leave Ana one entry with 32 points and three
    attempts, and Bob one entry. *)
Example Ana_and_Bob_merged :
  persisted toLowerCase_ascii (ArrayOf [Valid Ana_10])
    [mkSession "ana" 15 90 2000; mkSession "Bob" 20 85 3000;
     mkSession "ANA" 7 70 4000] =
  ArrayOf [Valid (mkEntry "Ana" 32 70 4000 (Some 3));
           Valid (mkEntry "Bob" 20 85 3000 (Some 1))].
Proof. reflexivity. Qed.

Lemma finishGame_unreadable_is_empty_witness :
  finishGame toLowerCase_ascii BadText "Ana" 15 90 2000 =
    finishGame toLowerCase_ascii (ArrayOf []) "Ana" 15 90 2000 /\
  finishGame toLowerCase_ascii BadText "Ana" 15 90 2000 =
    Return (ArrayOf [Valid (new_entry "Ana" 15 90 2000)]).
Proof.
  apply (finishGame_unreadable_is_empty toLowerCase_ascii BadText
           "Ana" 15 90 2000).
  right. right. left. reflexivity.
Defined.

End LeaderboardSpec.

(** ** The round state machine *)

Module RoundSpec.

Import JS Exn Round.
Open Scope list_scope.
Open Scope Z_scope.

(** *** Arrays *)

Lemma get_set_same {A} (a : array A) i v : get (set a i v) i = Some v.
Proof.
  unfold get. revert a. induction i as [|i IH]; intros [|h t]; simpl; auto.
Qed.

Lemma get_set_other {A} (a : array A) i j v :
  i <> j -> get (set a i v) j = get a j.
Proof.
  unfold get. revert a j. induction i as [|i IH]; intros [|h t] [|j] Hij; simpl;
    try reflexivity; try congruence.
  - now destruct j.
  - rewrite (IH [] j) by congruence. now destruct j.
  - apply IH. congruence.
Qed.

Lemma set_length {A} (a : array A) i v :
  List.length (set a i v) = Nat.max (List.length a) (S i).
Proof.
  revert a. induction i as [|i IH]; intros [|h t]; simpl.
  - reflexivity.
  - now destruct (List.length t).
  - now rewrite (IH []).
  - now rewrite IH.
Qed.

(** *** Time *)

Lemma hold_reached (t h : Q) :
  Qle_bool POSE_HOLD_SECONDS ((t - h) / 1000) = true <-> (2000 <= t - h)%Q.
Proof.
  rewrite Qle_bool_iff. unfold POSE_HOLD_SECONDS. split; intros H.
  - apply (Qmult_le_r _ _ 1000) in H; [|reflexivity].
    assert (E : ((t - h) / 1000 * 1000 == t - h)%Q) by (field).
    rewrite E in H. exact H.
  - apply Qle_shift_div_l; [reflexivity|]. exact H.
Qed.

Lemma hold_not_reached (t h : Q) :
  Qle_bool POSE_HOLD_SECONDS ((t - h) / 1000) = false <-> (t - h < 2000)%Q.
Proof.
  rewrite <- not_true_iff_false, hold_reached. split; intros H; lra.
Qed.

Lemma deadline_elapsed (d t : Q) : Qle_bool (d - t) 0 = true <-> (d <= t)%Q.
Proof. rewrite Qle_bool_iff. split; intros; lra. Qed.

Lemma deadline_pending (d t : Q) : Qle_bool (d - t) 0 = false <-> (t < d)%Q.
Proof. rewrite <- not_true_iff_false, deadline_elapsed. split; intros; lra. Qed.

Lemma GameState_eqb_eq a b : GameState_eqb a b = true <-> a = b.
Proof. destruct a, b; simpl; split; congruence. Qed.

Lemma GameState_eqb_neq a b : GameState_eqb a b = false <-> a <> b.
Proof. destruct a, b; simpl; split; congruence. Qed.

Section Facts.

Variable Pose : Type.
Variable toLowerCase : string -> string.

Implicit Types (st : Arena Pose) (pose : Pose) (poses : list Pose).

Abbreviation timerTick := (Round.timerTick toLowerCase).
Abbreviation celebrationDone := (Round.celebrationDone toLowerCase).
Abbreviation finishGame := (Round.finishGame toLowerCase).
Abbreviation advance := (Round.advance toLowerCase).
Abbreviation step := (Round.step toLowerCase).
Abbreviation run := (Round.run toLowerCase).

(** The percentage the validator of the current challenge gives a pose (0
    when there is no current challenge). *)
Definition current_accuracy st pose : Z :=
  match nth_error (activeChallenges st) (currentChallenge st) with
  | Some challenge => challenge pose
  | None => 0
  end.

(** The best accuracy recorded for a round. *)
Definition best_of st (i : nat) : Z := nullish (get (poseBestAccuracy st) i) 0.

(** The outcome recorded for a round. *)
Definition outcome_of st (i : nat) : option PoseResult := get (poseResults st) i.

(** The round is being played: the game is not over and the round has not
    been resolved. *)
Definition live st : Prop :=
  gameState st <> GS_finished /\ poseResolved st = false.

(** Two states of one round that differ at most in the displayed accuracy,
    the best accuracy and the start of the hold. *)
Definition same_round st st' : Prop :=
  participantName st' = participantName st /\
  gameState st' = gameState st /\
  currentChallenge st' = currentChallenge st /\
  activeChallenges st' = activeChallenges st /\
  score st' = score st /\
  poseResults st' = poseResults st /\
  poseResolved st' = poseResolved st /\
  poseDeadlineMs st' = poseDeadlineMs st /\
  poseTimerInterval st' = poseTimerInterval st /\
  celebration st' = celebration st /\
  localStorage st' = localStorage st.

Lemma same_round_refl st : same_round st st.
Proof. repeat split. Qed.

Lemma same_round_trans st1 st2 st3 :
  same_round st1 st2 -> same_round st2 st3 -> same_round st1 st3.
Proof. unfold same_round. intuition congruence. Qed.

Lemma same_round_live st st' : same_round st st' -> live st -> live st'.
Proof. unfold same_round, live. intuition congruence. Qed.

Lemma same_round_accuracy st st' pose :
  same_round st st' -> current_accuracy st' pose = current_accuracy st pose.
Proof.
  unfold current_accuracy. intros (_ & _ & Hc & Ha & _). now rewrite Hc, Ha.
Qed.

(** *** One frame *)

Lemma detect_no_pose st now : detect st now [] = st.
Proof. unfold detect. now destruct (GameState_eqb (gameState st) GS_finished). Qed.

Lemma detect_resolved st now poses :
  poseResolved st = true -> detect st now poses = st.
Proof.
  intros H. unfold detect.
  destruct (GameState_eqb (gameState st) GS_finished); [reflexivity|].
  destruct poses; [reflexivity|]. now rewrite H.
Qed.

Lemma detect_finished st now poses :
  gameState st = GS_finished -> detect st now poses = st.
Proof. intros H. unfold detect. now rewrite H. Qed.

(** The best accuracy after the update of [detect]. *)
Definition best_after st (acc : Z) : Z :=
  Z.max (best_of st (currentChallenge st)) acc.

(** Unfolds the field updates of a callback applied to an explicit
    record. *)
Ltac fields :=
  cbv beta iota zeta delta
    [set_gameState set_currentChallenge set_score set_accuracy
     set_poseResults set_poseBestAccuracy set_poseResolved set_holdStartMs
     set_poseDeadlineMs set_poseTimerInterval set_celebration
     set_localStorage clearPoseTimer startPoseTimer Round.finishGame
     Round.advance Round.render Round.nextChallenge List.fold_left List.app
     participantName gameState currentChallenge activeChallenges score
     accuracy poseResults poseBestAccuracy poseResolved holdStartMs
     poseDeadlineMs poseTimerInterval celebration localStorage].

Ltac open_detect st Hlive :=
  let Hg := fresh "Hg" in let Hr := fresh "Hr" in
  destruct Hlive as [Hg Hr]; apply GameState_eqb_neq in Hg;
  unfold detect, current_accuracy, best_of in *; rewrite Hg, Hr;
  destruct st; cbn in *.

Lemma detect_below st now pose poses :
  live st -> current_accuracy st pose < 80 ->
  same_round st (detect st now (pose :: poses)) /\
  holdStartMs (detect st now (pose :: poses)) = None.
Proof.
  intros Hlive Hacc. open_detect st Hlive.
  match goal with |- context [nth_error ?l ?i] => destruct (nth_error l i) as [c|] end;
  match goal with |- context [?a <? ?b] => destruct (a <? b) end;
  match goal with |- context [80 <=? ?b] => destruct (Z.leb_spec 80 b); [lia|] end;
  cbn; repeat split.
Qed.

Lemma best_after_update (a : array Z) i acc :
  nullish (get (if nullish (get a i) 0 <? acc then set a i acc else a) i) 0
  = Z.max (nullish (get a i) 0) acc.
Proof.
  destruct (Z.ltb_spec (nullish (get a i) 0) acc).
  - rewrite get_set_same. simpl. lia.
  - lia.
Qed.

Lemma best_after_update_nullish (a : array Z) i acc :
  80 <= acc ->
  nullish (get (if nullish (get a i) 0 <? acc then set a i acc else a) i) acc
  = Z.max (nullish (get a i) 0) acc.
Proof.
  intros Hacc. destruct (Z.ltb_spec (nullish (get a i) 0) acc).
  - rewrite get_set_same. simpl. lia.
  - destruct (get a i) as [v|]; simpl in *; lia.
Qed.

(** A frame at or above the threshold on a round with no hold running
    starts the hold at the time of the frame. *)
Lemma detect_starts_hold st now pose poses :
  live st -> holdStartMs st = None -> 80 <= current_accuracy st pose ->
  same_round st (detect st now (pose :: poses)) /\
  holdStartMs (detect st now (pose :: poses)) = Some now /\
  best_of (detect st now (pose :: poses)) (currentChallenge st) =
    best_after st (current_accuracy st pose).
Proof.
  intros Hlive Hhold Hacc. unfold best_after. open_detect st Hlive. subst.
  match goal with |- context [nth_error ?l ?i] => destruct (nth_error l i) as [c|] end;
    [|lia].
  destruct (Z.leb_spec 80 (c pose)); [|lia].
  assert (Hq : Qle_bool POSE_HOLD_SECONDS ((now - now) / 1000) = false)
    by (apply hold_not_reached; lra).
  match goal with |- context [?a <? ?b] => destruct (Z.ltb_spec a b) end;
    cbn; rewrite Hq; cbn; repeat split;
    try (rewrite get_set_same; simpl); lia.
Qed.

(** A frame at or above the threshold before the hold is complete keeps
    the hold running from where it started. *)
Lemma detect_keeps_hold st now h pose poses :
  live st -> holdStartMs st = Some h -> 80 <= current_accuracy st pose ->
  (now - h < 2000)%Q ->
  same_round st (detect st now (pose :: poses)) /\
  holdStartMs (detect st now (pose :: poses)) = Some h /\
  best_of (detect st now (pose :: poses)) (currentChallenge st) =
    best_after st (current_accuracy st pose).
Proof.
  intros Hlive Hhold Hacc Ht. unfold best_after. open_detect st Hlive. subst.
  match goal with |- context [nth_error ?l ?i] => destruct (nth_error l i) as [c|] end;
    [|lia].
  destruct (Z.leb_spec 80 (c pose)); [|lia].
  apply hold_not_reached in Ht.
  match goal with |- context [?a <? ?b] => destruct (Z.ltb_spec a b) end;
    cbn; rewrite Ht; cbn; repeat split;
    try (rewrite get_set_same; simpl); lia.
Qed.

(** What a pass leaves behind. *)
Definition passed_from st (acc : Z) st' : Prop :=
  gameState st' = gameState st /\
  currentChallenge st' = currentChallenge st /\
  activeChallenges st' = activeChallenges st /\
  poseResolved st' = true /\
  holdStartMs st' = None /\
  poseDeadlineMs st' = None /\
  poseTimerInterval st' = false /\
  celebration st' = true /\
  outcome_of st' (currentChallenge st) = Some passed /\
  (forall j, j <> currentChallenge st -> outcome_of st' j = outcome_of st j) /\
  best_of st' (currentChallenge st) = best_after st acc /\
  score st' = score st + best_after st acc / 10 /\
  List.length (poseResults st') =
    Nat.max (List.length (poseResults st)) (S (currentChallenge st)).

(** A frame at or above the threshold two seconds or more after the hold
    started resolves the round as passed and awards the tenth of the best
    accuracy, rounded down. *)
Lemma detect_passes st now h pose poses :
  live st -> holdStartMs st = Some h -> 80 <= current_accuracy st pose ->
  (2000 <= now - h)%Q ->
  passed_from st (current_accuracy st pose) (detect st now (pose :: poses)).
Proof.
  intros Hlive Hhold Hacc Ht. unfold passed_from, best_after, outcome_of.
  open_detect st Hlive. subst.
  match goal with |- context [nth_error ?l ?i] => destruct (nth_error l i) as [c|] end;
    [|lia].
  destruct (Z.leb_spec 80 (c pose)); [|lia].
  apply hold_reached in Ht.
  match goal with |- context [?a <? ?b] => destruct (Z.ltb_spec a b) end;
    cbn; rewrite Ht; cbn; repeat split;
    try (rewrite get_set_same; simpl); try (apply get_set_same);
    try (intros j Hj; apply get_set_other; congruence); try lia;
    try apply set_length.
  all: try reflexivity.
  all: f_equal; f_equal;
    match goal with |- context [get ?a ?i] => destruct (get a i) end;
    simpl in *; lia.
Qed.

(** *** One tick of the interval *)

(** The deadline of the round, if one is set, lies after [now]. *)
Definition before_deadline st (now : Q) : Prop :=
  forall d, poseDeadlineMs st = Some d -> (now < d)%Q.

Lemma timerTick_before_deadline st now date :
  before_deadline st now -> timerTick st now date = st.
Proof.
  intros H. unfold Round.timerTick.
  destruct (poseTimerInterval st); [|reflexivity]. simpl.
  destruct (GameState_eqb (gameState st) GS_playing); [|reflexivity]. simpl.
  destruct (poseDeadlineMs st) as [d|] eqn:Hd; [|reflexivity].
  destruct (Qeq_bool d 0); [reflexivity|].
  specialize (H d Hd). apply deadline_pending in H. now rewrite H.
Qed.

Lemma timerTick_no_interval st now date :
  poseTimerInterval st = false -> timerTick st now date = st.
Proof. intros H. unfold Round.timerTick. now rewrite H. Qed.

Lemma timerTick_resolved st now date :
  poseResolved st = true ->
  poseResolved (timerTick st now date) = true /\
  poseResults (timerTick st now date) = poseResults st /\
  score (timerTick st now date) = score st /\
  gameState (timerTick st now date) = gameState st /\
  currentChallenge (timerTick st now date) = currentChallenge st /\
  activeChallenges (timerTick st now date) = activeChallenges st.
Proof.
  intros H. unfold Round.timerTick.
  destruct (poseTimerInterval st); [|now repeat split]. simpl.
  destruct (GameState_eqb (gameState st) GS_playing); [|now repeat split]. simpl.
  destruct (poseDeadlineMs st) as [d|]; [|now repeat split].
  destruct (Qeq_bool d 0); [now repeat split|].
  destruct (Qle_bool (d - now) 0); [|now repeat split].
  destruct st; cbn in *. subst. now repeat split.
Qed.

(** *** A dip below the threshold *)

(** Events that leave a round pending with no hold running: frames without
    a pose, frames below the threshold, ticks before the deadline. *)
Inductive quiet st : Event Pose -> Prop :=
| quiet_no_pose t : quiet st (Frame t [])
| quiet_below t pose poses :
    current_accuracy st pose < 80 -> quiet st (Frame t (pose :: poses))
| quiet_tick t date : before_deadline st t -> quiet st (TimerTick t date).

Lemma before_deadline_same_round st st' now :
  same_round st st' -> before_deadline st now -> before_deadline st' now.
Proof.
  unfold before_deadline. intros H Hb d Hd. apply Hb.
  destruct H as (_ & _ & _ & _ & _ & _ & _ & Hdl & _). congruence.
Qed.

Lemma run_quiet st evs :
  live st -> holdStartMs st = None -> Forall (quiet st) evs ->
  same_round st (run st evs) /\ holdStartMs (run st evs) = None.
Proof.
  intros Hlive Hhold Hq.
  assert (G : forall s, same_round st s -> holdStartMs s = None ->
              same_round st (run s evs) /\ holdStartMs (run s evs) = None).
  { induction Hq as [|ev evs Hev _ IH]; intros s Hs Hh; [now split|].
    simpl. destruct Hev as [t|t pose poses Hacc|t date Hb]; simpl.
    - rewrite detect_no_pose. now apply IH.
    - destruct (detect_below s t pose poses) as [Hs' Hh'].
      + now apply (same_round_live st).
      + now rewrite (same_round_accuracy st s).
      + apply IH; [now apply (same_round_trans st s)|exact Hh'].
    - rewrite timerTick_before_deadline
        by now apply (before_deadline_same_round st).
      now apply IH. }
  apply G; [apply same_round_refl | exact Hhold].
Qed.

(** C3.  For every round being played and every sample whose accuracy is
    below 80, processing the sample resets the start of the hold to null;
    a later sample at or above 80 (after any frames without a pose, further
    samples below 80 and ticks before the deadline) starts the hold at its
    own time, with the round still pending and nothing awarded, and no
    sample less than two seconds after that one resolves the round,
    whatever was held before the dip. *)
Theorem dip_restarts_hold st t1 p1 ps1 mid t2 p2 ps2 :
  live st -> current_accuracy st p1 < 80 ->
  Forall (quiet st) mid -> 80 <= current_accuracy st p2 ->
  let st1 := detect st t1 (p1 :: ps1) in
  let st2 := run st (Frame t1 (p1 :: ps1) :: mid ++ [Frame t2 (p2 :: ps2)]) in
  holdStartMs st1 = None /\
  holdStartMs st2 = Some t2 /\
  live st2 /\ same_round st st2 /\
  forall t3 p3 ps3,
    80 <= current_accuracy st p3 -> (t3 - t2 < 2000)%Q ->
    live (detect st2 t3 (p3 :: ps3)) /\
    same_round st (detect st2 t3 (p3 :: ps3)).
Proof.
  intros Hlive H1 Hmid H2 st1 st2.
  destruct (detect_below st t1 p1 ps1 Hlive H1) as [Hs1 Hh1]. fold st1 in Hs1, Hh1.
  assert (Hlive1 : live st1) by now apply (same_round_live st).
  assert (Hmid1 : Forall (quiet st1) mid).
  { eapply Forall_impl; [|exact Hmid]. intros ev [t|t pose poses Hacc|t date Hb].
    - constructor.
    - constructor. now rewrite (same_round_accuracy st st1).
    - constructor. now apply (before_deadline_same_round st). }
  destruct (run_quiet st1 mid Hlive1 Hh1 Hmid1) as [Hsm Hhm].
  set (sm := run st1 mid) in *.
  assert (Hssm : same_round st sm) by now apply (same_round_trans st st1).
  assert (E2 : st2 = detect sm t2 (p2 :: ps2)).
  { unfold st2, sm, st1, Round.run. simpl. now rewrite fold_left_app. }
  destruct (detect_starts_hold sm t2 p2 ps2) as (Hs2 & Hh2 & _).
  - now apply (same_round_live st).
  - exact Hhm.
  - now rewrite (same_round_accuracy st sm).
  - rewrite <- E2 in Hs2, Hh2.
    assert (Hs02 : same_round st st2) by now apply (same_round_trans st sm).
    assert (Hlive2 : live st2) by now apply (same_round_live st).
    split; [exact Hh1|]. split; [exact Hh2|]. split; [exact Hlive2|].
    split; [exact Hs02|].
    intros t3 p3 ps3 H3 Ht3.
    destruct (detect_keeps_hold st2 t3 t2 p3 ps3 Hlive2 Hh2) as (Hs3 & _);
      [now rewrite (same_round_accuracy st st2) | exact Ht3 |].
    assert (Hs03 : same_round st (detect st2 t3 (p3 :: ps3)))
      by now apply (same_round_trans st st2).
    split; [apply (same_round_live st _ Hs03 Hlive) | exact Hs03].
Qed.

(** *** A continuous hold *)

(** Events of a stream that keeps the accuracy at or above the threshold
    before the deadline: samples at or above 80, frames in which the
    tracker returns no pose (they leave the hold as it is), and ticks
    before the deadline. *)
Inductive steady st : Event Pose -> Prop :=
| steady_high t pose poses :
    80 <= current_accuracy st pose -> steady st (Frame t (pose :: poses))
| steady_no_pose t : steady st (Frame t [])
| steady_tick t date : before_deadline st t -> steady st (TimerTick t date).

(** A sample at least two seconds after [h]. *)
Definition completes (h : Q) (ev : Event Pose) : Prop :=
  exists t pose poses, ev = Frame t (pose :: poses) /\ (2000 <= t - h)%Q.

(** The round of [st] with a hold running since [h]. *)
Definition holding st (h : Q) s : Prop :=
  same_round st s /\ holdStartMs s = Some h /\
  80 <= best_of s (currentChallenge st).

(** The round of [st] resolved as passed, with its award. *)
Definition passed_round st s : Prop :=
  gameState s = gameState st /\
  currentChallenge s = currentChallenge st /\
  poseResolved s = true /\
  poseTimerInterval s = false /\
  outcome_of s (currentChallenge st) = Some passed /\
  80 <= best_of s (currentChallenge st) /\
  score s = score st + best_of s (currentChallenge st) / 10.

Lemma passed_round_steady st s ev :
  passed_round st s -> steady st ev -> step s ev = s.
Proof.
  intros (_ & _ & Hr & Ht & _) [t pose poses _|t|t date _]; simpl.
  - now apply detect_resolved.
  - apply detect_no_pose.
  - now apply timerTick_no_interval.
Qed.

Lemma holding_steady st h s ev :
  live st -> holding st h s -> steady st ev ->
  (holding st h (step s ev) /\ ~ completes h ev) \/
  (passed_round st (step s ev)).
Proof.
  intros Hlive (Hs & Hh & Hb) Hev.
  assert (Hlive' : live s) by now apply (same_round_live st).
  assert (Hidx : currentChallenge s = currentChallenge st) by apply Hs.
  destruct Hev as [t pose poses Hacc|t|t date Hd]; simpl.
  - rewrite <- (same_round_accuracy st s pose Hs) in Hacc.
    destruct (Qlt_le_dec (t - h) 2000) as [Hlt|Hge].
    + left. destruct (detect_keeps_hold s t h pose poses Hlive' Hh Hacc Hlt)
        as (Hs' & Hh' & Hb').
      split; [split; [|split]|].
      * now apply (same_round_trans st s).
      * exact Hh'.
      * rewrite <- Hidx, Hb'. unfold best_after. rewrite Hidx. lia.
      * intros (t' & p' & ps' & [= <- _ _] & Hc). lra.
    + right. destruct (detect_passes s t h pose poses Hlive' Hh Hacc Hge)
        as (Hg & Hc & _ & Hr & _ & _ & Ht & _ & Ho & _ & Hbest & Hsc & _).
      rewrite Hidx in *. unfold passed_round.
      destruct Hs as (_ & Hg' & _ & _ & Hsc' & _).
      repeat split; try congruence.
      rewrite Hbest. unfold best_after. rewrite Hidx. lia.
  - left. rewrite detect_no_pose. split; [exact (conj Hs (conj Hh Hb))|].
    intros (t' & p' & ps' & [=] & _).
  - left. rewrite timerTick_before_deadline
      by now apply (before_deadline_same_round st).
    split; [exact (conj Hs (conj Hh Hb))|]. intros (t' & p' & ps' & [=] & _).
Qed.

Lemma run_passed_round st s evs :
  passed_round st s -> Forall (steady st) evs -> run s evs = s.
Proof.
  intros Hp Hevs. induction Hevs as [|ev evs Hev _ IH]; [reflexivity|].
  simpl. rewrite (passed_round_steady st s ev Hp Hev). exact IH.
Qed.

Lemma run_holding st h evs :
  live st -> Forall (steady st) evs -> Exists (completes h) evs ->
  forall s, holding st h s -> passed_round st (run s evs).
Proof.
  intros Hlive Hevs. induction Hevs as [|ev evs Hev Hevs IH]; intros Hex s Hs.
  - inversion Hex.
  - simpl. destruct (holding_steady st h s ev Hlive Hs Hev) as [[Hs' Hn]|Hp].
    + apply IH; [|exact Hs']. inversion Hex; subst; [contradiction|assumption].
    + now rewrite (run_passed_round st _ evs Hp Hevs).
Qed.

Lemma completes_earlier (h h' : Q) ev :
  (h <= h')%Q -> completes h' ev -> completes h ev.
Proof.
  intros Hh (t & pose & poses & E & Ht). exists t, pose, poses.
  split; [exact E | lra].
Qed.

Lemma passed_from_round st acc st' :
  80 <= acc -> passed_from st acc st' -> passed_round st st'.
Proof.
  intros Hacc (Hg & Hc & _ & Hr & _ & _ & Ht & _ & Ho & _ & Hbest & Hsc & _).
  unfold passed_round. rewrite Hbest.
  repeat split; try assumption. unfold best_after. lia.
Qed.

(** The accuracies of the samples of a hold that started at [h], up to
    the first sample two seconds or more after [h]. *)
Fixpoint held st (h : Q) (evs : list (Event Pose)) : list Z :=
  match evs with
  | [] => []
  | Frame t (pose :: _) :: rest =>
      current_accuracy st pose ::
      (if Qle_bool 2000 (t - h) then [] else held st h rest)
  | _ :: rest => held st h rest
  end.

(** The round of [st] resolved as passed on the best accuracy [best]. *)
Definition passed_with st (best : Z) s : Prop :=
  passed_round st s /\ best_of s (currentChallenge st) = best.

Lemma completes_dec (h : Q) ev : {completes h ev} + {~ completes h ev}.
Proof.
  destruct ev as [t [|pose poses]|t date|t date].
  - right. intros (t' & p' & ps' & [=] & _).
  - destruct (Qlt_le_dec (t - h) 2000) as [Hlt|Hge].
    + right. intros (t' & p' & ps' & [= <- _ _] & Hc). lra.
    + left. now exists t, pose, poses.
  - right. intros (t' & p' & ps' & [=] & _).
  - right. intros (t' & p' & ps' & [=] & _).
Qed.

(** A hold running since [h] on samples at or above the threshold: it
    lasts, recording the largest accuracy, until the first sample two
    seconds or more after [h], which resolves the round on the largest
    accuracy recorded. *)
Lemma run_hold st h evs :
  live st -> Forall (steady st) evs ->
  forall s,
    same_round st s -> holdStartMs s = Some h ->
    let best :=
      fold_left Z.max (held st h evs) (best_of s (currentChallenge st)) in
    (Exists (completes h) evs -> passed_with st best (run s evs)) /\
    (~ Exists (completes h) evs ->
     same_round st (run s evs) /\ holdStartMs (run s evs) = Some h /\
     best_of (run s evs) (currentChallenge st) = best).
Proof.
  intros Hlive Hevs.
  induction Hevs as [|ev evs Hev Hevs IH]; intros s Hs Hh best.
  - split; [intros H; inversion H | intros _; split; [exact Hs | split; [exact Hh | reflexivity]]].
  - assert (Hlive' : live s) by now apply (same_round_live st).
    assert (Hidx : currentChallenge s = currentChallenge st) by apply Hs.
    destruct Hev as [t pose poses Hacc|t|t date Hd].
    + pose proof Hacc as Hacc'.
      rewrite <- (same_round_accuracy st s pose Hs) in Hacc'.
      destruct (Qlt_le_dec (t - h) 2000) as [Hlt|Hge].
      * (* the hold goes on *)
        destruct (detect_keeps_hold s t h pose poses Hlive' Hh Hacc' Hlt)
          as (Hs' & Hh' & Hb').
        assert (Hs1 : same_round st (detect s t (pose :: poses)))
          by now apply (same_round_trans st s).
        destruct (IH _ Hs1 Hh') as [IH1 IH2].
        assert (Eq : Qle_bool 2000 (t - h) = false).
        { apply not_true_iff_false. rewrite Qle_bool_iff. lra. }
        assert (Eb : best =
                  fold_left Z.max (held st h evs)
                    (best_of (detect s t (pose :: poses)) (currentChallenge st))).
        { unfold best. cbn [held]. rewrite Eq. cbn [fold_left].
          rewrite <- Hidx, Hb'. unfold best_after.
          now rewrite (same_round_accuracy st s pose Hs), Hidx. }
        rewrite Eb. cbn [Round.run fold_left Round.step] in *. split.
        -- intros Hex. apply IH1. inversion Hex as [? ? Hc|]; subst; [|assumption].
           destruct Hc as (t' & p' & ps' & [= <- _ _] & Hc). lra.
        -- intros Hn. apply IH2. intros Hex. apply Hn. now apply Exists_cons_tl.
      * (* the hold is complete *)
        pose proof (detect_passes s t h pose poses Hlive' Hh Hacc' Hge) as Hp.
        assert (Eq : Qle_bool 2000 (t - h) = true) by now apply Qle_bool_iff.
        assert (Eb : best = best_after s (current_accuracy s pose)).
        { unfold best, best_after. cbn [held]. rewrite Eq. cbn [fold_left].
          now rewrite (same_round_accuracy st s pose Hs), Hidx. }
        split.
        -- intros _.
           assert (Hpr : passed_round st (detect s t (pose :: poses))).
           { pose proof (passed_from_round s _ _ Hacc' Hp)
               as (Hg & Hc & Hr & Ht & Ho & H80 & Hsc).
             destruct Hs as (_ & Hg' & _ & _ & Hsc' & _).
             rewrite Hidx in *. unfold passed_round.
             repeat split; congruence. }
           cbn [Round.run fold_left Round.step].
           change (fold_left step evs (detect s t (pose :: poses)))
             with (run (detect s t (pose :: poses)) evs).
           rewrite (run_passed_round st _ evs Hpr Hevs).
           split; [exact Hpr|].
           destruct Hp as (_ & _ & _ & _ & _ & _ & _ & _ & _ & _ & Hbest & _).
           rewrite <- Hidx, Hbest, Eb. reflexivity.
        -- intros Hn. exfalso. apply Hn. apply Exists_cons_hd.
           now exists t, pose, poses.
    + (* a frame without a pose *)
      destruct (IH s Hs Hh) as [IH1 IH2].
      cbn [Round.run fold_left Round.step] in *. rewrite detect_no_pose.
      unfold best. cbn [held]. split.
      * intros Hex. apply IH1. inversion Hex as [? ? Hc|]; subst; [|assumption].
        destruct Hc as (t' & p' & ps' & [=] & _).
      * intros Hn. apply IH2. intros Hex. apply Hn. now apply Exists_cons_tl.
    + (* a tick before the deadline *)
      destruct (IH s Hs Hh) as [IH1 IH2].
      cbn [Round.run fold_left Round.step] in *.
      rewrite timerTick_before_deadline
        by now apply (before_deadline_same_round st).
      unfold best. cbn [held]. split.
      * intros Hex. apply IH1. inversion Hex as [? ? Hc|]; subst; [|assumption].
        destruct Hc as (t' & p' & ps' & [=] & _).
      * intros Hn. apply IH2. intros Hex. apply Hn. now apply Exists_cons_tl.
Qed.

Lemma Forall_steady_prefix st (before after : list (Event Pose)) :
  Forall (steady st) (before ++ after) -> Forall (steady st) before.
Proof. intros H. apply Forall_app in H. apply H. Qed.

(** C1.  For every round being played, if the stream has a sample at or
    above 80 at time [t0] (any hold already running having started no
    later), then keeps every sample at or above 80 with every tick of the
    timer before the deadline, and holds a sample at least 2 seconds after
    [t0], the round is resolved as passed and the score grows by exactly
    floor(bestAccuracy / 10), where bestAccuracy is the largest of the
    accuracy recorded before and the accuracies of the samples up to the
    one that completes the hold (at least 80); and as long as no sample is
    2 seconds or more after the start of the hold, the round stays pending
    and nothing is awarded. *)
Theorem continuous_hold_passes st t0 p0 ps0 evs :
  live st ->
  (forall h, holdStartMs st = Some h -> (h <= t0)%Q) ->
  80 <= current_accuracy st p0 ->
  Forall (steady st) evs -> Exists (completes t0) evs ->
  let stream := Frame t0 (p0 :: ps0) :: evs in
  let h := nullish (holdStartMs st) t0 in
  let bestAccuracy :=
    fold_left Z.max (held st h stream) (best_of st (currentChallenge st)) in
  let st' := run st stream in
  outcome_of st' (currentChallenge st) = Some passed /\
  poseResolved st' = true /\
  best_of st' (currentChallenge st) = bestAccuracy /\
  80 <= bestAccuracy /\
  score st' = score st + bestAccuracy / 10 /\
  (forall before after,
     stream = before ++ after -> ~ Exists (completes h) before ->
     live (run st before) /\ score (run st before) = score st).
Proof.
  intros Hlive Hhold Hacc Hevs Hex stream h bestAccuracy st'.
  assert (Hstream : Forall (steady st) stream).
  { constructor; [now constructor | exact Hevs]. }
  assert (Hh0 : (h <= t0)%Q).
  { unfold h. destruct (holdStartMs st) as [h0|] eqn:E; simpl.
    - now apply Hhold.
    - lra. }
  assert (Hexh : Exists (completes h) stream).
  { apply Exists_cons_tl. eapply Exists_impl; [|exact Hex].
    intros ev. now apply completes_earlier. }
  (* the stream from the state in which the hold is running *)
  assert (G : exists s evs1,
            same_round st s /\ holdStartMs s = Some h /\
            Forall (steady st) evs1 /\
            (forall l, Forall (steady st) l ->
               (l = [] \/ exists l1, l = Frame t0 (p0 :: ps0) :: l1) ->
               forall tl, stream = l ++ tl -> l <> [] ->
               exists l', Forall (steady st) l' /\ run st l = run s l' /\
                          (Exists (completes h) l' -> Exists (completes h) l)) /\
            run st stream = run s evs1 /\
            Exists (completes h) evs1 /\
            fold_left Z.max (held st h evs1) (best_of s (currentChallenge st))
              = bestAccuracy).
  { destruct (holdStartMs st) as [h0|] eqn:E.
    - (* a hold is running: the first sample is one of it *)
      exists st, stream. unfold h in *. simpl in *.
      split; [apply same_round_refl|]. split; [exact E|].
      split; [exact Hstream|]. split.
      + intros l Hl _ tl _ _. exists l. now repeat split.
      + now repeat split.
    - (* the first sample starts the hold *)
      destruct (detect_starts_hold st t0 p0 ps0 Hlive E Hacc) as (Hs & Hh' & Hb).
      exists (detect st t0 (p0 :: ps0)), evs. unfold h in *. simpl in *.
      split; [exact Hs|]. split; [exact Hh'|]. split; [exact Hevs|]. split.
      + intros l Hl [->|[l1 ->]] tl Htl Hne; [contradiction|].
        exists l1. split; [now inversion Hl|]. split; [reflexivity|].
        intros H1. now apply Exists_cons_tl.
      + split; [reflexivity|]. split.
        * eapply Exists_impl; [|exact Hex]. intros ev Hc. exact Hc.
        * unfold bestAccuracy, stream. cbn [held].
          assert (Eq : Qle_bool 2000 (t0 - t0) = false).
          { apply not_true_iff_false. rewrite Qle_bool_iff. lra. }
          rewrite Eq. cbn [fold_left]. rewrite Hb. reflexivity. }
  destruct G as (s & evs1 & Hs & Hh & Hevs1 & Hpre & Erun & Hex1 & Ebest).
  destruct (run_hold st h evs1 Hlive Hevs1 s Hs Hh) as [Hpass _].
  specialize (Hpass Hex1). cbv zeta in Hpass. rewrite Ebest in Hpass.
  destruct Hpass as ((_ & _ & Hr & _ & Ho & H80 & Hsc) & Hb).
  unfold st'. rewrite Erun.
  split; [exact Ho|]. split; [exact Hr|]. split; [exact Hb|].
  rewrite Hb in H80, Hsc. split; [exact H80|]. split; [exact Hsc|].
  intros before after Hsplit Hn.
  destruct before as [|ev before].
  { split; [exact Hlive | reflexivity]. }
  assert (Hbefore : Forall (steady st) (ev :: before)).
  { apply (Forall_steady_prefix st (ev :: before) after).
    rewrite <- Hsplit. exact Hstream. }
  assert (Hhead : exists l1, ev :: before = Frame t0 (p0 :: ps0) :: l1).
  { unfold stream in Hsplit. simpl in Hsplit. injection Hsplit as <- _.
    now exists before. }
  destruct (Hpre (ev :: before) Hbefore (or_intror Hhead) after Hsplit)
    as (l' & Hl' & El' & Hex'); [discriminate|].
  destruct (run_hold st h l' Hlive Hl' s Hs Hh) as [_ Hhold'].
  destruct Hhold' as (Hs' & _ & _).
  { intros H. apply Hn. now apply Hex'. }
  rewrite El'. split.
  - now apply (same_round_live st).
  - apply Hs'.
Qed.

(** *** The deadline *)

(** What the timeout leaves behind. *)
Definition timed_out_from st (now : Q) st' : Prop :=
  let idx := currentChallenge st in
  (outcome_of st idx = Some pending -> outcome_of st' idx = Some failed) /\
  (outcome_of st idx <> Some pending -> outcome_of st' idx = outcome_of st idx) /\
  (forall j, j <> idx -> outcome_of st' j = outcome_of st j) /\
  List.length (poseResults st') = List.length (poseResults st) /\
  activeChallenges st' = activeChallenges st /\
  score st' = score st + Z.max 0 (best_of st idx / 10) /\
  ((S idx < List.length (activeChallenges st))%nat ->
     gameState st' = GS_playing /\ currentChallenge st' = S idx /\
     poseResolved st' = false /\ holdStartMs st' = None /\
     poseDeadlineMs st' = Some (now + POSE_TIME_LIMIT_MS)%Q /\
     poseTimerInterval st' = true) /\
  (~ (S idx < List.length (activeChallenges st))%nat ->
     gameState st' = GS_finished /\ currentChallenge st' = idx).

Lemma advance_test (idx len : nat) :
  (Z.of_nat idx <? Z.of_nat len - 1) = true <-> (S idx < len)%nat.
Proof. rewrite Z.ltb_lt. lia. Qed.

Lemma set_pending_length (a : array PoseResult) i v :
  get a i = Some pending -> List.length (set a i v) = List.length a.
Proof.
  intros H. rewrite set_length.
  assert (i < List.length a)%nat; [|lia].
  apply nth_error_Some. unfold get in H.
  destruct (nth_error a i); [discriminate|discriminate].
Qed.

(** A tick at or after the deadline of a round being played resolves it. *)
Lemma timerTick_times_out st now date d :
  poseTimerInterval st = true -> gameState st = GS_playing ->
  poseDeadlineMs st = Some d -> ~ (d == 0)%Q -> (d <= now)%Q ->
  poseResolved st = false ->
  timed_out_from st now (timerTick st now date).
Proof.
  intros Ht Hg Hd Hd0 Hnow Hr. unfold timed_out_from, outcome_of, best_of.
  unfold Round.timerTick. rewrite Ht, Hg, Hd. cbn [negb GameState_eqb].
  assert (E0 : Qeq_bool d 0 = false).
  { destruct (Qeq_bool d 0) eqn:E; [|reflexivity].
    apply Qeq_bool_iff in E. contradiction. }
  apply deadline_elapsed in Hnow. rewrite E0, Hnow.
  destruct st; cbn in *. subst. fields.
  set (earned := nullish (get poseBestAccuracy0 currentChallenge0) 0 / 10).
  assert (Esc : (if 0 <? earned then score0 + earned else score0) =
                score0 + Z.max 0 earned).
  { destruct (Z.ltb_spec 0 earned); lia. }
  destruct (0 <? earned) eqn:Ee; fields;
    destruct (get poseResults0 currentChallenge0) as [[| |]|] eqn:Eo; fields;
    match goal with |- context [?a <? ?b - 1] =>
      destruct (a <? b - 1) eqn:Ea;
      [apply advance_test in Ea | apply not_true_iff_false in Ea;
                                   rewrite advance_test in Ea]
    end; fields;
    repeat split; intros;
    try congruence; try lia; try contradiction;
    try (rewrite get_set_same; reflexivity);
    try (apply get_set_other; congruence);
    try (now apply set_pending_length).
Qed.

(** *** Every callback, by cases *)

(** Two states with the same game state, round, challenges, score,
    outcomes and latch. *)
Definition frozen st st' : Prop :=
  gameState st' = gameState st /\
  currentChallenge st' = currentChallenge st /\
  activeChallenges st' = activeChallenges st /\
  score st' = score st /\
  poseResults st' = poseResults st /\
  poseResolved st' = poseResolved st.

Lemma frozen_refl st : frozen st st.
Proof. repeat split. Qed.

Lemma same_round_frozen st st' : same_round st st' -> frozen st st'.
Proof. unfold same_round, frozen. intuition. Qed.

Lemma detect_cases st now poses :
  frozen st (detect st now poses) \/
  (live st /\ exists acc, passed_from st acc (detect st now poses)).
Proof.
  destruct (GameState_eqb (gameState st) GS_finished) eqn:Hg.
  { apply GameState_eqb_eq in Hg. rewrite detect_finished by exact Hg.
    left. apply frozen_refl. }
  apply GameState_eqb_neq in Hg.
  destruct poses as [|pose poses].
  { rewrite detect_no_pose. left. apply frozen_refl. }
  destruct (poseResolved st) eqn:Hr.
  { rewrite detect_resolved by exact Hr. left. apply frozen_refl. }
  assert (Hlive : live st) by now split.
  destruct (Z_lt_le_dec (current_accuracy st pose) 80) as [Hlow|Hhigh].
  { left. apply same_round_frozen. now apply detect_below. }
  destruct (holdStartMs st) as [h|] eqn:Hh.
  - destruct (Qlt_le_dec (now - h) 2000) as [Hlt|Hge].
    + left. apply same_round_frozen.
      now apply (detect_keeps_hold st now h pose poses).
    + right. split; [exact Hlive|]. eexists.
      now apply (detect_passes st now h pose poses).
  - left. apply same_round_frozen. now apply detect_starts_hold.
Qed.

Lemma timerTick_cases st now date :
  frozen st (timerTick st now date) \/
  (gameState st = GS_playing /\ poseResolved st = false /\
   timed_out_from st now (timerTick st now date)).
Proof.
  destruct (poseResolved st) eqn:Hr.
  { left. destruct (timerTick_resolved st now date Hr)
      as (Hr' & Hres & Hsc & Hg & Hc & Ha).
    unfold frozen. rewrite Hr. repeat split; assumption. }
  destruct (poseTimerInterval st) eqn:Ht.
  2:{ rewrite timerTick_no_interval by exact Ht. left. apply frozen_refl. }
  destruct (GameState_eqb (gameState st) GS_playing) eqn:Hg.
  2:{ left. unfold Round.timerTick. rewrite Ht, Hg. apply frozen_refl. }
  apply GameState_eqb_eq in Hg.
  destruct (poseDeadlineMs st) as [d|] eqn:Hd.
  2:{ left. unfold Round.timerTick. rewrite Ht, Hg, Hd. apply frozen_refl. }
  destruct (Qeq_bool d 0) eqn:Hd0.
  { left. unfold Round.timerTick. rewrite Ht, Hg, Hd. cbn. rewrite Hd0.
    apply frozen_refl. }
  destruct (Qlt_le_dec now d) as [Hlt|Hge].
  { left. rewrite timerTick_before_deadline; [apply frozen_refl|].
    intros d' Hd'. congruence. }
  right. split; [exact Hg|]. split; [reflexivity|].
  apply (timerTick_times_out st now date d); auto.
  intros E. apply Qeq_bool_iff in E. congruence.
Qed.

(** What the delayed advance leaves behind. *)
Definition advanced_from st st' : Prop :=
  poseResults st' = poseResults st /\
  activeChallenges st' = activeChallenges st /\
  score st' = score st /\
  (((S (currentChallenge st) < List.length (activeChallenges st))%nat /\
    gameState st' = gameState st /\
    currentChallenge st' = S (currentChallenge st) /\
    poseResolved st' = false) \/
   (~ (S (currentChallenge st) < List.length (activeChallenges st))%nat /\
    gameState st' = GS_finished /\
    currentChallenge st' = currentChallenge st)).

Lemma celebrationDone_cases st now date :
  celebrationDone st now date = st \/
  advanced_from st (celebrationDone st now date).
Proof.
  unfold Round.celebrationDone.
  destruct (celebration st); [right|now left]. cbn [negb].
  unfold advanced_from. destruct st; fields.
  match goal with |- context [?a <? ?b - 1] =>
    destruct (a <? b - 1) eqn:Ea;
    [apply advance_test in Ea | apply not_true_iff_false in Ea;
                                 rewrite advance_test in Ea]
  end; fields; repeat split; auto.
Qed.

(** *** The invariant of a game *)

(** The current round has an outcome slot, there are at least as many
    slots as challenges, the rounds to come are pending, and so is the
    round being played. *)
Definition Inv st : Prop :=
  (currentChallenge st < List.length (poseResults st))%nat /\
  (List.length (activeChallenges st) <= List.length (poseResults st))%nat /\
  (forall i, (currentChallenge st < i < List.length (poseResults st))%nat ->
             outcome_of st i = Some pending) /\
  (live st -> outcome_of st (currentChallenge st) = Some pending).

Lemma Inv_frozen st st' : frozen st st' -> Inv st -> Inv st'.
Proof.
  intros (Hg & Hc & Ha & _ & Hres & Hr) (I1 & I2 & I3 & I4).
  unfold Inv, outcome_of, live in *. rewrite Hg, Hc, Ha, Hres, Hr.
  repeat split; auto.
Qed.

Lemma Inv_passed st acc st' :
  live st -> passed_from st acc st' -> Inv st -> Inv st'.
Proof.
  intros Hlive (Hg & Hc & Ha & Hr & _ & _ & _ & _ & Ho & Hoth & _ & _ & Hlen)
         (I1 & I2 & I3 & I4).
  assert (Hlen' : List.length (poseResults st') = List.length (poseResults st))
    by lia.
  unfold Inv, live. rewrite Hc, Ha, Hlen', Hr.
  repeat split; auto.
  - intros i Hi. rewrite Hoth by lia. now apply I3.
  - intros [_ [=]].
Qed.

Lemma Inv_timed_out st now st' :
  live st -> timed_out_from st now st' -> Inv st -> Inv st'.
Proof.
  intros Hlive (Hp & _ & Hoth & Hlen & Ha & _ & Hnext & Hend) (I1 & I2 & I3 & I4).
  unfold Inv, live. rewrite Ha, Hlen.
  destruct (lt_dec (S (currentChallenge st)) (List.length (activeChallenges st)))
    as [Hlt|Hnlt].
  - destruct (Hnext Hlt) as (Hg & Hc & Hr & _). rewrite Hc.
    repeat split; try lia.
    + intros i Hi. rewrite Hoth by lia. apply I3. lia.
    + intros _. rewrite Hoth by lia. apply I3. lia.
  - destruct (Hend Hnlt) as (Hg & Hc). rewrite Hc, Hg.
    repeat split; auto.
    + intros i Hi. rewrite Hoth by lia. now apply I3.
    + intros [Hf _]. congruence.
Qed.

Lemma Inv_advanced st st' : advanced_from st st' -> Inv st -> Inv st'.
Proof.
  intros (Hres & Ha & _ & Hcase) (I1 & I2 & I3 & I4).
  unfold Inv, live, outcome_of in *. rewrite Hres, Ha.
  destruct Hcase as [(Hlt & Hg & Hc & Hr)|(Hnlt & Hg & Hc)]; rewrite Hc.
  - repeat split; try lia.
    + intros i Hi. apply I3. lia.
    + intros _. apply I3. lia.
  - rewrite Hg. repeat split; auto. intros [Hf _]. congruence.
Qed.

Lemma Inv_step st ev : Inv st -> Inv (step st ev).
Proof.
  intros HI. destruct ev as [now poses|now date|now date]; simpl.
  - destruct (detect_cases st now poses) as [Hf|(Hlive & acc & Hp)].
    + now apply (Inv_frozen st).
    + now apply (Inv_passed st acc).
  - destruct (timerTick_cases st now date) as [Hf|(Hg & Hr & Ht)].
    + now apply (Inv_frozen st).
    + apply (Inv_timed_out st now); auto. split; [congruence|exact Hr].
  - destruct (celebrationDone_cases st now date) as [->|Ha].
    + exact HI.
    + now apply (Inv_advanced st).
Qed.

Lemma Inv_run st evs : Inv st -> Inv (run st evs).
Proof.
  revert st. induction evs as [|ev evs IH]; intros st HI; [exact HI|].
  simpl. apply IH. now apply Inv_step.
Qed.

(** The invariant holds when the first round is armed. *)
Lemma Inv_beginPlaying name selected storage now :
  Inv (beginPlaying (startGame name selected storage) now).
Proof.
  unfold Inv, live, outcome_of, beginPlaying, startGame. fields.
  repeat split.
  - simpl. lia.
  - apply (firstn_le_length 3).
  - intros i Hi. simpl in Hi. destruct i as [|[|[|i]]]; try reflexivity; lia.
Qed.

(** *** Resolution is final *)

(** Tracker frames and ticks of the timer: the callbacks that examine a
    round.  The delayed advance is what moves on to the next round. *)
Definition sample_or_tick (ev : Event Pose) : Prop :=
  match ev with
  | Frame _ _ | TimerTick _ _ => True
  | CelebrationDone _ _ => False
  end.

Lemma run_resolved st evs :
  poseResolved st = true -> Forall sample_or_tick evs ->
  poseResolved (run st evs) = true /\
  poseResults (run st evs) = poseResults st /\
  score (run st evs) = score st.
Proof.
  intros Hr Hevs. revert st Hr.
  induction Hevs as [|ev evs Hev _ IH]; intros st Hr; [now repeat split|].
  simpl. destruct ev as [now poses|now date|now date]; [| |contradiction]; simpl.
  - rewrite detect_resolved by exact Hr. now apply IH.
  - destruct (timerTick_resolved st now date Hr) as (Hr' & Hres & Hsc & _).
    destruct (IH _ Hr') as (H1 & H2 & H3). repeat split; congruence.
Qed.

Lemma step_keeps_outcome st ev i r :
  Inv st -> outcome_of st i = Some r -> r <> pending ->
  outcome_of (step st ev) i = Some r.
Proof.
  intros (I1 & I2 & I3 & I4) Ho Hr.
  destruct ev as [now poses|now date|now date]; simpl.
  - destruct (detect_cases st now poses)
      as [(_ & _ & _ & _ & Hres & _)|(Hlive & acc & Hp)].
    + unfold outcome_of in *. now rewrite Hres.
    + destruct Hp as (_ & _ & _ & _ & _ & _ & _ & _ & _ & Hoth & _).
      rewrite Hoth; [exact Ho|]. intros ->.
      rewrite (I4 Hlive) in Ho. congruence.
  - destruct (timerTick_cases st now date)
      as [(_ & _ & _ & _ & Hres & _)|(Hg & Hres & Ht)].
    + unfold outcome_of in *. now rewrite Hres.
    + destruct Ht as (_ & _ & Hoth & _).
      rewrite Hoth; [exact Ho|]. intros ->.
      rewrite I4 in Ho; [congruence|]. split; [congruence|exact Hres].
  - destruct (celebrationDone_cases st now date) as [->|(Hres & _)];
      [exact Ho|]. unfold outcome_of in *. now rewrite Hres.
Qed.

Lemma run_keeps_outcome st evs i r :
  Inv st -> outcome_of st i = Some r -> r <> pending ->
  outcome_of (run st evs) i = Some r.
Proof.
  revert st. induction evs as [|ev evs IH]; intros st HI Ho Hr; [exact Ho|].
  simpl. apply IH; [now apply Inv_step | now apply step_keeps_outcome | exact Hr].
Qed.

Lemma step_awards_once st ev :
  Inv st -> score (step st ev) <> score st ->
  outcome_of st (currentChallenge st) = Some pending /\
  (outcome_of (step st ev) (currentChallenge st) = Some passed \/
   outcome_of (step st ev) (currentChallenge st) = Some failed).
Proof.
  intros (I1 & I2 & I3 & I4) Hsc.
  destruct ev as [now poses|now date|now date]; simpl in *.
  - destruct (detect_cases st now poses)
      as [(_ & _ & _ & Hs & _)|(Hlive & acc & Hp)]; [contradiction|].
    destruct Hp as (_ & _ & _ & _ & _ & _ & _ & _ & Ho & _).
    split; [now apply I4 | now left].
  - destruct (timerTick_cases st now date)
      as [(_ & _ & _ & Hs & _)|(Hg & Hr & Ht)]; [contradiction|].
    assert (Hp : outcome_of st (currentChallenge st) = Some pending).
    { apply I4. split; [congruence|exact Hr]. }
    destruct Ht as (Hf & _). split; [exact Hp | right; now apply Hf].
  - destruct (celebrationDone_cases st now date) as [E|(_ & _ & Hs & _)];
      [rewrite E in Hsc|]; contradiction.
Qed.

(** C4.  In every state of a game (the invariant holds when the first
    round is armed and after every callback): once the round is resolved,
    no sequence of tracker samples and timeout checks changes an outcome or
    the score; over any sequence of callbacks an outcome that is passed or
    failed (timed out) stays what it is, so the only transitions are from
    pending; and a callback changes the score only while it resolves the
    pending round, so no round is awarded twice. *)
Theorem resolved_round_is_final st :
  Inv st ->
  (poseResolved st = true ->
   forall evs, Forall sample_or_tick evs ->
     poseResults (run st evs) = poseResults st /\
     score (run st evs) = score st) /\
  (forall evs i r,
     outcome_of st i = Some r -> r <> pending ->
     outcome_of (run st evs) i = Some r) /\
  (forall ev,
     score (step st ev) <> score st ->
     outcome_of st (currentChallenge st) = Some pending /\
     (outcome_of (step st ev) (currentChallenge st) = Some passed \/
      outcome_of (step st ev) (currentChallenge st) = Some failed)) /\
  (forall evs, Inv (run st evs)).
Proof.
  intros HI. split; [|split; [|split]].
  - intros Hr evs Hevs. now destruct (run_resolved st evs Hr Hevs) as (_ & ? & ?).
  - intros evs i r. now apply run_keeps_outcome.
  - intros ev. now apply step_awards_once.
  - intros evs. now apply Inv_run.
Qed.

(** A tick at or after the deadline of the round being played (page-old-
    complex.tsx) resolves it as failed, awards the tenth of its best
    accuracy, rounded down (nothing when the pose was never attempted), and
    moves on: no round stays pending past a tick that follows its
    deadline. *)
Lemma timerTick_resolves_round st now date d :
  Inv st -> poseTimerInterval st = true -> gameState st = GS_playing ->
  poseResolved st = false ->
  poseDeadlineMs st = Some d -> ~ (d == 0)%Q -> (d <= now)%Q ->
  0 <= best_of st (currentChallenge st) ->
  let st' := timerTick st now date in
  outcome_of st' (currentChallenge st) = Some failed /\
  score st' = score st + best_of st (currentChallenge st) / 10 /\
  (best_of st (currentChallenge st) = 0 -> score st' = score st) /\
  (gameState st' = GS_finished \/
   (currentChallenge st' = S (currentChallenge st) /\ live st')).
Proof.
  intros (_ & _ & _ & I4) Ht Hg Hr Hd Hd0 Hnow Hb st'.
  destruct (timerTick_times_out st now date d Ht Hg Hd Hd0 Hnow Hr)
    as (Hf & _ & _ & _ & _ & Hsc & Hnext & Hend).
  fold st' in Hf, Hsc, Hnext, Hend.
  assert (Hdiv : 0 <= best_of st (currentChallenge st) / 10)
    by (apply Z.div_pos; lia).
  split; [apply Hf, I4; split; [congruence|exact Hr]|].
  rewrite Z.max_r in Hsc by exact Hdiv.
  split; [exact Hsc|]. split.
  - intros E. rewrite E in Hsc. rewrite Hsc. apply Z.add_0_r.
  - destruct (lt_dec (S (currentChallenge st))
                     (List.length (activeChallenges st))) as [Hlt|Hnlt].
    + right. destruct (Hnext Hlt) as (Hg' & Hc' & Hr' & _).
      split; [exact Hc'|]. split; [congruence|exact Hr'].
    + left. apply (Hend Hnlt).
Qed.

End Facts.

(** *** Sample games *)

(** Poses that are their own percentage, and a game on three challenges
    armed at time 0 with a deadline at 20000 ms. *)
Definition reading : list (Z -> Z) := [fun p => p; fun p => p; fun p => p].

Definition armed : Arena Z :=
  beginPlaying (startGame "Ana" reading Leaderboard.NoItem) 0.

Abbreviation run_ascii := (Round.run Leaderboard.toLowerCase_ascii).

Lemma live_armed : live Z armed.
Proof. split; [discriminate | reflexivity]. Qed.

Lemma before_deadline_armed (t : Q) :
  (t < 20000)%Q -> before_deadline Z armed t.
Proof. intros H d [= <-]. exact H. Qed.

Lemma continuous_hold_passes_witness :
  outcome_of Z
    (run_ascii armed
       [Frame 0 [95]; TimerTick 200 0; Frame 1000 [95]; Frame 2500 [95]]) 0
    = Some passed /\
  poseResolved
    (run_ascii armed
       [Frame 0 [95]; TimerTick 200 0; Frame 1000 [95]; Frame 2500 [95]])
    = true /\
  best_of Z
    (run_ascii armed
       [Frame 0 [95]; TimerTick 200 0; Frame 1000 [95]; Frame 2500 [95]]) 0
    = 95 /\
  score
    (run_ascii armed
       [Frame 0 [95]; TimerTick 200 0; Frame 1000 [95]; Frame 2500 [95]])
    = 0 + 95 / 10 /\
  live Z (run_ascii armed [Frame 0 [95]; TimerTick 200 0; Frame 1000 [95]]) /\
  score (run_ascii armed [Frame 0 [95]; TimerTick 200 0; Frame 1000 [95]]) = 0.
Proof.
  destruct (continuous_hold_passes Z Leaderboard.toLowerCase_ascii armed
              0 95 [] [TimerTick 200 0; Frame 1000 [95]; Frame 2500 [95]]
              live_armed)
    as (H1 & H2 & H3 & _ & H5 & H6).
  - intros h [=].
  - vm_compute. discriminate.
  - repeat constructor; try (vm_compute; discriminate).
    apply before_deadline_armed. reflexivity.
  - apply Exists_cons_tl, Exists_cons_tl, Exists_cons_hd.
    exists 2500%Q, 95, []. split; [reflexivity|]. vm_compute. discriminate.
  - split; [exact H1|]. split; [exact H2|]. split; [exact H3|].
    split; [exact H5|].
    apply (H6 [Frame 0 [95]; TimerTick 200 0; Frame 1000 [95]]
              [Frame 2500 [95]] eq_refl).
    intros H. inversion H as [? ? Hc|? ? H']; subst.
    + destruct Hc as (t & p & ps & [= <- _ _] & Hc). vm_compute in Hc.
      now apply Hc.
    + inversion H' as [? ? Hc|? ? H'']; subst.
      * destruct Hc as (t & p & ps & [=] & _).
      * inversion H'' as [? ? Hc|? ? H3']; subst; [|inversion H3'].
        destruct Hc as (t & p & ps & [= <- _ _] & Hc). vm_compute in Hc.
        now apply Hc.
Defined.

(** The scenario of the specification: accuracy 95 held for 2.5 seconds is
    a pass with 9 points. *)
Example hold_95_awards_9 :
  score (run_ascii armed
           [Frame 0 [95]; TimerTick 200 0; Frame 1000 [95]; Frame 2500 [95]])
  = 9 /\
  poseResults (run_ascii armed
           [Frame 0 [95]; TimerTick 200 0; Frame 1000 [95]; Frame 2500 [95]])
  = [Some passed; Some pending; Some pending].
Proof. split; vm_compute; reflexivity. Qed.

(** A hold pays for its best sample: 85, then 95, then 90 at the end of
    the hold are a pass with 9 points. *)
Example hold_awards_best_sample :
  score (run_ascii armed
           [Frame 0 [85]; Frame 1000 [95]; Frame 1900 []; Frame 2500 [90]])
  = 9 /\
  poseResolved (run_ascii armed [Frame 0 [85]; Frame 1000 [95]; Frame 1900 []])
  = false.
Proof. split; vm_compute; reflexivity. Qed.

(** A round on which accuracy 90 has been held since time 0. *)
Definition held_since_0 : Arena Z := detect armed 0 [90].

Lemma dip_restarts_hold_witness :
  holdStartMs (detect held_since_0 1500 [70]) = None /\
  holdStartMs
    (run_ascii held_since_0
       (Frame 1500 [70] :: [Frame 1600 []; TimerTick 1800 0] ++ [Frame 1900 [90]]))
    = Some 1900%Q /\
  poseResolved
    (detect
       (run_ascii held_since_0
          (Frame 1500 [70] :: [Frame 1600 []; TimerTick 1800 0]
             ++ [Frame 1900 [90]]))
       2100 [95]) = false.
Proof.
  destruct (dip_restarts_hold Z Leaderboard.toLowerCase_ascii held_since_0
              1500 70 [] [Frame 1600 []; TimerTick 1800 0] 1900 90 [])
    as (H1 & H2 & _ & _ & H5).
  - split; [discriminate | reflexivity].
  - vm_compute. reflexivity.
  - repeat constructor. intros d [= <-]. reflexivity.
  - vm_compute. discriminate.
  - split; [exact H1|]. split; [exact H2|].
    apply (H5 2100%Q 95 []); [vm_compute; discriminate | reflexivity].
Defined.

(** The first round of the sample game, passed at 2500 ms. *)
Definition passed_first : Arena Z :=
  run_ascii armed [Frame 0 [95]; Frame 2500 [95]].

Lemma resolved_round_is_final_witness :
  poseResults
    (run_ascii passed_first
       [Frame 2600 [100]; TimerTick 30000 0; Frame 5000 [10]])
    = poseResults passed_first /\
  score
    (run_ascii passed_first
       [Frame 2600 [100]; TimerTick 30000 0; Frame 5000 [10]])
    = score passed_first /\
  outcome_of Z
    (run_ascii passed_first
       [CelebrationDone 3500 0; Frame 3600 [85]; Frame 6000 [85];
        CelebrationDone 7000 0; TimerTick 40000 0]) 0
    = Some passed.
Proof.
  destruct (resolved_round_is_final Z Leaderboard.toLowerCase_ascii passed_first)
    as (Hlatch & Hkeep & _).
  - apply Inv_run, Inv_beginPlaying.
  - destruct (Hlatch eq_refl
                [Frame 2600 [100]; TimerTick 30000 0; Frame 5000 [10]])
      as [Hres Hsc]; [repeat constructor|].
    split; [exact Hres|]. split; [exact Hsc|].
    apply (Hkeep _ 0%nat passed); [reflexivity | discriminate].
Defined.

(** The scenario of the specification: accuracy 60 for the whole window
    is a timeout with 6 points, and the game moves to the second round. *)
Example window_60_times_out_with_6 :
  let st' := run_ascii armed
               [Frame 0 [60]; Frame 10000 [60]; TimerTick 19800 0;
                TimerTick 20000 0] in
  poseResults st' = [Some failed; Some pending; Some pending] /\
  score st' = 6 /\ currentChallenge st' = 1%nat /\ poseResolved st' = false.
Proof. repeat split; vm_compute; reflexivity. Qed.

End RoundSpec.

(** ** A whole game *)

Module GameSpec.

Import JS Exn Round RoundSpec Scoreboard.
Open Scope list_scope.
Open Scope Z_scope.

(** *** Counting outcomes *)

Lemma get_cons_0 {A} (h : option A) t : get (h :: t) 0 = h.
Proof. unfold get. simpl. now destruct h. Qed.

Lemma get_cons_S {A} (h : option A) t i : get (h :: t) (S i) = get t i.
Proof. reflexivity. Qed.

Lemma get_ext {A} (a a' : array A) :
  List.length a' = List.length a -> (forall j, get a' j = get a j) -> a' = a.
Proof.
  revert a'. induction a as [|h t IH]; intros [|h' t'] Hl Hg; try discriminate.
  - reflexivity.
  - f_equal.
    + specialize (Hg 0%nat). now rewrite !get_cons_0 in Hg.
    + apply IH; [simpl in Hl; lia|]. intros j. apply (Hg (S j)).
Qed.

Definition hit (r which : PoseResult) : nat :=
  if PoseResult_eqb r which then 1 else 0.

Lemma count_results_cons which (h : option PoseResult) t :
  count_results which (h :: t) =
  (match h with Some r => hit r which | None => 0 end
   + count_results which t)%nat.
Proof.
  unfold count_results, hit. simpl. destruct h as [r|]; [|reflexivity].
  now destruct (PoseResult_eqb r which).
Qed.

(** Replacing one outcome moves the counts by one. *)
Lemma count_results_replace which (a a' : array PoseResult) i old v :
  List.length a' = List.length a ->
  (forall j, j <> i -> get a' j = get a j) ->
  get a i = Some old -> get a' i = Some v ->
  (count_results which a' + hit old which =
   count_results which a + hit v which)%nat.
Proof.
  revert a' i. induction a as [|h t IH]; intros [|h' t'] i Hl Hoth Ho Hv;
    try discriminate.
  - destruct i; discriminate.
  - rewrite !count_results_cons. destruct i as [|i].
    + rewrite get_cons_0 in Ho, Hv. subst.
      assert (E : t' = t).
      { apply get_ext; [simpl in Hl; lia|]. intros j.
        apply (Hoth (S j)). discriminate. }
      rewrite E. lia.
    + assert (E : h' = h).
      { specialize (Hoth 0%nat). rewrite !get_cons_0 in Hoth. now apply Hoth. }
      subst. rewrite !get_cons_S in *.
      specialize (IH t' i). rewrite <- Nat.add_assoc, IH; try lia; auto.
      intros j Hj. apply (Hoth (S j)). congruence.
Qed.

Lemma count_results_le (a : array PoseResult) :
  (count_results passed a + count_results failed a <= List.length a)%nat.
Proof.
  induction a as [|[[| |]|] t IH]; rewrite ?count_results_cons; cbn in *; lia.
Qed.

(** With the first [k] rounds resolved and the others pending, the passed
    and failed rounds are [k] together. *)
Lemma count_results_prefix (a : array PoseResult) k :
  (k <= List.length a)%nat ->
  (forall i, (i < k)%nat -> get a i = Some passed \/ get a i = Some failed) ->
  (forall i, (k <= i < List.length a)%nat -> get a i = Some pending) ->
  (count_results passed a + count_results failed a = k)%nat.
Proof.
  revert k. induction a as [|h t IH]; intros k Hk Hres Hpen.
  - simpl in Hk. assert (k = 0)%nat by lia. now subst.
  - rewrite !count_results_cons. destruct k as [|k].
    + pose proof (Hpen 0%nat) as H0. rewrite get_cons_0 in H0.
      rewrite H0 by (simpl; lia). cbn.
      apply (IH 0%nat); [lia | intros i Hi; lia |].
      intros i Hi. apply (Hpen (S i)). simpl. lia.
    + pose proof (Hres 0%nat) as H0. rewrite get_cons_0 in H0.
      assert (IHk : (count_results passed t + count_results failed t = k)%nat).
      { apply IH; [simpl in Hk; lia | |].
        - intros i Hi. apply (Hres (S i)). lia.
        - intros i Hi. apply (Hpen (S i)). simpl. lia. }
      destruct H0 as [-> | ->]; [lia| |]; cbn; lia.
Qed.

Section GameFacts.

Variable Pose : Type.
Variable toLowerCase : string -> string.

Implicit Types (st s : Arena Pose).

Abbreviation timerTick := (Round.timerTick toLowerCase).
Abbreviation celebrationDone := (Round.celebrationDone toLowerCase).
Abbreviation finishGame := (Round.finishGame toLowerCase).
Abbreviation advance := (Round.advance toLowerCase).
Abbreviation step := (Round.step toLowerCase).
Abbreviation run := (Round.run toLowerCase).
Abbreviation live := (RoundSpec.live Pose).
Abbreviation Inv := (RoundSpec.Inv Pose).
Abbreviation outcome_of := (RoundSpec.outcome_of Pose).
Abbreviation best_of := (RoundSpec.best_of Pose).
Abbreviation current_accuracy := (RoundSpec.current_accuracy Pose).

Ltac fields :=
  cbv beta iota zeta delta
    [set_gameState set_currentChallenge set_score set_accuracy
     set_poseResults set_poseBestAccuracy set_poseResolved set_holdStartMs
     set_poseDeadlineMs set_poseTimerInterval set_celebration
     set_localStorage clearPoseTimer startPoseTimer Round.finishGame
     Round.advance Round.render Round.nextChallenge List.fold_left List.app
     participantName gameState currentChallenge activeChallenges score
     accuracy poseResults poseBestAccuracy poseResolved holdStartMs
     poseDeadlineMs poseTimerInterval celebration localStorage].

Ltac fields_all :=
  cbv beta iota zeta delta
    [set_gameState set_currentChallenge set_score set_accuracy
     set_poseResults set_poseBestAccuracy set_poseResolved set_holdStartMs
     set_poseDeadlineMs set_poseTimerInterval set_celebration
     set_localStorage clearPoseTimer startPoseTimer Round.finishGame
     Round.advance Round.render Round.nextChallenge List.fold_left List.app
     participantName gameState currentChallenge activeChallenges score
     accuracy poseResults poseBestAccuracy poseResolved holdStartMs
     poseDeadlineMs poseTimerInterval celebration localStorage] in *.

(** Case analysis on the innermost test of the goal. *)
Ltac branch :=
  match goal with
  | |- context [match ?x with _ => _ end] =>
      lazymatch x with
      | context [match _ with _ => _ end] => fail
      | _ => destruct x eqn:?
      end
  end; fields.

(** *** The shape of the callbacks *)

(** The state a timeout leaves for the tail of its callback (lines
    1271-1273), and the updaters it has queued by then (lines
    1278-1292). *)
Definition resolved st : Arena Pose :=
  set_poseResolved _ (clearPoseTimer st) true.

Definition timeout_queue st : list (Updater Pose) :=
  let idx := currentChallenge st in
  let bestAcc := nullish (get (poseBestAccuracy st) idx) 0 in
  let earnedPoints := bestAcc / 10 in
  (if 0 <? earnedPoints
   then [fun s => set_score _ s (score s + earnedPoints)]
   else []) ++
  [fun s =>
     match get (poseResults s) idx with
     | Some pending => set_poseResults _ s (set (poseResults s) idx failed)
     | _ => s
     end].

Lemma timerTick_shape st now date :
  timerTick st now date = st \/
  timerTick st now date = clearPoseTimer st \/
  (poseTimerInterval st = true /\ gameState st = GS_playing /\
   poseResolved st = false /\
   timerTick st now date =
     advance (resolved st) (currentChallenge st) now date (timeout_queue st) /\
   RoundSpec.timed_out_from Pose st now (timerTick st now date)).
Proof.
  destruct (poseTimerInterval st) eqn:Ht;
    [|left; unfold Round.timerTick; now rewrite Ht].
  destruct (GameState_eqb (gameState st) GS_playing) eqn:Hg;
    [|left; unfold Round.timerTick; now rewrite Ht, Hg].
  destruct (poseDeadlineMs st) as [d|] eqn:Hd;
    [|left; unfold Round.timerTick; now rewrite Ht, Hg, Hd].
  destruct (Qeq_bool d 0) eqn:Hd0;
    [left; unfold Round.timerTick; rewrite Ht, Hg, Hd; cbn; now rewrite Hd0|].
  destruct (Qle_bool (d - now) 0) eqn:Hle;
    [|left; unfold Round.timerTick; rewrite Ht, Hg, Hd; cbn;
      now rewrite Hd0, Hle].
  destruct (poseResolved st) eqn:Hr.
  - right. left. unfold Round.timerTick. rewrite Ht, Hg, Hd. cbn.
    rewrite Hd0, Hle. destruct st; cbn in *. now rewrite Hr.
  - right. right. apply GameState_eqb_eq in Hg.
    split; [reflexivity|]. split; [exact Hg|]. split; [reflexivity|]. split.
    + unfold Round.timerTick, resolved, timeout_queue.
      rewrite Ht, Hg, Hd. cbn. rewrite Hd0, Hle.
      destruct st; cbn in *. now rewrite Hr.
    + apply (timerTick_times_out Pose toLowerCase st now date d); auto.
      * intros E. apply Qeq_bool_iff in E. congruence.
      * now apply deadline_elapsed.
Qed.

Lemma celebrationDone_shape st now date :
  celebrationDone st now date = st \/
  (celebration st = true /\
   celebrationDone st now date =
     advance (set_celebration _ st false) (currentChallenge st) now date []).
Proof.
  unfold Round.celebrationDone. destruct (celebration st); [right|now left].
  split; reflexivity.
Qed.

Lemma advance_shape (s : Arena Pose) idx now date queue :
  ((S idx < List.length (activeChallenges s))%nat /\
   advance s idx now date queue =
     render (startPoseTimer s now) (queue ++ [nextChallenge])) \/
  (~ (S idx < List.length (activeChallenges s))%nat /\
   advance s idx now date queue = render (finishGame s date) queue).
Proof.
  unfold Round.advance.
  destruct (Z.of_nat idx <? Z.of_nat (List.length (activeChallenges s)) - 1)
    eqn:E.
  - left. split; [now apply advance_test | reflexivity].
  - right. split; [|reflexivity].
    apply not_true_iff_false in E. now rewrite advance_test in E.
Qed.

(** The updaters of the game write the score, the outcomes and the index
    of the challenge, and nothing else. *)
Definition display st st' : Prop :=
  participantName st' = participantName st /\
  gameState st' = gameState st /\
  activeChallenges st' = activeChallenges st /\
  poseBestAccuracy st' = poseBestAccuracy st /\
  poseResolved st' = poseResolved st /\
  holdStartMs st' = holdStartMs st /\
  poseDeadlineMs st' = poseDeadlineMs st /\
  poseTimerInterval st' = poseTimerInterval st /\
  celebration st' = celebration st /\
  localStorage st' = localStorage st.

Definition quiet_updater (u : Updater Pose) : Prop := forall s, display s (u s).

Lemma display_refl st : display st st.
Proof. repeat split. Qed.

Lemma display_trans st1 st2 st3 :
  display st1 st2 -> display st2 st3 -> display st1 st3.
Proof. unfold display. intuition congruence. Qed.

Lemma render_display s queue :
  Forall quiet_updater queue -> display s (render s queue).
Proof.
  intros H. revert s. induction H as [|u queue Hu _ IH]; intros s.
  - apply display_refl.
  - simpl. eapply display_trans; [apply Hu | apply IH].
Qed.

Lemma timeout_queue_quiet st : Forall quiet_updater (timeout_queue st).
Proof.
  unfold timeout_queue. apply Forall_app. split.
  - destruct (0 <? _); constructor; [|constructor].
    intros s. destruct s; repeat split.
  - constructor; [|constructor]. intros s.
    destruct (get (poseResults s) (currentChallenge st)) as [[| |]|];
      destruct s; repeat split.
Qed.

Lemma nextChallenge_quiet : quiet_updater (@nextChallenge Pose).
Proof. intros s. destruct s; repeat split. Qed.

Lemma timeout_queue_next_quiet st :
  Forall quiet_updater (timeout_queue st ++ [nextChallenge]).
Proof.
  apply Forall_app. split; [apply timeout_queue_quiet|].
  constructor; [apply nextChallenge_quiet | constructor].
Qed.

(** *** The end of a game is final *)

Lemma finished_absorbing st ev :
  gameState st = GS_finished -> celebration st = false -> step st ev = st.
Proof.
  intros Hg Hc. destruct ev as [now poses|now date|now date]; simpl.
  - now apply detect_finished.
  - unfold Round.timerTick. rewrite Hg. cbn.
    now destruct (poseTimerInterval st).
  - unfold Round.celebrationDone. now rewrite Hc.
Qed.

(** The delayed advance is pending only on a resolved round whose clock is
    stopped, and never once the game has ended. *)
Definition Latched st : Prop :=
  (celebration st = true ->
   poseTimerInterval st = false /\ poseResolved st = true) /\
  (gameState st = GS_finished ->
   celebration st = false /\ poseResolved st = true).

Lemma Latched_display s s' : display s s' -> Latched s -> Latched s'.
Proof.
  intros (_ & Hg & _ & _ & Hr & _ & _ & Ht & Hc & _). unfold Latched.
  now rewrite Hg, Hr, Ht, Hc.
Qed.

Lemma queue_next_quiet (queue : list (Updater Pose)) :
  Forall quiet_updater queue -> Forall quiet_updater (queue ++ [nextChallenge]).
Proof.
  intros H. apply Forall_app. split; [exact H|].
  constructor; [apply nextChallenge_quiet | constructor].
Qed.

Lemma Latched_advance s idx now date queue :
  Forall quiet_updater queue ->
  celebration s = false -> poseResolved s = true ->
  gameState s <> GS_finished ->
  Latched (advance s idx now date queue).
Proof.
  intros Hq Hc Hr Hg.
  destruct (advance_shape s idx now date queue) as [(_ & ->) | (_ & ->)].
  - apply (Latched_display (startPoseTimer s now));
      [apply render_display, queue_next_quiet, Hq|].
    destruct s; split; intros H; fields_all; subst;
      try discriminate H; try contradiction; now split.
  - apply (Latched_display (finishGame s date));
      [apply render_display, Hq|].
    destruct s; split; intros H; fields_all; subst;
      try discriminate H; try contradiction; now split.
Qed.

Lemma Latched_step st ev : Latched st -> Latched (step st ev).
Proof.
  intros (Hc & Hf).
  destruct (GameState_eqb (gameState st) GS_finished) eqn:Hg.
  { apply GameState_eqb_eq in Hg. destruct (Hf Hg) as [Hcf Hr].
    rewrite finished_absorbing; auto. now split. }
  pose proof Hg as Hg'. apply GameState_eqb_neq in Hg'.
  destruct ev as [now poses|now date|now date]; simpl.
  - unfold detect. rewrite Hg. destruct st; cbn in *.
    repeat branch; unfold Latched; fields; repeat split; intros;
      try congruence; try (now apply Hc).
  - destruct (timerTick_shape st now date)
      as [-> | [-> | (Ht & _ & _ & -> & _)]].
    + now split.
    + destruct st; cbn in *. split; intros H.
      * destruct (Hc H). now split.
      * contradiction.
    + apply Latched_advance.
      * apply timeout_queue_quiet.
      * destruct (celebration st) eqn:E.
        -- destruct (Hc eq_refl). congruence.
        -- destruct st; exact E.
      * now destruct st.
      * destruct st; exact Hg'.
  - destruct (celebrationDone_shape st now date) as [-> | (Hcel & ->)].
    + now split.
    + destruct (Hc Hcel) as [_ Hr].
      apply Latched_advance; [constructor| | |]; now destruct st.
Qed.

Lemma Latched_run st evs : Latched st -> Latched (run st evs).
Proof.
  revert st. induction evs as [|ev evs IH]; intros st H; [exact H|].
  simpl. apply IH. now apply Latched_step.
Qed.

Lemma Latched_beginPlaying name selected storage now :
  Latched (beginPlaying (@startGame Pose name selected storage) now).
Proof. split; intros H; discriminate H. Qed.

Lemma run_finished st evs :
  Latched st -> gameState st = GS_finished -> run st evs = st.
Proof.
  intros (_ & Hf) Hg. destruct (Hf Hg) as [Hc _].
  induction evs as [|ev evs IH]; [reflexivity|].
  simpl. now rewrite finished_absorbing.
Qed.

(** *** What a game stores *)

(** The points a game does not store: the award of the round on which it
    ended, when that round ended by timeout. *)
Definition unsaved st : Z :=
  match outcome_of st (currentChallenge st) with
  | Some failed => Z.max 0 (best_of st (currentChallenge st) / 10)
  | _ => 0
  end.

(** The board is the one the game started with until the game ends, and
    from then on the one [finishGame] left; the delayed advance is pending
    on passed rounds only. *)
Definition Stored (name0 : string) (storage0 : Leaderboard.Stored) st
  : Prop :=
  participantName st = name0 /\
  (gameState st <> GS_finished -> localStorage st = storage0) /\
  (gameState st = GS_finished ->
   exists date,
     localStorage st =
       Leaderboard.after storage0
         (Leaderboard.finishGame toLowerCase storage0 name0
            (score st - unsaved st) (finalAccuracy st) date)) /\
  (celebration st = true -> outcome_of st (currentChallenge st) = Some passed).

Lemma finishGame_stores s date :
  localStorage (finishGame s date) =
  Leaderboard.after (localStorage s)
    (Leaderboard.finishGame toLowerCase (localStorage s) (participantName s)
       (score s) (finalAccuracy s) date).
Proof. destruct s; reflexivity. Qed.

Lemma finalAccuracy_ext s s' :
  activeChallenges s' = activeChallenges s ->
  poseBestAccuracy s' = poseBestAccuracy s ->
  finalAccuracy s' = finalAccuracy s.
Proof. intros Ha Hb. unfold finalAccuracy, rounds. now rewrite Ha, Hb. Qed.

Lemma detect_frame st now poses :
  participantName (detect st now poses) = participantName st /\
  localStorage (detect st now poses) = localStorage st /\
  gameState (detect st now poses) = gameState st /\
  currentChallenge (detect st now poses) = currentChallenge st /\
  ((celebration (detect st now poses) = celebration st /\
    poseResults (detect st now poses) = poseResults st) \/
   outcome_of (detect st now poses) (currentChallenge st) = Some passed).
Proof.
  unfold detect, RoundSpec.outcome_of. destruct st; cbn.
  repeat branch;
    (split; [reflexivity|]); (split; [reflexivity|]);
    (split; [reflexivity|]); (split; [reflexivity|]);
    first [left; split; reflexivity | right; apply get_set_same].
Qed.

Lemma startPoseTimer_keeps s now :
  participantName (startPoseTimer s now) = participantName s /\
  gameState (startPoseTimer s now) = gameState s /\
  localStorage (startPoseTimer s now) = localStorage s /\
  celebration (startPoseTimer s now) = celebration s.
Proof. destruct s; repeat split. Qed.

Lemma finishGame_keeps s date :
  participantName (finishGame s date) = participantName s /\
  gameState (finishGame s date) = GS_finished /\
  celebration (finishGame s date) = celebration s /\
  score (finishGame s date) = score s /\
  currentChallenge (finishGame s date) = currentChallenge s /\
  poseResults (finishGame s date) = poseResults s /\
  poseBestAccuracy (finishGame s date) = poseBestAccuracy s /\
  activeChallenges (finishGame s date) = activeChallenges s.
Proof. destruct s; repeat split. Qed.

Lemma resolved_keeps st :
  participantName (resolved st) = participantName st /\
  gameState (resolved st) = gameState st /\
  localStorage (resolved st) = localStorage st /\
  celebration (resolved st) = celebration st /\
  score (resolved st) = score st /\
  poseBestAccuracy (resolved st) = poseBestAccuracy st /\
  activeChallenges (resolved st) = activeChallenges st.
Proof. destruct st; repeat split. Qed.

Lemma set_celebration_keeps st :
  participantName (set_celebration _ st false) = participantName st /\
  gameState (set_celebration _ st false) = gameState st /\
  localStorage (set_celebration _ st false) = localStorage st /\
  celebration (set_celebration _ st false) = false /\
  score (set_celebration _ st false) = score st /\
  currentChallenge (set_celebration _ st false) = currentChallenge st /\
  poseResults (set_celebration _ st false) = poseResults st /\
  poseBestAccuracy (set_celebration _ st false) = poseBestAccuracy st /\
  activeChallenges (set_celebration _ st false) = activeChallenges st.
Proof. destruct st; repeat split. Qed.

Lemma Stored_step name0 storage0 st ev :
  Latched st -> Inv st -> Stored name0 storage0 st ->
  Stored name0 storage0 (step st ev).
Proof.
  intros (Lc & Lf) (_ & _ & _ & I4) (Hn & Hs & Hf & Hcel).
  destruct (GameState_eqb (gameState st) GS_finished) eqn:Hg.
  { apply GameState_eqb_eq in Hg. destruct (Lf Hg) as [Hc _].
    rewrite finished_absorbing; auto. repeat split; auto. }
  pose proof Hg as Hg'. apply GameState_eqb_neq in Hg'.
  specialize (Hs Hg').
  destruct ev as [now poses|now date|now date]; simpl.
  - destruct (detect_frame st now poses) as (Dn & Ds & Dg & Dc & Hcase).
    unfold Stored. rewrite Dn, Ds, Dg, Dc.
    split; [exact Hn|]. split; [intros _; exact Hs|].
    split; [intros H; contradiction|].
    intros Hc'. destruct Hcase as [(Ec & Er)|Hp]; [|exact Hp].
    unfold RoundSpec.outcome_of in *. rewrite Er. apply Hcel. congruence.
  - destruct (timerTick_shape st now date)
      as [-> | [-> | (Ht & Hplay & Hr & E & Hto)]].
    + repeat split; auto.
    + unfold Stored, RoundSpec.outcome_of in *.
      destruct st; cbn in *. repeat split; auto.
    + assert (Hcf : celebration st = false).
      { destruct (celebration st) eqn:Ec; [|reflexivity].
        destruct (Lc eq_refl). congruence. }
      assert (Hpen : outcome_of st (currentChallenge st) = Some pending).
      { apply I4. split; [exact Hg' | exact Hr]. }
      destruct Hto as (Hp & _ & _ & _ & _ & Hsc & _ & Hend).
      specialize (Hp Hpen).
      destruct (resolved_keeps st) as (Rn & Rg & Rs & Rc & Rsc & Rb & Ra).
      destruct (advance_shape (resolved st) (currentChallenge st) now date
                  (timeout_queue st)) as [(Hlt & E') | (Hnlt & E')];
        rewrite E' in E; clear E'.
      * clear Hp Hsc Hend. rewrite E.
        pose proof (render_display (startPoseTimer (resolved st) now) _
                      (timeout_queue_next_quiet st))
          as (Dn & Dg & _ & _ & _ & _ & _ & _ & Dc & Ds).
        destruct (startPoseTimer_keeps (resolved st) now)
          as (Sn & Sg & Ss & Sc).
        unfold Stored. rewrite Dn, Dg, Dc, Ds, Sn, Sg, Ss, Sc, Rn, Rg, Rs, Rc.
        split; [exact Hn|]. split; [intros _; exact Hs|].
        split; [intros H; contradiction | intros H; congruence].
      * rewrite Ra in Hnlt. destruct (Hend Hnlt) as [_ Hidx].
        clear Hend. rewrite E in Hp, Hsc, Hidx |- *. clear E.
        pose proof (render_display (finishGame (resolved st) date) _
                      (timeout_queue_quiet st))
          as (Dn & Dg & Da & Db & _ & _ & _ & _ & Dc & Ds).
        destruct (finishGame_keeps (resolved st) date)
          as (Fn & Fg & Fc & Fsc & _ & _ & Fb & Fa).
        set (st' := render (finishGame (resolved st) date) (timeout_queue st))
          in *.
        unfold Stored. rewrite Dn, Dg, Dc, Fn, Fg, Fc, Rn, Rc.
        split; [exact Hn|]. split; [intros H; now contradiction H|].
        split; [|intros H; congruence].
        intros _. exists date. rewrite Ds, finishGame_stores, Rn, Rs, Rsc, Hn, Hs.
        assert (Efa : finalAccuracy st' = finalAccuracy (resolved st)).
        { apply finalAccuracy_ext; congruence. }
        rewrite Efa. f_equal. f_equal.
        unfold unsaved. rewrite Hidx, Hp.
        unfold RoundSpec.best_of in *. rewrite Db, Fb, Rb. lia.
  - destruct (celebrationDone_shape st now date) as [-> | (Hc & E)].
    + repeat split; auto.
    + specialize (Hcel Hc). rewrite E. clear E.
      destruct (set_celebration_keeps st)
        as (Cn & Cg & Cs & Cc & Csc & Ci & Cr & Cb & Ca).
      destruct (advance_shape (set_celebration _ st false)
                  (currentChallenge st) now date [])
        as [(Hlt & ->) | (Hnlt & ->)].
      * pose proof (render_display
                      (startPoseTimer (set_celebration _ st false) now)
                      ([] ++ [nextChallenge])
                      (queue_next_quiet [] (Forall_nil _)))
          as (Dn & Dg & _ & _ & _ & _ & _ & _ & Dc & Ds).
        destruct (startPoseTimer_keeps (set_celebration _ st false) now)
          as (Sn & Sg & Ss & Sc).
        unfold Stored. rewrite Dn, Dg, Dc, Ds, Sn, Sg, Ss, Sc, Cn, Cg, Cs, Cc.
        split; [exact Hn|]. split; [intros _; exact Hs|].
        split; [intros H; contradiction | intros H; discriminate H].
      * cbn [Round.render fold_left].
        destruct (finishGame_keeps (set_celebration _ st false) date)
          as (Fn & Fg & Fc & Fsc & Fi & Fr & Fb & Fa).
        unfold Stored. rewrite Fn, Fg, Fc, Cn, Cc.
        split; [exact Hn|]. split; [intros H; now contradiction H|].
        split; [|intros H; discriminate H].
        intros _. exists date. rewrite finishGame_stores, Cn, Cs, Csc, Hn, Hs.
        assert (Efa : finalAccuracy (finishGame (set_celebration _ st false) date)
                      = finalAccuracy (set_celebration _ st false)).
        { apply finalAccuracy_ext; congruence. }
        rewrite Efa. f_equal. f_equal.
        unfold unsaved, RoundSpec.outcome_of in *.
        rewrite Fi, Fr, Ci, Cr, Hcel, Fsc, Csc. lia.
Qed.

Lemma Stored_run name0 storage0 st evs :
  Latched st -> Inv st -> Stored name0 storage0 st ->
  Stored name0 storage0 (run st evs).
Proof.
  revert st. induction evs as [|ev evs IH]; intros st HL HI H; [exact H|].
  simpl. apply IH;
    [now apply Latched_step | now apply Inv_step | now apply Stored_step].
Qed.

(** X1.  The leaderboard is written once per game, and a timeout on the
    last round is not in what is written.  Whatever callbacks run after
    the first round is armed, the stored board is the one the game started
    with until the game has ended; once it has ended the board is what one
    merge into the initial board leaves (the initial board itself when the
    merge threw), and no later callback changes anything.  The score
    merged is the final score when the last round was passed; when the
    last round ended by timeout it is the final score less the points of
    that round, which [finishGame] reads from [scoreRef] before the
    updater of [setScore] has run. *)
Theorem leaderboard_written_once name selected storage t0 evs :
  let st := run (beginPlaying (@startGame Pose name selected storage) t0) evs in
  (gameState st <> GS_finished -> localStorage st = storage) /\
  (gameState st = GS_finished ->
   (exists date,
      localStorage st =
        Leaderboard.after storage
          (Leaderboard.finishGame toLowerCase storage name
             (score st - unsaved st) (finalAccuracy st) date)) /\
   (outcome_of st (currentChallenge st) = Some passed -> unsaved st = 0) /\
   (outcome_of st (currentChallenge st) = Some failed ->
    unsaved st = Z.max 0 (best_of st (currentChallenge st) / 10)) /\
   forall evs', run st evs' = st).
Proof.
  intros st.
  assert (HL : Latched st) by apply Latched_run, Latched_beginPlaying.
  assert (HS : Stored name storage st).
  { apply Stored_run;
      [apply Latched_beginPlaying | apply Inv_beginPlaying |].
    split; [reflexivity|]. split; [reflexivity|].
    split; intros H; discriminate H. }
  destruct HS as (_ & Hs & Hf & _). split; [exact Hs|].
  intros Hg. split; [now apply Hf|].
  split; [intros H; unfold unsaved; now rewrite H|].
  split; [intros H; unfold unsaved; now rewrite H|].
  intros evs'. now apply run_finished.
Qed.

(** *** Points and outcomes *)

Lemma detect_cases_acc st now poses :
  RoundSpec.frozen Pose st (detect st now poses) \/
  (live st /\ exists pose,
     80 <= current_accuracy st pose /\
     RoundSpec.passed_from Pose st (current_accuracy st pose)
       (detect st now poses)).
Proof.
  destruct (GameState_eqb (gameState st) GS_finished) eqn:Hg.
  { apply GameState_eqb_eq in Hg. rewrite detect_finished by exact Hg.
    left. apply frozen_refl. }
  apply GameState_eqb_neq in Hg.
  destruct poses as [|pose poses].
  { rewrite detect_no_pose. left. apply frozen_refl. }
  destruct (poseResolved st) eqn:Hr.
  { rewrite detect_resolved by exact Hr. left. apply frozen_refl. }
  assert (Hlive : live st) by now split.
  destruct (Z_lt_le_dec (current_accuracy st pose) 80) as [Hlow|Hhigh].
  { left. apply same_round_frozen. now apply detect_below. }
  destruct (holdStartMs st) as [h|] eqn:Hh.
  - destruct (Qlt_le_dec (now - h) 2000) as [Hlt|Hge].
    + left. apply same_round_frozen.
      now apply (detect_keeps_hold Pose st now h pose poses).
    + right. split; [exact Hlive|]. exists pose. split; [exact Hhigh|].
      now apply (detect_passes Pose st now h pose poses).
  - left. apply same_round_frozen. now apply detect_starts_hold.
Qed.

Lemma celebrationDone_cases_pending st now date :
  celebrationDone st now date = st \/
  (celebration st = true /\
   RoundSpec.advanced_from Pose st (celebrationDone st now date)).
Proof.
  destruct (celebration st) eqn:Hc.
  - right. split; [reflexivity|].
    destruct (celebrationDone_cases Pose toLowerCase st now date) as [E|H];
      [|exact H].
    exfalso. apply (f_equal celebration) in E. rewrite Hc in E.
    assert (Ecd : celebrationDone st now date =
                  advance (set_celebration _ st false) (currentChallenge st)
                    now date []).
    { unfold Round.celebrationDone. now rewrite Hc. }
    rewrite Ecd in E. clear Ecd.
    destruct (set_celebration_keeps st) as (_ & _ & _ & Cc & _).
    destruct (advance_shape (set_celebration _ st false)
                (currentChallenge st) now date [])
      as [(_ & E') | (_ & E')]; rewrite E' in E; clear E'.
    + pose proof (render_display
                    (startPoseTimer (set_celebration _ st false) now)
                    ([] ++ [nextChallenge])
                    (queue_next_quiet [] (Forall_nil _)))
        as (_ & _ & _ & _ & _ & _ & _ & _ & Dc & _).
      destruct (startPoseTimer_keeps (set_celebration _ st false) now)
        as (_ & _ & _ & Sc). congruence.
    + cbn [Round.render fold_left] in E.
      destruct (finishGame_keeps (set_celebration _ st false) date)
        as (_ & _ & Fc & _). congruence.
  - left. unfold Round.celebrationDone. now rewrite Hc.
Qed.

(** The validators of the game answer with percentages, and so do the
    best accuracies on record. *)
Definition Fair st : Prop :=
  (forall c, In c (activeChallenges st) -> forall p, 0 <= c p <= 100) /\
  (forall i, 0 <= best_of st i <= 100).

Lemma best_set_bound (a : array Z) j v :
  (forall i, 0 <= nullish (get a i) 0 <= 100) -> 0 <= v <= 100 ->
  forall i, 0 <= nullish (get (set a j v) i) 0 <= 100.
Proof.
  intros Ha Hv i. destruct (Nat.eq_dec j i) as [->|Hne].
  - now rewrite get_set_same.
  - rewrite get_set_other by exact Hne. apply Ha.
Qed.

Lemma Fair_display s s' : display s s' -> Fair s -> Fair s'.
Proof.
  intros (_ & _ & Ha & Hb & _). unfold Fair, RoundSpec.best_of.
  now rewrite Ha, Hb.
Qed.

Lemma Fair_advance s idx now date queue :
  Forall quiet_updater queue -> Fair s -> Fair (advance s idx now date queue).
Proof.
  intros Hq (Hc & Hb).
  destruct (advance_shape s idx now date queue) as [(_ & ->) | (_ & ->)].
  - apply (Fair_display (startPoseTimer s now));
      [apply render_display, queue_next_quiet, Hq|].
    destruct s; unfold Fair, RoundSpec.best_of in *; fields_all.
    split; [exact Hc|]. apply best_set_bound; [exact Hb | lia].
  - apply (Fair_display (finishGame s date)); [apply render_display, Hq|].
    destruct s; unfold Fair, RoundSpec.best_of in *; fields_all.
    split; [exact Hc | exact Hb].
Qed.

Lemma Fair_step st ev : Fair st -> Fair (step st ev).
Proof.
  intros HF. pose proof HF as (Hc & Hb).
  destruct ev as [now poses|now date|now date]; simpl.
  - unfold detect, Fair, RoundSpec.best_of in *. destruct st; fields_all.
    repeat branch; (split; [exact Hc|]); try exact Hb;
      apply best_set_bound; try exact Hb; try lia;
      match goal with
      | H : nth_error _ _ = Some ?c |- _ => apply Hc, (nth_error_In _ _ H)
      end.
  - destruct (timerTick_shape st now date)
      as [-> | [-> | (_ & _ & _ & -> & _)]].
    + exact HF.
    + now destruct st.
    + apply Fair_advance; [apply timeout_queue_quiet|]. now destruct st.
  - destruct (celebrationDone_shape st now date) as [-> | (_ & ->)].
    + exact HF.
    + apply Fair_advance; [constructor|]. now destruct st.
Qed.

Lemma Fair_run st evs : Fair st -> Fair (run st evs).
Proof.
  revert st. induction evs as [|ev evs IH]; intros st H; [exact H|].
  simpl. apply IH. now apply Fair_step.
Qed.

Lemma Fair_beginPlaying name selected storage now :
  (forall c, In c selected -> forall p, 0 <= c p <= 100) ->
  Fair (beginPlaying (@startGame Pose name selected storage) now).
Proof.
  intros H. split.
  - intros c Hc. apply H. cbn in Hc. now apply (LeaderboardSpec.In_firstn 3).
  - intros [|[|[|[|i]]]]; cbn; lia.
Qed.

(** Every passed round is worth at least 8 points, and every resolved round
    at most 10. *)
Definition Scored st : Prop :=
  8 * Z.of_nat (passedCount st) <= score st /\
  score st <= 10 * Z.of_nat (passedCount st + failedCount st).

Lemma frozen_counts st st' :
  RoundSpec.frozen Pose st st' ->
  passedCount st' = passedCount st /\ failedCount st' = failedCount st /\
  score st' = score st.
Proof.
  intros (_ & _ & _ & Hs & Hres & _). unfold passedCount, failedCount.
  now rewrite Hres.
Qed.

Lemma Scored_step st ev :
  Inv st -> Fair st -> Scored st -> Scored (step st ev).
Proof.
  intros (I1 & I2 & I3 & I4) (Hc & Hb) (Hlo & Hhi).
  assert (Hfrozen : forall st', RoundSpec.frozen Pose st st' -> Scored st').
  { intros st' Hf. destruct (frozen_counts st st' Hf) as (Hp & Hf' & Hs).
    unfold Scored. rewrite Hp, Hf', Hs. now split. }
  destruct ev as [now poses|now date|now date]; simpl.
  - destruct (detect_cases_acc st now poses)
      as [Hf|(Hlive & pose & Hacc & Hp)]; [now apply Hfrozen|].
    destruct Hp as (_ & _ & _ & _ & _ & _ & _ & _ & Ho & Hoth & _ & Hsc & Hlen).
    assert (Hlen' : List.length (poseResults (detect st now poses)) =
                    List.length (poseResults st)) by lia.
    pose proof (count_results_replace passed _ _ _ pending passed
                  Hlen' Hoth (I4 Hlive) Ho) as Cp.
    pose proof (count_results_replace failed _ _ _ pending passed
                  Hlen' Hoth (I4 Hlive) Ho) as Cf.
    cbn in Cp, Cf. unfold Scored, passedCount, failedCount in *. rewrite Hsc.
    assert (Hacc' : current_accuracy st pose <= 100).
    { unfold RoundSpec.current_accuracy in *.
      destruct (nth_error (activeChallenges st) (currentChallenge st))
        as [c|] eqn:E; [|lia]. apply Hc, (nth_error_In _ _ E). }
    pose proof (Hb (currentChallenge st)) as Hbc.
    assert (8 <= best_after Pose st (current_accuracy st pose) / 10 <= 10).
    { unfold best_after. split.
      - apply Z.div_le_lower_bound; lia.
      - apply Z.div_le_upper_bound; lia. }
    lia.
  - destruct (timerTick_cases Pose toLowerCase st now date)
      as [Hf|(Hg & Hr & Ht)]; [now apply Hfrozen|].
    destruct Ht as (Hp & _ & Hoth & Hlen & _ & Hsc & _).
    assert (Hpen : RoundSpec.outcome_of Pose st (currentChallenge st)
                   = Some pending).
    { apply I4. split; [congruence|exact Hr]. }
    pose proof (count_results_replace passed _ _ _ pending failed
                  Hlen Hoth Hpen (Hp Hpen)) as Cp.
    pose proof (count_results_replace failed _ _ _ pending failed
                  Hlen Hoth Hpen (Hp Hpen)) as Cf.
    cbn in Cp, Cf. unfold Scored, passedCount, failedCount in *. rewrite Hsc.
    pose proof (Hb (currentChallenge st)) as Hbc.
    assert (0 <= Z.max 0 (RoundSpec.best_of Pose st (currentChallenge st) / 10)
            <= 10).
    { split; [lia|]. apply Z.max_lub; [lia|].
      apply Z.div_le_upper_bound; lia. }
    lia.
  - destruct (celebrationDone_cases Pose toLowerCase st now date)
      as [->|(Hres & _ & Hs & _)]; [now split|].
    unfold Scored, passedCount, failedCount. rewrite Hres, Hs. now split.
Qed.

Lemma results_length_step st ev :
  Inv st ->
  List.length (poseResults (step st ev)) = List.length (poseResults st).
Proof.
  intros (I1 & _).
  destruct ev as [now poses|now date|now date]; simpl.
  - destruct (detect_cases Pose st now poses)
      as [(_ & _ & _ & _ & Hres & _)|(_ & acc & Hp)]; [now rewrite Hres|].
    destruct Hp as (_ & _ & _ & _ & _ & _ & _ & _ & _ & _ & _ & _ & Hlen). lia.
  - destruct (timerTick_cases Pose toLowerCase st now date)
      as [(_ & _ & _ & _ & Hres & _)|(_ & _ & Ht)]; [now rewrite Hres|].
    apply Ht.
  - destruct (celebrationDone_cases Pose toLowerCase st now date)
      as [->|(Hres & _)]; [reflexivity | now rewrite Hres].
Qed.

Lemma Scored_run st evs :
  Inv st -> Fair st -> Scored st ->
  Scored (run st evs) /\
  List.length (poseResults (run st evs)) = List.length (poseResults st).
Proof.
  revert st. induction evs as [|ev evs IH]; intros st HI HF HS; [now split|].
  simpl. destruct (IH (step st ev)) as [H1 H2].
  - now apply Inv_step.
  - now apply Fair_step.
  - now apply Scored_step.
  - split; [exact H1|]. rewrite H2. now apply results_length_step.
Qed.

(** X2.  When the selected validators answer with percentages between 0
    and 100, then after any callbacks of a game every passed round has
    earned at least 8 points and every resolved round at most 10: the score
    is between 8 times the rounds passed and 10 times the rounds passed or
    failed, three at most, so it never exceeds 30. *)
Theorem game_score_bounds name selected storage t0 evs :
  (forall c, In c selected -> forall p, 0 <= c p <= 100) ->
  let st := run (beginPlaying (@startGame Pose name selected storage) t0) evs in
  8 * Z.of_nat (passedCount st) <= score st /\
  score st <= 10 * Z.of_nat (passedCount st + failedCount st) /\
  (passedCount st + failedCount st <= 3)%nat /\
  0 <= score st <= 30.
Proof.
  intros Hsel st.
  destruct (Scored_run (beginPlaying (@startGame Pose name selected storage) t0)
              evs) as [[Hlo Hhi] Hlen].
  - apply Inv_beginPlaying.
  - now apply Fair_beginPlaying.
  - split; cbn; lia.
  - fold st in Hlo, Hhi, Hlen. cbn in Hlen.
    assert (Hcount : (passedCount st + failedCount st <= 3)%nat).
    { rewrite <- Hlen. apply count_results_le. }
    repeat split; try assumption; lia.
Qed.

(** *** Every round gets an outcome *)

(** The rounds before the current one are resolved, the current one is
    resolved when the latch is set, and the game ends on the last round. *)
Definition Prog st : Prop :=
  (forall i, (i < currentChallenge st)%nat ->
     outcome_of st i = Some passed \/ outcome_of st i = Some failed) /\
  (poseResolved st = true ->
     outcome_of st (currentChallenge st) = Some passed \/
     outcome_of st (currentChallenge st) = Some failed) /\
  (currentChallenge st = 0 \/
   currentChallenge st < List.length (activeChallenges st))%nat /\
  (gameState st = GS_finished ->
   ~ (S (currentChallenge st) < List.length (activeChallenges st))%nat).

Lemma Prog_step st ev : Latched st -> Inv st -> Prog st -> Prog (step st ev).
Proof.
  intros (Lc & Lf) (I1 & I2 & I3 & I4) (P1 & P2 & P3 & P4).
  assert (Hfrozen : forall st', RoundSpec.frozen Pose st st' -> Prog st').
  { intros st' (Hg & Hc & Ha & _ & Hres & Hr).
    unfold Prog, RoundSpec.outcome_of in *. rewrite Hg, Hc, Ha, Hres, Hr.
    repeat split; auto. }
  destruct ev as [now poses|now date|now date]; simpl.
  - destruct (detect_cases Pose st now poses)
      as [Hf|([Hg Hr] & acc & Hp)]; [now apply Hfrozen|].
    destruct Hp as (Hg' & Hc & Ha & _ & _ & _ & _ & _ & Ho & Hoth & _).
    unfold Prog. rewrite Hg', Hc, Ha. repeat split; auto.
    intros i Hi. rewrite Hoth by lia. now apply P1.
  - destruct (timerTick_cases Pose toLowerCase st now date)
      as [Hf|(Hg & Hr & Ht)]; [now apply Hfrozen|].
    destruct Ht as (Hp & _ & Hoth & _ & Ha & _ & Hnext & Hend).
    assert (Hpen : outcome_of st (currentChallenge st) = Some pending).
    { apply I4. split; [congruence|exact Hr]. }
    specialize (Hp Hpen). unfold Prog. rewrite Ha.
    destruct (lt_dec (S (currentChallenge st))
                     (List.length (activeChallenges st))) as [Hlt|Hnlt].
    + destruct (Hnext Hlt) as (Hg' & Hc & Hr' & _). rewrite Hg', Hc, Hr'.
      repeat split; try lia; try discriminate.
      intros i Hi. destruct (Nat.eq_dec i (currentChallenge st)) as [->|Hne].
      * now right.
      * rewrite Hoth by exact Hne. apply P1. lia.
    + destruct (Hend Hnlt) as (Hg' & Hc). rewrite Hc.
      repeat split; auto.
      intros i Hi. rewrite Hoth by lia. now apply P1.
  - destruct (celebrationDone_cases_pending st now date)
      as [->|(Hcel & Hres & Ha & _ & Hcase)]; [now repeat split|].
    destruct (Lc Hcel) as [_ Hr]. specialize (P2 Hr).
    unfold Prog, RoundSpec.outcome_of in *. rewrite Hres, Ha.
    destruct Hcase as [(Hlt & Hg & Hc & Hr')|(Hnlt & Hg & Hc)]; rewrite Hc.
    + rewrite Hr', Hg. repeat split; try lia; try discriminate.
      * intros i Hi.
        destruct (Nat.eq_dec i (currentChallenge st)) as [->|Hne];
          [exact P2 | apply P1; lia].
      * intros Hfin. destruct (Lf Hfin). congruence.
    + repeat split; auto.
Qed.

Lemma activeChallenges_step st ev :
  activeChallenges (step st ev) = activeChallenges st.
Proof.
  destruct ev as [now poses|now date|now date]; simpl.
  - destruct (detect_cases Pose st now poses) as [H|(_ & acc & H)]; apply H.
  - destruct (timerTick_cases Pose toLowerCase st now date)
      as [H|(_ & _ & H)]; apply H.
  - destruct (celebrationDone_cases Pose toLowerCase st now date)
      as [->|H]; [reflexivity | apply H].
Qed.

Lemma Prog_run st evs :
  Latched st -> Inv st -> Prog st ->
  Prog (run st evs) /\ activeChallenges (run st evs) = activeChallenges st.
Proof.
  revert st. induction evs as [|ev evs IH]; intros st HL HI HP; [now split|].
  simpl. destruct (IH (step st ev)) as [H1 H2].
  - now apply Latched_step.
  - now apply Inv_step.
  - now apply Prog_step.
  - split; [exact H1|]. rewrite H2. apply activeChallenges_step.
Qed.

Lemma Prog_beginPlaying name selected storage now :
  Prog (beginPlaying (@startGame Pose name selected storage) now).
Proof.
  repeat split; cbn; try lia; try discriminate.
Qed.

(** X3.  The totals of the finish screen.  After any callbacks of a game
    the rounds marked passed or failed are the rounds before the current
    one, and the current one once it is resolved; when the game has ended
    (on a selection that is not empty) they are all the rounds of the game,
    three when three challenges were selected. *)
Theorem finish_screen_totals name selected storage t0 evs :
  let st := run (beginPlaying (@startGame Pose name selected storage) t0) evs in
  (passedCount st + failedCount st =
   currentChallenge st + (if poseResolved st then 1 else 0))%nat /\
  (gameState st = GS_finished -> selected <> [] ->
   (passedCount st + failedCount st = Nat.min 3 (List.length selected))%nat).
Proof.
  intros st.
  set (st0 := beginPlaying (@startGame Pose name selected storage) t0) in *.
  assert (HL : Latched st) by apply Latched_run, Latched_beginPlaying.
  assert (HI : Inv st) by apply Inv_run, Inv_beginPlaying.
  destruct (Prog_run st0 evs (Latched_beginPlaying _ _ _ _)
              (Inv_beginPlaying _ _ _ _ _) (Prog_beginPlaying _ _ _ _))
    as [(P1 & P2 & P3 & P4) Ha].
  fold st in P1, P2, P3, P4, Ha.
  destruct HL as (_ & Lf). destruct HI as (I1 & I2 & I3 & I4).
  assert (Htotal : (passedCount st + failedCount st =
            currentChallenge st + (if poseResolved st then 1 else 0))%nat).
  { unfold passedCount, failedCount. apply count_results_prefix.
    - destruct (poseResolved st); lia.
    - intros i Hi. destruct (Nat.eq_dec i (currentChallenge st)) as [->|Hne].
      + apply P2. destruct (poseResolved st); [reflexivity|lia].
      + apply P1. destruct (poseResolved st); lia.
    - intros i Hi. destruct (Nat.eq_dec i (currentChallenge st)) as [->|Hne].
      + apply I4. destruct (poseResolved st) eqn:Hr; [lia|].
        split; [|exact Hr]. intros Hfin. destruct (Lf Hfin). congruence.
      + apply I3. destruct (poseResolved st); lia. }
  split; [exact Htotal|]. intros Hfin Hsel. rewrite Htotal.
  destruct (Lf Hfin) as [_ ->]. specialize (P4 Hfin).
  assert (Hlen : List.length (activeChallenges st) =
                 Nat.min 3 (List.length selected)).
  { rewrite Ha. exact (length_firstn 3 selected). }
  destruct selected as [|c selected']; [contradiction|].
  rewrite Hlen in *. cbn [List.length] in *. lia.
Qed.

(** *** A game nobody plays *)

Lemma timerTick_elapsed st now date d :
  poseTimerInterval st = true -> gameState st = GS_playing ->
  poseDeadlineMs st = Some d -> (0 < d)%Q -> (d <= now)%Q ->
  poseResolved st = false ->
  timerTick st now date =
    advance (resolved st) (currentChallenge st) now date (timeout_queue st).
Proof.
  intros Ht Hg Hd Hpos Hnow Hr. unfold Round.timerTick, resolved, timeout_queue.
  rewrite Ht, Hg, Hd. cbn [negb GameState_eqb].
  assert (E0 : Qeq_bool d 0 = false).
  { destruct (Qeq_bool d 0) eqn:E; [|reflexivity].
    apply Qeq_bool_iff in E. lra. }
  apply deadline_elapsed in Hnow. rewrite E0, Hnow.
  destruct st; cbn in *. now rewrite Hr.
Qed.

(** Callbacks that find nothing to do before the deadline [d]: frames in
    which the tracker returns no pose, and ticks of the timer before
    [d]. *)
Definition idle_until (d : Q) (ev : Event Pose) : Prop :=
  match ev with
  | Frame _ [] => True
  | TimerTick t _ => (t < d)%Q
  | _ => False
  end.

Lemma run_idle st d evs :
  poseDeadlineMs st = Some d -> Forall (idle_until d) evs -> run st evs = st.
Proof.
  intros Hd. induction 1 as [|ev evs Hev _ IH]; [reflexivity|].
  destruct ev as [now [|pose poses]|now date|now date]; try contradiction;
    simpl.
  - now rewrite detect_no_pose.
  - rewrite timerTick_before_deadline; [exact IH|].
    intros d' Hd'. simpl in Hev. congruence.
Qed.

Lemma run_app st evs1 evs2 : run st (evs1 ++ evs2) = run (run st evs1) evs2.
Proof. apply fold_left_app. Qed.

Lemma run_cons st ev evs : run st (ev :: evs) = run (step st ev) evs.
Proof. reflexivity. Qed.

Lemma run_nil st : run st [] = st.
Proof. reflexivity. Qed.

(** X4.  A game nobody plays ends by itself.  With three challenges
    selected, the first round armed at [t0] and the tracker never returning
    a pose, ticks of the timer before the deadline of a round (20 seconds
    after it was armed) change nothing, and the first tick at or after it
    fails the round and arms the next one; the third such tick ends the
    game with three failed rounds and no points, and stores the player with
    score 0 and accuracy 0. *)
Theorem unattended_game_ends name selected storage t0
  idle1 t1 date1 idle2 t2 date2 idle3 t3 date3 :
  (3 <= List.length selected)%nat ->
  (0 <= t0)%Q ->
  (t0 + 20000 <= t1)%Q -> (t1 + 20000 <= t2)%Q -> (t2 + 20000 <= t3)%Q ->
  Forall (idle_until (t0 + 20000)) idle1 ->
  Forall (idle_until (t1 + 20000)) idle2 ->
  Forall (idle_until (t2 + 20000)) idle3 ->
  let st :=
    run (beginPlaying (@startGame Pose name selected storage) t0)
      (idle1 ++ TimerTick t1 date1 :: idle2 ++ TimerTick t2 date2
         :: idle3 ++ [TimerTick t3 date3]) in
  gameState st = GS_finished /\
  poseResults st = [Some failed; Some failed; Some failed] /\
  score st = 0 /\
  localStorage st =
    Leaderboard.after storage
      (Leaderboard.finishGame toLowerCase storage name 0 0 date3).
Proof.
  intros Hlen H0 H1 H2 H3 Hi1 Hi2 Hi3.
  destruct selected as [|c1 [|c2 [|c3 rest]]]; try (simpl in Hlen; lia).
  cbv zeta.
  set (round := fun (i : nat) (results : array PoseResult) (t : Q) =>
         mkArena name GS_playing i [c1; c2; c3] 0 0 results
           [Some 0; Some 0; Some 0] false None
           (Some (t + POSE_TIME_LIMIT_MS)%Q) true false storage).
  assert (Htick : forall i results t now date,
            (0 <= t)%Q -> (t + 20000 <= now)%Q ->
            timerTick (round i results t) now date =
            advance (resolved (round i results t)) i now date
              (timeout_queue (round i results t))).
  { intros i results t now date Ht Hnow.
    apply (timerTick_elapsed (round i results t) now date
             (t + POSE_TIME_LIMIT_MS)%Q);
      try reflexivity;
      unfold POSE_TIME_LIMIT_MS, POSE_TIME_LIMIT_SECONDS; lra. }
  change (beginPlaying (@startGame Pose name (c1 :: c2 :: c3 :: rest) storage) t0)
    with (round 0%nat [Some pending; Some pending; Some pending] t0).
  assert (Hd : forall t, (t + POSE_TIME_LIMIT_MS == t + 20000)%Q).
  { intros t. unfold POSE_TIME_LIMIT_MS, POSE_TIME_LIMIT_SECONDS. ring. }
  assert (Hidle : forall i results t evs,
            Forall (idle_until (t + 20000)) evs ->
            run (round i results t) evs = round i results t).
  { intros i results t evs Hevs.
    apply (run_idle _ (t + POSE_TIME_LIMIT_MS)%Q); [reflexivity|].
    eapply Forall_impl; [|exact Hevs].
    intros [now [|p ps]|now date|now date]; simpl; auto;
      try (intros H; rewrite Hd; exact H). }
  rewrite run_app, (Hidle _ _ _ idle1 Hi1), run_cons.
  cbn [Round.step]. rewrite Htick by assumption.
  change (advance
            (resolved (round 0%nat [Some pending; Some pending; Some pending] t0))
            0 t1 date1
            (timeout_queue
               (round 0%nat [Some pending; Some pending; Some pending] t0)))
    with (round 1%nat [Some failed; Some pending; Some pending] t1).
  rewrite run_app, (Hidle _ _ _ idle2 Hi2), run_cons.
  cbn [Round.step]. rewrite Htick by lra.
  change (advance
            (resolved (round 1%nat [Some failed; Some pending; Some pending] t1))
            1 t2 date2
            (timeout_queue
               (round 1%nat [Some failed; Some pending; Some pending] t1)))
    with (round 2%nat [Some failed; Some failed; Some pending] t2).
  rewrite run_app, (Hidle _ _ _ idle3 Hi3), run_cons, run_nil.
  cbn [Round.step]. rewrite Htick by lra.
  repeat split.
Qed.

(** *** The best sample of a round *)

Lemma detect_bests st now pose poses :
  live st ->
  poseBestAccuracy (detect st now (pose :: poses)) =
  if best_of st (currentChallenge st) <? current_accuracy st pose
  then set (poseBestAccuracy st) (currentChallenge st)
         (current_accuracy st pose)
  else poseBestAccuracy st.
Proof.
  intros [Hg Hr]. apply GameState_eqb_neq in Hg.
  unfold detect, RoundSpec.best_of, RoundSpec.current_accuracy.
  rewrite Hg, Hr. destruct st; fields_all.
  repeat branch; reflexivity.
Qed.

Lemma detect_best st now pose poses :
  live st ->
  best_of (detect st now (pose :: poses)) (currentChallenge st) =
  Z.max (best_of st (currentChallenge st)) (current_accuracy st pose).
Proof.
  intros Hlive. unfold RoundSpec.best_of at 1.
  rewrite (detect_bests st now pose poses Hlive).
  apply best_after_update.
Qed.

Lemma detect_unresolved st now poses :
  live st -> poseResolved (detect st now poses) = false ->
  RoundSpec.same_round Pose st (detect st now poses).
Proof.
  intros Hlive Hr. destruct poses as [|pose poses].
  { rewrite detect_no_pose. apply same_round_refl. }
  destruct (Z_lt_le_dec (current_accuracy st pose) 80) as [Hlow|Hhigh].
  { now apply detect_below. }
  destruct (holdStartMs st) as [h|] eqn:Hh.
  - destruct (Qlt_le_dec (now - h) 2000) as [Hlt|Hge].
    + now apply (detect_keeps_hold Pose st now h pose poses).
    + destruct (detect_passes Pose st now h pose poses Hlive Hh Hhigh Hge)
        as (_ & _ & _ & Hr' & _). congruence.
  - now apply detect_starts_hold.
Qed.

(** Callbacks before the deadline [d]: frames, and ticks of the timer
    before [d]. *)
Definition early (d : Q) (ev : Event Pose) : Prop :=
  match ev with
  | Frame _ _ => True
  | TimerTick t _ => (t < d)%Q
  | CelebrationDone _ _ => False
  end.

(** The accuracies the validator of the current round gives the poses of
    the frames. *)
Definition readings st (evs : list (Event Pose)) : list Z :=
  flat_map (fun ev => match ev with
                      | Frame _ (pose :: _) => [current_accuracy st pose]
                      | _ => []
                      end) evs.

Lemma early_sample d evs :
  Forall (early d) evs -> Forall (RoundSpec.sample_or_tick Pose) evs.
Proof.
  apply Forall_impl. intros [now poses|now date|now date]; simpl; auto.
Qed.

Lemma run_early_unresolved st d evs :
  live st -> poseDeadlineMs st = Some d -> Forall (early d) evs ->
  forall s, RoundSpec.same_round Pose st s ->
    poseResolved (run s evs) = false ->
    RoundSpec.same_round Pose st (run s evs) /\
    best_of (run s evs) (currentChallenge st) =
      fold_left Z.max (readings st evs) (best_of s (currentChallenge st)).
Proof.
  intros Hlive Hd Hevs.
  induction Hevs as [|ev evs Hev Hevs IH]; intros s Hs Hr.
  - now split.
  - destruct ev as [now poses|now date|now date]; try contradiction;
      rewrite run_cons in *; cbn [Round.step] in *.
    + assert (Hlive' : live s) by now apply (same_round_live Pose st).
      assert (Hidx : currentChallenge s = currentChallenge st) by apply Hs.
      assert (Hr' : poseResolved (detect s now poses) = false).
      { destruct (poseResolved (detect s now poses)) eqn:E; [|reflexivity].
        destruct (run_resolved Pose toLowerCase _ evs E
                    (early_sample d evs Hevs)) as (Hrr & _). congruence. }
      pose proof (detect_unresolved s now poses Hlive' Hr') as Hs'.
      destruct (IH (detect s now poses)) as [H1 H2];
        [now apply (same_round_trans Pose st s) | exact Hr |].
      split; [exact H1|]. rewrite H2. destruct poses as [|pose poses]; simpl.
      * now rewrite detect_no_pose.
      * f_equal. rewrite <- Hidx, (detect_best s now pose poses Hlive'), Hidx.
        now rewrite (same_round_accuracy Pose st s pose Hs).
    + rewrite timerTick_before_deadline in *.
      * now apply IH.
      * intros d' Hd'. destruct Hs as (_ & _ & _ & _ & _ & _ & _ & Hdl & _).
        simpl in Hev. congruence.
      * intros d' Hd'. destruct Hs as (_ & _ & _ & _ & _ & _ & _ & Hdl & _).
        simpl in Hev. congruence.
Qed.

Lemma fold_max_ge (l : list Z) (a : Z) : a <= fold_left Z.max l a.
Proof.
  revert a. induction l as [|x l IH]; intros a; simpl; [lia|].
  specialize (IH (Z.max a x)). lia.
Qed.

(** X5.  A timeout pays for the best sample of the round.  On a round
    being played with its clock running, after frames and ticks before the
    deadline that leave it unresolved, the best accuracy on record is the
    largest of the one recorded before and the accuracies of the poses
    seen, and the first tick at or after the deadline marks the round
    failed and adds a tenth of that best accuracy, rounded down, to the
    score. *)
Theorem timeout_awards_best_sample st evs now date d :
  Inv st -> gameState st = GS_playing -> poseResolved st = false ->
  poseTimerInterval st = true -> poseDeadlineMs st = Some d ->
  ~ (d == 0)%Q -> (d <= now)%Q ->
  0 <= best_of st (currentChallenge st) ->
  Forall (early d) evs -> poseResolved (run st evs) = false ->
  let best :=
    fold_left Z.max (readings st evs) (best_of st (currentChallenge st)) in
  let st' := timerTick (run st evs) now date in
  best_of (run st evs) (currentChallenge st) = best /\
  outcome_of st' (currentChallenge st) = Some failed /\
  score st' = score st + best / 10.
Proof.
  intros HI Hg Hr Ht Hd Hd0 Hnow Hb Hevs Hrun best st'.
  assert (Hlive : live st) by (split; [congruence | exact Hr]).
  destruct (run_early_unresolved st d evs Hlive Hd Hevs st
              (same_round_refl Pose st) Hrun) as [Hs Hbest].
  fold best in Hbest. split; [exact Hbest|].
  destruct Hs as (_ & Hg' & Hc & _ & Hsc & _ & _ & Hdl & Hti & _).
  destruct (timerTick_resolves_round Pose toLowerCase (run st evs) now date d)
    as (Ho & Hscore & _); try congruence.
  - now apply Inv_run.
  - rewrite Hc, Hbest. unfold best.
    pose proof (fold_max_ge (readings st evs)
                  (best_of st (currentChallenge st))). lia.
  - fold st' in Ho, Hscore. rewrite Hc in *. rewrite Hbest, Hsc in Hscore.
    now split.
Qed.

(** C2.  For every round being played whose clock is running, if the
    callbacks before the deadline (frames, and ticks of the timer) leave it
    unresolved, the first tick at or after the deadline resolves it as
    failed (timed out) and awards floor(bestAccuracy / 10) points, where
    bestAccuracy is the largest of the accuracy recorded before and the
    accuracies of the poses seen during the round (nothing when it is 0,
    as for a pose never attempted); the same tick ends the game or arms the
    next round with a deadline 20 seconds later, so no round stays pending
    past a tick that follows its deadline. *)
Theorem timeout_resolves_round st evs now date d :
  Inv st -> gameState st = GS_playing -> poseResolved st = false ->
  poseTimerInterval st = true -> poseDeadlineMs st = Some d ->
  ~ (d == 0)%Q -> (d <= now)%Q ->
  0 <= best_of st (currentChallenge st) ->
  Forall (early d) evs -> poseResolved (run st evs) = false ->
  let idx := currentChallenge st in
  let bestAccuracy := fold_left Z.max (readings st evs) (best_of st idx) in
  let st' := timerTick (run st evs) now date in
  outcome_of st' idx = Some failed /\
  score st' = score st + bestAccuracy / 10 /\
  (bestAccuracy = 0 -> score st' = score st) /\
  (gameState st' = GS_finished \/
   (currentChallenge st' = S idx /\ live st' /\
    poseDeadlineMs st' = Some (now + POSE_TIME_LIMIT_MS)%Q /\
    poseTimerInterval st' = true)).
Proof.
  intros HI Hg Hr Ht Hd Hd0 Hnow Hb Hevs Hrun idx bestAccuracy st'.
  assert (Hlive : live st) by (split; [congruence | exact Hr]).
  destruct (run_early_unresolved st d evs Hlive Hd Hevs st
              (same_round_refl Pose st) Hrun) as [Hs Hbest].
  fold idx in Hbest. fold bestAccuracy in Hbest.
  destruct Hs as (_ & Hg' & Hc & Ha & Hsc & _ & _ & Hdl & Hti & _).
  assert (HI' : Inv (run st evs)) by now apply Inv_run.
  destruct HI' as (_ & _ & _ & I4).
  assert (Hge : 0 <= bestAccuracy).
  { unfold bestAccuracy.
    pose proof (fold_max_ge (readings st evs) (best_of st idx)).
    unfold idx in *. lia. }
  destruct (timerTick_times_out Pose toLowerCase (run st evs) now date d)
    as (Hf & _ & _ & _ & _ & Hscore & Hnext & Hend); try congruence.
  fold st' in Hf, Hscore, Hnext, Hend.
  rewrite Hc in Hf, Hscore, Hnext, Hend. fold idx in Hf, Hscore, Hnext, Hend.
  rewrite Hbest, Hsc in Hscore.
  assert (Hdiv : 0 <= bestAccuracy / 10) by (apply Z.div_pos; lia).
  rewrite Z.max_r in Hscore by exact Hdiv.
  split; [|split; [exact Hscore|split]].
  - apply Hf. unfold idx. rewrite <- Hc. apply I4. split; congruence.
  - intros E. rewrite Hscore, E. apply Z.add_0_r.
  - destruct (lt_dec (S idx) (List.length (activeChallenges (run st evs))))
      as [Hlt|Hnlt].
    + right. destruct (Hnext Hlt) as (Hg1 & Hc1 & Hr1 & _ & Hd1 & Ht1).
      split; [exact Hc1|]. split; [split; [congruence|exact Hr1]|].
      split; [exact Hd1 | exact Ht1].
    + left. apply (Hend Hnlt).
Qed.

(** *** The accuracy that is stored *)

Lemma sum_zero (a : array Z) (n : nat) (acc : Z) :
  (forall i, nullish (get a i) 0 = 0) ->
  fold_left (fun sum v => sum + nullish v 0) (firstn n a) acc = acc.
Proof.
  revert a acc. induction n as [|n IH]; intros a acc Hz; [reflexivity|].
  destruct a as [|h t]; [reflexivity|]. cbn [firstn fold_left].
  pose proof (Hz 0%nat) as H0. rewrite get_cons_0 in H0.
  rewrite IH; [lia|]. intros i. apply (Hz (S i)).
Qed.

(** When every entry but one is 0, the sum of the first entries is that
    entry. *)
Lemma sum_single (a : array Z) (n k : nat) (acc : Z) :
  (k < n)%nat ->
  (forall i, i <> k -> nullish (get a i) 0 = 0) ->
  fold_left (fun sum v => sum + nullish v 0) (firstn n a) acc =
  acc + nullish (get a k) 0.
Proof.
  revert a k acc. induction n as [|n IH]; intros a k acc Hk Hz; [lia|].
  destruct a as [|h t].
  - simpl. unfold get. destruct k; simpl; lia.
  - cbn [firstn fold_left]. destruct k as [|k].
    + rewrite get_cons_0, sum_zero; [reflexivity|].
      intros i. apply (Hz (S i)). discriminate.
    + pose proof (Hz 0%nat ltac:(discriminate)) as H0.
      rewrite get_cons_0 in H0. rewrite get_cons_S, (IH t k); [lia | lia |].
      intros i Hi. apply (Hz (S i)). congruence.
Qed.

(** The best accuracy on record of every round but the current one
    is 0. *)
Definition Zeroed st : Prop :=
  forall i, i <> currentChallenge st -> best_of st i = 0.

Lemma startPoseTimer_bests s now :
  poseBestAccuracy (startPoseTimer s now) =
  set (poseBestAccuracy s) (currentChallenge s) 0.
Proof. destruct s; reflexivity. Qed.

Lemma detect_other_bests st now poses i :
  i <> currentChallenge st ->
  best_of (detect st now poses) i = best_of st i.
Proof.
  intros Hi.
  destruct (GameState_eqb (gameState st) GS_finished) eqn:Hg.
  { apply GameState_eqb_eq in Hg. now rewrite detect_finished. }
  apply GameState_eqb_neq in Hg.
  destruct poses as [|pose poses]; [now rewrite detect_no_pose|].
  destruct (poseResolved st) eqn:Hr; [now rewrite detect_resolved|].
  unfold RoundSpec.best_of at 1.
  rewrite (detect_bests st now pose poses (conj Hg Hr)).
  destruct (best_of st (currentChallenge st) <? current_accuracy st pose);
    [|reflexivity].
  rewrite get_set_other by congruence. reflexivity.
Qed.

Lemma Zeroed_step st ev : Zeroed st -> Zeroed (step st ev).
Proof.
  intros HZ.
  destruct ev as [now poses|now date|now date]; simpl.
  - destruct (detect_frame st now poses) as (_ & _ & _ & Dc & _).
    intros i Hi. rewrite Dc in Hi. rewrite detect_other_bests by exact Hi.
    now apply HZ.
  - destruct (timerTick_shape st now date)
      as [-> | [-> | (_ & _ & _ & E & Hto)]].
    + exact HZ.
    + intros i Hi. replace (best_of (clearPoseTimer st) i) with (best_of st i)
        by (destruct st; reflexivity).
      apply HZ. now destruct st.
    + destruct Hto as (_ & _ & _ & _ & _ & _ & Hnext & Hend).
      destruct (resolved_keeps st) as (_ & _ & _ & _ & _ & Rb & Ra).
      destruct (advance_shape (resolved st) (currentChallenge st) now date
                  (timeout_queue st)) as [(Hlt & E') | (Hnlt & E')];
        rewrite E' in E; clear E'; rewrite Ra in *.
      * destruct (Hnext Hlt) as (_ & Hc & _). clear Hnext Hend.
        rewrite E in Hc |- *. clear E.
        pose proof (render_display (startPoseTimer (resolved st) now) _
                      (timeout_queue_next_quiet st))
          as (_ & _ & _ & Db & _).
        intros i Hi. rewrite Hc in Hi. unfold RoundSpec.best_of.
        rewrite Db, startPoseTimer_bests, Rb.
        replace (currentChallenge (resolved st)) with (currentChallenge st)
          by (destruct st; reflexivity).
        destruct (Nat.eq_dec i (currentChallenge st)) as [->|Hne].
        -- now rewrite get_set_same.
        -- rewrite get_set_other by congruence. now apply HZ.
      * destruct (Hend Hnlt) as (_ & Hc). clear Hnext Hend.
        rewrite E in Hc |- *. clear E.
        pose proof (render_display (finishGame (resolved st) date) _
                      (timeout_queue_quiet st))
          as (_ & _ & _ & Db & _).
        destruct (finishGame_keeps (resolved st) date)
          as (_ & _ & _ & _ & _ & _ & Fb & _).
        intros i Hi. rewrite Hc in Hi. unfold RoundSpec.best_of.
        rewrite Db, Fb, Rb. now apply HZ.
  - destruct (celebrationDone_shape st now date) as [-> | (_ & E)];
      [exact HZ|]. rewrite E. clear E.
    destruct (set_celebration_keeps st)
      as (_ & _ & _ & _ & _ & Ci & _ & Cb & _).
    destruct (advance_shape (set_celebration _ st false)
                (currentChallenge st) now date [])
      as [(_ & ->) | (_ & ->)].
    + pose proof (render_display
                    (startPoseTimer (set_celebration _ st false) now)
                    ([] ++ [nextChallenge])
                    (queue_next_quiet [] (Forall_nil _)))
        as (_ & _ & _ & Db & _).
      assert (Hc : currentChallenge
                     (render (startPoseTimer (set_celebration _ st false) now)
                        ([] ++ [nextChallenge])) = S (currentChallenge st))
        by (destruct st; reflexivity).
      intros i Hi. rewrite Hc in Hi. unfold RoundSpec.best_of.
      rewrite Db, startPoseTimer_bests, Cb, Ci.
      destruct (Nat.eq_dec i (currentChallenge st)) as [->|Hne].
      * now rewrite get_set_same.
      * rewrite get_set_other by congruence. now apply HZ.
    + cbn [Round.render fold_left].
      destruct (finishGame_keeps (set_celebration _ st false) date)
        as (_ & _ & _ & _ & Fi & _ & Fb & _).
      intros i Hi. rewrite Fi, Ci in Hi. unfold RoundSpec.best_of.
      rewrite Fb, Cb. now apply HZ.
Qed.

Lemma Zeroed_run st evs : Zeroed st -> Zeroed (run st evs).
Proof.
  revert st. induction evs as [|ev evs IH]; intros st H; [exact H|].
  simpl. apply IH. now apply Zeroed_step.
Qed.

Lemma Zeroed_beginPlaying name selected storage now :
  Zeroed (beginPlaying (@startGame Pose name selected storage) now).
Proof. intros [|[|[|[|i]]]] _; reflexivity. Qed.

(** X6.  The accuracy a game stores counts its last round only.  In every
    state of a game the best accuracy on record of every round other than
    the current one is 0: [startPoseTimer] clears the entry of
    [currentChallengeRef], which still holds the index of the round that
    has just ended when the next round is armed.  So the accuracy
    [finishGame] computes is the best accuracy of the round the game is in
    divided by the number of rounds, rounded. *)
Theorem stored_accuracy_counts_last_round_only name selected storage t0 evs :
  let st := run (beginPlaying (@startGame Pose name selected storage) t0) evs in
  (forall i, i <> currentChallenge st -> best_of st i = 0) /\
  finalAccuracy st =
    Math_round_div (best_of st (currentChallenge st)) (rounds st).
Proof.
  intros st.
  set (st0 := beginPlaying (@startGame Pose name selected storage) t0) in *.
  assert (HZ : Zeroed st) by apply Zeroed_run, Zeroed_beginPlaying.
  destruct (Prog_run st0 evs (Latched_beginPlaying _ _ _ _)
              (Inv_beginPlaying _ _ _ _ _) (Prog_beginPlaying _ _ _ _))
    as [(_ & _ & P3 & _) _].
  fold st in P3. split; [exact HZ|].
  unfold finalAccuracy. f_equal.
  rewrite (sum_single _ _ (currentChallenge st)); [reflexivity | | exact HZ].
  unfold rounds.
  destruct (Z.eqb_spec (Z.of_nat (List.length (activeChallenges st))) 0); lia.
Qed.

End GameFacts.

(** *** The clock of a round *)

(** X7.  The seconds shown on the round's clock, as a function of the
    number [remainingMs] the tick has computed.  The display reads 0
    exactly when the tick takes the timeout branch ([remainingMs <= 0]);
    before that it shows [remainingMs] rounded up to whole seconds, and
    never more than 20 while [remainingMs] is at most 20000. *)
Theorem remainingSec_matches_timeout (remainingMs : Q) :
  (remainingSec remainingMs = 0 <-> Qle_bool remainingMs 0 = true) /\
  0 <= remainingSec remainingMs /\
  ((0 < remainingMs)%Q ->
   (inject_Z (remainingSec remainingMs) - 1 < remainingMs / 1000
    <= inject_Z (remainingSec remainingMs))%Q) /\
  ((remainingMs <= POSE_TIME_LIMIT_MS)%Q ->
   remainingSec remainingMs <= 20).
Proof.
  unfold remainingSec. set (r := remainingMs).
  pose proof (Qle_ceiling (r / 1000)) as Hle.
  pose proof (Qceiling_lt (r / 1000)) as Hlt.
  assert (Hdiv : forall q : Q, (r <= q * 1000)%Q <-> (r / 1000 <= q)%Q).
  { intros q. split; intros H.
    - apply Qle_shift_div_r; [reflexivity | exact H].
    - apply (Qmult_le_r _ _ 1000) in H; [|reflexivity].
      assert (E : (r / 1000 * 1000 == r)%Q) by field. now rewrite E in H. }
  split; [|split; [lia|split]].
  - rewrite Qle_bool_iff. split; intros H.
    + assert (Hc : Qceiling (r / 1000) <= 0) by lia.
      rewrite Zle_Qle in Hc. change (inject_Z 0) with 0%Q in Hc.
      assert (Hz : (r / 1000 <= 0)%Q) by lra.
      apply (proj2 (Hdiv 0%Q)) in Hz. lra.
    + assert (Hr : (r / 1000 <= 0)%Q) by (apply Hdiv; lra).
      apply Qceiling_resp_le in Hr. change (Qceiling 0) with 0 in Hr. lia.
  - intros Hpos.
    assert (Hr : (0 < r / 1000)%Q).
    { apply Qlt_shift_div_l; [reflexivity | lra]. }
    assert (Hc : 0 < Qceiling (r / 1000)).
    { rewrite Zlt_Qlt. change (inject_Z 0) with 0%Q. lra. }
    rewrite Z.max_r by lia. split; [|exact Hle].
    unfold Z.sub in Hlt. rewrite inject_Z_plus in Hlt.
    change (inject_Z (- (1))) with (-1)%Q in Hlt. lra.
  - intros Hmax. unfold POSE_TIME_LIMIT_MS, POSE_TIME_LIMIT_SECONDS in Hmax.
    assert (Hr : (r / 1000 <= 20)%Q) by (apply Hdiv; lra).
    apply Qceiling_resp_le in Hr. change (Qceiling 20) with 20 in Hr. lia.
Qed.

(** *** Sample games *)

(** Validators that clamp the reading of a pose to a percentage. *)
Definition percent : list (Z -> Z) :=
  [fun p => Z.max 0 (Z.min 100 p); fun p => Z.max 0 (Z.min 100 p);
   fun p => Z.max 0 (Z.min 100 p)].

Lemma percent_bounded c : In c percent -> forall p, 0 <= c p <= 100.
Proof. intros [<-|[<-|[<-|[]]]] p; lia. Qed.

Lemma game_score_bounds_witness :
  let st :=
    Round.run Leaderboard.toLowerCase_ascii
      (beginPlaying (startGame "Ana" percent Leaderboard.NoItem) 0)
      [Frame 0 [95]; Frame 2500 [120]; CelebrationDone 3500 0;
       Frame 4000 [65]; TimerTick 25000 0] in
  8 * Z.of_nat (passedCount st) <= score st /\
  score st <= 10 * Z.of_nat (passedCount st + failedCount st) /\
  (passedCount st + failedCount st <= 3)%nat /\
  0 <= score st <= 30.
Proof.
  exact (game_score_bounds Z Leaderboard.toLowerCase_ascii "Ana" percent
           Leaderboard.NoItem 0
           [Frame 0 [95]; Frame 2500 [120]; CelebrationDone 3500 0;
            Frame 4000 [65]; TimerTick 25000 0] percent_bounded).
Defined.

Lemma unattended_game_ends_witness :
  let st :=
    Round.run Leaderboard.toLowerCase_ascii
      (beginPlaying (startGame "Ana" reading Leaderboard.NoItem) 0)
      ([Frame 100 []; TimerTick 200 0] ++ TimerTick 20000 1
         :: [] ++ TimerTick 40100 2
         :: [Frame 50000 []; TimerTick 60000 2] ++ [TimerTick 60200 3]) in
  gameState st = GS_finished /\
  poseResults st = [Some failed; Some failed; Some failed] /\
  score st = 0 /\
  localStorage st =
    Leaderboard.after Leaderboard.NoItem
      (Leaderboard.finishGame Leaderboard.toLowerCase_ascii
         Leaderboard.NoItem "Ana" 0 0 3).
Proof.
  refine (unattended_game_ends Z Leaderboard.toLowerCase_ascii "Ana" reading
            Leaderboard.NoItem 0 [Frame 100 []; TimerTick 200 0] 20000 1
            [] 40100 2 [Frame 50000 []; TimerTick 60000 2] 60200 3
            _ _ _ _ _ _ _ _).
  - simpl. lia.
  - vm_compute. discriminate.
  - vm_compute. discriminate.
  - vm_compute. discriminate.
  - vm_compute. discriminate.
  - repeat constructor.
  - constructor.
  - repeat constructor.
Defined.

Lemma timeout_awards_best_sample_witness :
  let evs : list (Event Z) :=
    [Frame 0 [60]; TimerTick 200 0; Frame 9000 [75]; Frame 15000 [40]] in
  RoundSpec.best_of Z (Round.run Leaderboard.toLowerCase_ascii armed evs) 0 = 75 /\
  RoundSpec.outcome_of Z
    (Round.timerTick Leaderboard.toLowerCase_ascii
       (Round.run Leaderboard.toLowerCase_ascii armed evs) 20000 0) 0
    = Some failed /\
  score
    (Round.timerTick Leaderboard.toLowerCase_ascii
       (Round.run Leaderboard.toLowerCase_ascii armed evs) 20000 0)
    = 0 + 75 / 10.
Proof.
  refine (timeout_awards_best_sample Z Leaderboard.toLowerCase_ascii armed
            [Frame 0 [60]; TimerTick 200 0; Frame 9000 [75]; Frame 15000 [40]]
            20000 0 (0 + POSE_TIME_LIMIT_MS)%Q _ _ _ _ _ _ _ _ _ _).
  - apply Inv_beginPlaying.
  - reflexivity.
  - reflexivity.
  - reflexivity.
  - reflexivity.
  - intros H. vm_compute in H. discriminate.
  - vm_compute. discriminate.
  - vm_compute. discriminate.
  - repeat constructor.
  - vm_compute. reflexivity.
Defined.

Lemma timeout_resolves_round_witness :
  let evs : list (Event Z) :=
    [Frame 0 [60]; TimerTick 200 0; Frame 9000 [75]; Frame 15000 [40]] in
  let st' :=
    Round.timerTick Leaderboard.toLowerCase_ascii
      (Round.run Leaderboard.toLowerCase_ascii armed evs) 20000 0 in
  RoundSpec.outcome_of Z st' 0 = Some failed /\
  score st' = 0 + 75 / 10 /\
  currentChallenge st' = 1%nat /\
  poseDeadlineMs st' = Some (20000 + POSE_TIME_LIMIT_MS)%Q.
Proof.
  destruct (timeout_resolves_round Z Leaderboard.toLowerCase_ascii armed
              [Frame 0 [60]; TimerTick 200 0; Frame 9000 [75]; Frame 15000 [40]]
              20000 0 (0 + POSE_TIME_LIMIT_MS)%Q)
    as (H1 & H2 & _ & [H4|(H4 & _ & H5 & _)]).
  - apply Inv_beginPlaying.
  - reflexivity.
  - reflexivity.
  - reflexivity.
  - reflexivity.
  - intros H. vm_compute in H. discriminate.
  - vm_compute. discriminate.
  - vm_compute. discriminate.
  - repeat constructor.
  - vm_compute. reflexivity.
  - vm_compute in H4. discriminate H4.
  - cbv zeta. split; [exact H1|]. split; [exact H2|].
    split; [exact H4 | exact H5].
Defined.

(** A game of three rounds: 95 held (9 points), then a round that times
    out on 55 (5 points) and one that times out on 40 (4 points).  The
    score on the finish screen is 18; the entry stored has the 14 points
    of the first two rounds and the accuracy 13, a third of the 40 of the
    last round. *)
Example timeout_on_last_round_is_not_stored :
  let st :=
    Round.run Leaderboard.toLowerCase_ascii armed
      [Frame 0 [95]; Frame 2500 [95]; CelebrationDone 3500 0;
       Frame 4000 [55]; TimerTick 23500 0;
       Frame 24000 [40]; TimerTick 43500 7] in
  gameState st = GS_finished /\
  poseResults st = [Some passed; Some failed; Some failed] /\
  score st = 18 /\
  localStorage st =
    Leaderboard.ArrayOf
      [Leaderboard.Valid (Leaderboard.mkEntry "Ana" 14 13 7 (Some 1))].
Proof. repeat split; vm_compute; reflexivity. Qed.

(** Three rounds passed on 95, 85 and 90: 26 points, and the accuracy
    stored is 30, a third of the 90 of the last round. *)
Example three_passes_store_a_third :
  let st :=
    Round.run Leaderboard.toLowerCase_ascii armed
      [Frame 0 [95]; Frame 2500 [95]; CelebrationDone 3500 0;
       Frame 4000 [85]; Frame 6500 [85]; CelebrationDone 7500 0;
       Frame 8000 [90]; Frame 10500 [90]; CelebrationDone 11500 7] in
  gameState st = GS_finished /\
  score st = 26 /\
  localStorage st =
    Leaderboard.ArrayOf
      [Leaderboard.Valid (Leaderboard.mkEntry "Ana" 26 30 7 (Some 1))].
Proof. repeat split; vm_compute; reflexivity. Qed.

End GameSpec.

(** ** The board over many games *)

Module BoardSpec.

Import Exn Leaderboard LeaderboardSpec.
Open Scope string_scope.
Open Scope list_scope.
Open Scope Z_scope.

(** The points on a board. *)
Definition total (es : list LeaderboardEntry) : Z :=
  fold_right (fun e acc => score e + acc) 0 es.

Lemma total_app es1 es2 : total (es1 ++ es2) = total es1 + total es2.
Proof. induction es1 as [|e es1 IH]; simpl; [reflexivity | rewrite IH; lia]. Qed.

Lemma total_perm es es' : Permutation es es' -> total es = total es'.
Proof. induction 1; simpl; lia. Qed.

Section BoardFacts.

Variable toLowerCase : string -> string.

Abbreviation key := (LeaderboardSpec.key toLowerCase).
Abbreviation entries_of := (Leaderboard.entries_of toLowerCase).
Abbreviation finishGame := (Leaderboard.finishGame toLowerCase).
Abbreviation findIndex := (Leaderboard.findIndex toLowerCase).
Abbreviation unique_names := (LeaderboardSpec.unique_names toLowerCase).

(** The entry [findIndex] points at is the first entry of the player. *)
Lemma findIndex_first l who i :
  all_valid l -> findIndex l who = Return (Some i) ->
  exists l1 e l2,
    l = l1 ++ Valid e :: l2 /\ List.length l1 = i /\
    key e = toLowerCase who /\
    entries_of who l1 = [].
Proof.
  intros Hv. revert i. induction Hv as [|[|e] l Hit Hl IH]; simpl; intros i.
  - discriminate.
  - now elim Hit.
  - destruct (same_player toLowerCase (name e) who) eqn:Hs.
    + intros [= <-]. exists [], e, l. repeat split.
      now apply same_player_iff.
    + destruct (findIndex l who) as [[j|]|err] eqn:Hf;
        cbv [fmap bind option_map]; try discriminate.
      intros [= <-]. destruct (IH j eq_refl) as (l1 & e' & l2 & -> & Hlen & Hk & He).
      exists (Valid e :: l1), e', l2. repeat split; auto.
      * simpl. now rewrite Hlen.
      * unfold Leaderboard.entries_of in *. simpl. now rewrite Hs.
Qed.

Lemma update_at_middle l1 e l2 f :
  update_at (l1 ++ Valid e :: l2) (List.length l1) f = l1 ++ Valid (f e) :: l2.
Proof.
  induction l1 as [|it l1 IH]; simpl; [reflexivity|].
  rewrite IH. now destruct it.
Qed.

Lemma entries_of_app who l1 l2 :
  entries_of who (l1 ++ l2) = entries_of who l1 ++ entries_of who l2.
Proof.
  unfold Leaderboard.entries_of. now rewrite valid_entries_app, filter_app.
Qed.

(** What [merge_player] returns on a board of entries: the first entry of
    the player accumulated in place, or a new entry at the end. *)
Lemma merge_player_shape l who s a t :
  all_valid l ->
  (exists l1 e l2,
     l = l1 ++ Valid e :: l2 /\ key e = toLowerCase who /\
     entries_of who l1 = [] /\
     merge_player toLowerCase l who s a t =
       Return (l1 ++ Valid (accumulate e s a t) :: l2)) \/
  (entries_of who l = [] /\
   merge_player toLowerCase l who s a t =
     Return (l ++ [Valid (new_entry who s a t)])).
Proof.
  intros Hv. unfold merge_player.
  destruct (findIndex_returns toLowerCase l who Hv) as [[i|] Hf]; rewrite Hf;
    cbv [bind].
  - left. destruct (findIndex_first l who i Hv Hf)
      as (l1 & e & l2 & -> & <- & Hk & He).
    exists l1, e, l2. repeat split; auto. now rewrite update_at_middle.
  - right. apply findIndex_None in Hf as [_ Hn]. split; [|reflexivity].
    now apply entries_of_nil.
Qed.

Lemma entries_of_cons_same who e l :
  key e = toLowerCase who ->
  entries_of who (Valid e :: l) = e :: entries_of who l.
Proof.
  intros Hk. unfold Leaderboard.entries_of. simpl.
  now rewrite (proj2 (same_player_iff toLowerCase (name e) who) Hk).
Qed.

Lemma entries_of_cons_other who e l :
  key e <> toLowerCase who ->
  entries_of who (Valid e :: l) = entries_of who l.
Proof.
  intros Hk. unfold Leaderboard.entries_of. simpl.
  destruct (same_player toLowerCase (name e) who) eqn:Hs; [|reflexivity].
  apply same_player_iff in Hs. contradiction.
Qed.

Lemma entries_of_ordered who m :
  Permutation (entries_of who (map Valid (ordered m))) (entries_of who m).
Proof. symmetry. apply ordered_entries_of. Qed.

Lemma finishGame_shape l who s a t m :
  merge_player toLowerCase l who s a t = Return m ->
  finishGame (ArrayOf l) who s a t = Return (ArrayOf (map Valid (bounded m))).
Proof.
  intros H. unfold Leaderboard.finishGame. rewrite read_guarded_items.
  cbn [items_of]. now rewrite H.
Qed.

(** X8.  The merge adds to the first entry of the player and to no other.
    On a board of entries with at most 200 of them on which the player has
    entries already (several when the stored array holds duplicates), the
    merge completes, the first of them gets the session added to its score
    and attempts, and the player's other entries are stored again as they
    were: the merge never joins entries. *)
Theorem merge_updates_first_entry_only l who s a t e0 others :
  all_valid l -> (List.length l <= MAX_ENTRIES)%nat ->
  entries_of who l = e0 :: others ->
  exists l',
    finishGame (ArrayOf l) who s a t = Return (ArrayOf l') /\
    Permutation (entries_of who l') (accumulate e0 s a t :: others).
Proof.
  intros Hv Hlen He.
  destruct (merge_player_shape l who s a t Hv)
    as [(l1 & e & l2 & -> & Hk & H1 & Hm)|(Hnil & _)]; [|congruence].
  rewrite entries_of_app, H1, (entries_of_cons_same who e l2 Hk) in He.
  injection He as <- <-.
  eexists. split; [apply (finishGame_shape _ _ _ _ _ _ Hm)|].
  rewrite bounded_fits.
  - rewrite entries_of_ordered, entries_of_app, H1.
    now rewrite entries_of_cons_same.
  - rewrite length_app in *. simpl in *. lia.
Qed.

(** X9.  A merge leaves the other players alone.  On a board of entries,
    every entry stored after the merge under another case-insensitive name
    was stored before; and when the board has room (at most 200 entries,
    fewer than 200 when the player is new) the entries of every other
    player are exactly those stored before. *)
Theorem merge_leaves_other_players l who s a t :
  all_valid l ->
  exists l',
    finishGame (ArrayOf l) who s a t = Return (ArrayOf l') /\
    (forall other e,
       toLowerCase other <> toLowerCase who ->
       In e (entries_of other l') -> In e (entries_of other l)) /\
    ((List.length l <= MAX_ENTRIES)%nat ->
     (entries_of who l = [] -> (List.length l < MAX_ENTRIES)%nat) ->
     forall other,
       toLowerCase other <> toLowerCase who ->
       Permutation (entries_of other l') (entries_of other l)).
Proof.
  intros Hv.
  assert (Hsame : exists m,
            merge_player toLowerCase l who s a t = Return m /\
            (List.length m = List.length l \/
             (entries_of who l = [] /\ List.length m = S (List.length l))) /\
            forall other, toLowerCase other <> toLowerCase who ->
              entries_of other m = entries_of other l).
  { destruct (merge_player_shape l who s a t Hv)
      as [(l1 & e & l2 & -> & Hk & H1 & Hm)|(Hnil & Hm)];
      (eexists; split; [exact Hm|]); split.
    - left. rewrite !length_app. reflexivity.
    - intros other Hne. rewrite !entries_of_app. f_equal.
      rewrite !entries_of_cons_other; try reflexivity.
      + unfold LeaderboardSpec.key in *. congruence.
      + unfold LeaderboardSpec.key, accumulate in *. simpl. congruence.
    - right. split; [exact Hnil|]. rewrite length_app. simpl. lia.
    - intros other Hne. rewrite entries_of_app.
      rewrite entries_of_cons_other; [apply app_nil_r|].
      unfold LeaderboardSpec.key, new_entry. simpl. congruence. }
  destruct Hsame as (m & Hm & Hlen & Hoth).
  eexists. split; [apply (finishGame_shape _ _ _ _ _ _ Hm)|]. split.
  - intros other e Hne Hin. rewrite <- (Hoth other Hne).
    apply entries_of_In in Hin as [Hin Hk]. apply entries_of_In.
    split; [|exact Hk]. rewrite valid_entries_map_Valid in Hin.
    now apply bounded_In.
  - intros Hmax Hroom other Hne. rewrite bounded_fits.
    + now rewrite entries_of_ordered, Hoth.
    + destruct Hlen as [->|[Hnil ->]]; [exact Hmax | now apply Hroom].
Qed.

(** X10.  No point is lost or made up.  On a board of entries with room
    for the merge, the scores stored after it add up to the scores stored
    before it plus the score of the session. *)
Theorem merge_conserves_points l who s a t :
  all_valid l -> (List.length l <= MAX_ENTRIES)%nat ->
  (entries_of who l = [] -> (List.length l < MAX_ENTRIES)%nat) ->
  exists l',
    finishGame (ArrayOf l) who s a t = Return (ArrayOf l') /\
    total (valid_entries l') = total (valid_entries l) + s.
Proof.
  intros Hv Hmax Hroom.
  destruct (merge_player_shape l who s a t Hv)
    as [(l1 & e & l2 & -> & Hk & H1 & Hm)|(Hnil & Hm)];
    (eexists; split; [apply (finishGame_shape _ _ _ _ _ _ Hm)|]);
    rewrite valid_entries_map_Valid, bounded_fits.
  - rewrite <- (total_perm _ _ (ordered_perm _)).
    rewrite !valid_entries_app, !total_app. simpl. lia.
  - rewrite !length_app in *. simpl in *. lia.
  - rewrite <- (total_perm _ _ (ordered_perm _)).
    rewrite valid_entries_app, total_app. simpl. lia.
  - rewrite length_app. simpl. specialize (Hroom Hnil). lia.
Qed.

(** *** Any number of games *)

(** The sessions merged one after the other; an exception ends the
    sequence. *)
Definition play (stored : Stored) (sessions : list SessionSummary)
  : outcome Stored :=
  fold_left (fun acc ss => bind acc (fun st => merge toLowerCase st ss))
            sessions (Return stored).

Definition sound (stored : Stored) : Prop :=
  all_valid (items_of stored) /\ unique_names (items_of stored).

Definition tidy (stored : Stored) : Prop :=
  (List.length (items_of stored) <= MAX_ENTRIES)%nat /\
  StronglySorted score_descending (valid_entries (items_of stored)).

Lemma merge_sound stored ss :
  sound stored ->
  exists stored',
    merge toLowerCase stored ss = Return stored' /\ sound stored' /\
    tidy stored'.
Proof.
  intros [Hv Hu]. unfold merge.
  pose proof (finishGame_keeps_unique toLowerCase stored (playerName ss)
                (totalScore ss) (meanBestAccuracy ss) (completedAt ss) Hu) as Hu'.
  destruct (finishGame_completes toLowerCase stored (playerName ss)
              (totalScore ss) (meanBestAccuracy ss) (completedAt ss) Hv)
    as [l' Hl'].
  rewrite Hl' in *. cbv [after catch] in Hu'. cbn [items_of] in Hu'.
  exists (ArrayOf l'). split; [reflexivity|].
  unfold Leaderboard.finishGame in Hl'.
  destruct (merge_player toLowerCase (read_guarded stored) (playerName ss)
              (totalScore ss) (meanBestAccuracy ss) (completedAt ss))
    as [m|err]; cbv [bind] in Hl'; [|discriminate].
  injection Hl' as <-. unfold sound, tidy. cbn [items_of].
  rewrite valid_entries_map_Valid, length_map.
  repeat split.
  - apply all_valid_map_Valid.
  - exact Hu'.
  - apply bounded_length.
  - apply StronglySorted_firstn, ordered_sorted.
Qed.

Lemma play_sound sessions :
  forall stored, sound stored ->
    exists stored',
      play stored sessions = Return stored' /\ sound stored' /\
      (tidy stored \/ sessions <> [] -> tidy stored').
Proof.
  induction sessions as [|ss rest IH]; intros stored Hs.
  - exists stored. split; [reflexivity|]. split; [exact Hs|].
    intros [H|H]; [exact H | contradiction].
  - destruct (merge_sound stored ss Hs) as (s1 & Hm & Hs1 & Ht1).
    destruct (IH s1 Hs1) as (stored' & Hp & Hs' & Ht').
    exists stored'. split; [|split; [exact Hs'|]].
    + unfold play in *. simpl. now rewrite Hm.
    + intros _. apply Ht'. now left.
Qed.

(** X11.  Any number of games keep the board sound.  Starting from a
    stored value that is absent, unreadable, or an array of entries with
    one entry per case-insensitive name, every merge of a sequence of
    finished games completes (no exception escapes), and the board stored
    at the end holds entries only, one per case-insensitive name; after at
    least one game it is sorted by descending score and has at most 200
    entries. *)
Theorem any_number_of_games stored sessions :
  all_valid (items_of stored) -> unique_names (items_of stored) ->
  exists stored',
    play stored sessions = Return stored' /\
    all_valid (items_of stored') /\ unique_names (items_of stored') /\
    (sessions <> [] ->
     (List.length (items_of stored') <= MAX_ENTRIES)%nat /\
     StronglySorted score_descending (valid_entries (items_of stored'))).
Proof.
  intros Hv Hu.
  destruct (play_sound sessions stored (conj Hv Hu))
    as (stored' & Hp & [Hv' Hu'] & Ht).
  exists stored'. split; [exact Hp|]. split; [exact Hv'|].
  split; [exact Hu'|]. intros H. apply Ht. now right.
Qed.

End BoardFacts.

(** *** Sample boards *)

(** Ana stored twice, under two spellings of her name. *)
Definition Ana_twice : list Item :=
  [Valid Ana_10; Valid (mkEntry "ana" 15 90 2000 None)].

Lemma all_valid_Ana_twice : all_valid Ana_twice.
Proof. repeat constructor; discriminate. Qed.

Lemma merge_updates_first_entry_only_witness :
  exists l',
    Leaderboard.finishGame toLowerCase_ascii (ArrayOf Ana_twice) "ANA" 5 70 3000
      = Return (ArrayOf l') /\
    Permutation (Leaderboard.entries_of toLowerCase_ascii "ANA" l')
      [accumulate Ana_10 5 70 3000; mkEntry "ana" 15 90 2000 None].
Proof.
  refine (merge_updates_first_entry_only toLowerCase_ascii Ana_twice "ANA"
            5 70 3000 Ana_10 [mkEntry "ana" 15 90 2000 None]
            all_valid_Ana_twice _ _).
  - unfold MAX_ENTRIES. simpl. lia.
  - reflexivity.
Defined.

Lemma merge_leaves_other_players_witness :
  exists l',
    Leaderboard.finishGame toLowerCase_ascii (ArrayOf Ana_twice) "Bob" 7 70 3000
      = Return (ArrayOf l') /\
    (forall other e,
       toLowerCase_ascii other <> toLowerCase_ascii "Bob" ->
       In e (Leaderboard.entries_of toLowerCase_ascii other l') ->
       In e (Leaderboard.entries_of toLowerCase_ascii other Ana_twice)) /\
    ((List.length Ana_twice <= MAX_ENTRIES)%nat ->
     (Leaderboard.entries_of toLowerCase_ascii "Bob" Ana_twice = [] ->
      (List.length Ana_twice < MAX_ENTRIES)%nat) ->
     forall other,
       toLowerCase_ascii other <> toLowerCase_ascii "Bob" ->
       Permutation (Leaderboard.entries_of toLowerCase_ascii other l')
         (Leaderboard.entries_of toLowerCase_ascii other Ana_twice)).
Proof.
  exact (merge_leaves_other_players toLowerCase_ascii Ana_twice "Bob"
           7 70 3000 all_valid_Ana_twice).
Defined.

Lemma merge_conserves_points_witness :
  exists l',
    Leaderboard.finishGame toLowerCase_ascii (ArrayOf Ana_twice) "Bob" 7 70 3000
      = Return (ArrayOf l') /\
    total (valid_entries l') = total (valid_entries Ana_twice) + 7.
Proof.
  refine (merge_conserves_points toLowerCase_ascii Ana_twice "Bob" 7 70 3000
            all_valid_Ana_twice _ _).
  - unfold MAX_ENTRIES. simpl. lia.
  - intros _. unfold MAX_ENTRIES. simpl. lia.
Defined.

Lemma any_number_of_games_witness :
  exists stored',
    play toLowerCase_ascii BadText
      [mkSession "Ana" 15 90 1000; mkSession "Bob" 20 85 2000;
       mkSession "ANA" 7 70 3000] = Return stored' /\
    all_valid (items_of stored') /\
    LeaderboardSpec.unique_names toLowerCase_ascii (items_of stored') /\
    ([mkSession "Ana" 15 90 1000; mkSession "Bob" 20 85 2000;
      mkSession "ANA" 7 70 3000] <> [] ->
     (List.length (items_of stored') <= MAX_ENTRIES)%nat /\
     StronglySorted score_descending (valid_entries (items_of stored'))).
Proof.
  refine (any_number_of_games toLowerCase_ascii BadText
            [mkSession "Ana" 15 90 1000; mkSession "Bob" 20 85 2000;
             mkSession "ANA" 7 70 3000] _ _).
  - constructor.
  - constructor.
Defined.

End BoardSpec.

(** ** The leaderboard page *)

Module LeaderboardPageSpec.

Import Exn Leaderboard LeaderboardSpec LeaderboardPage.
Open Scope string_scope.
Open Scope list_scope.
Open Scope Z_scope.

(** *** Sorting and filtering commute *)

Section SortFilter.

Context {A : Type} (cmp : A -> A -> Z) (p : A -> bool).

Hypothesis cmp_total : forall a b, 0 < cmp a b -> cmp b a <= 0.
Hypothesis cmp_trans :
  forall a b c, cmp a b <= 0 -> cmp b c <= 0 -> cmp a c <= 0.

Lemma insert_head a l :
  (forall b, In b l -> cmp a b <= 0) -> insert cmp a l = a :: l.
Proof.
  destruct l as [|b l]; intros H; [reflexivity|]. simpl.
  destruct (Z.leb_spec (cmp a b) 0) as [_|Hgt]; [reflexivity|].
  specialize (H b (or_introl eq_refl)). lia.
Qed.

Lemma filter_insert_kept a l :
  StronglySorted (before cmp) l -> p a = true ->
  filter p (insert cmp a l) = insert cmp a (filter p l).
Proof.
  intros Hs Ha. induction Hs as [|b l Hs IH Hb]; simpl.
  - now rewrite Ha.
  - destruct (Z.leb_spec (cmp a b) 0) as [Hle|Hgt].
    + simpl. rewrite Ha. symmetry. apply insert_head.
      intros c Hc. destruct (p b) eqn:Hpb.
      * destruct Hc as [<-|Hc]; [exact Hle|].
        apply filter_In in Hc as [Hc _]. rewrite Forall_forall in Hb.
        apply (cmp_trans a b c Hle). now apply Hb.
      * apply filter_In in Hc as [Hc _]. rewrite Forall_forall in Hb.
        apply (cmp_trans a b c Hle). now apply Hb.
    + simpl. rewrite IH. destruct (p b); [|reflexivity]. simpl.
      destruct (Z.leb_spec (cmp a b) 0); [lia | reflexivity].
Qed.

Lemma filter_insert_dropped a l :
  p a = false -> filter p (insert cmp a l) = filter p l.
Proof.
  intros Ha. induction l as [|b l IH]; simpl.
  - now rewrite Ha.
  - destruct (cmp a b <=? 0); simpl.
    + now rewrite Ha.
    + now rewrite IH.
Qed.

Lemma filter_sort l : filter p (sort cmp l) = sort cmp (filter p l).
Proof.
  induction l as [|a l IH]; [reflexivity|].
  cbn [filter]. change (sort cmp (a :: l)) with (insert cmp a (sort cmp l)).
  destruct (p a) eqn:Ha.
  - rewrite filter_insert_kept; [|now apply sort_sorted | exact Ha].
    now rewrite IH.
  - rewrite filter_insert_dropped by exact Ha. exact IH.
Qed.

End SortFilter.

(** *** Ranks *)

Lemma withRanks_fst l : map fst (withRanks l) = l.
Proof.
  unfold withRanks. generalize 1%nat. induction l as [|e l IH]; intros n;
    [reflexivity|]. simpl. now rewrite IH.
Qed.

Lemma withRanks_snd l : map snd (withRanks l) = seq 1 (List.length l).
Proof.
  unfold withRanks. generalize 1%nat. induction l as [|e l IH]; intros n;
    [reflexivity|]. simpl. now rewrite IH.
Qed.

Lemma withRanks_length l : List.length (withRanks l) = List.length l.
Proof. rewrite <- (length_map fst). now rewrite withRanks_fst. Qed.

Section PageFacts.

Variable toDateString : Z -> string.

Abbreviation keep := (LeaderboardPage.keep toDateString).
Abbreviation filtered := (LeaderboardPage.filtered toDateString).
Abbreviation show := (LeaderboardPage.show toDateString).

Lemma filtered_filter f now l : filtered f now l = filter (keep f now) l.
Proof.
  destruct f; try reflexivity. simpl. induction l as [|e l IH];
    [reflexivity|]. simpl. now rewrite <- IH.
Qed.

(** X13.  The ranking of the page.  For every array of entries, filter and
    date, the entries shown are exactly the stored entries that pass the
    filter, each as often as it is stored; they are ordered by descending
    score, and by most recent timestamp among equal scores; and they carry
    the ranks 1, 2, ... in that order. *)
Theorem page_ranks_filtered_entries f now l :
  let shown := entries (show f now l) in
  Permutation (map fst shown) (filter (keep f now) l) /\
  StronglySorted score_descending_recent_first (map fst shown) /\
  map rank shown = seq 1 (List.length shown).
Proof.
  cbv zeta. unfold LeaderboardPage.show. cbn [entries].
  rewrite withRanks_fst, withRanks_length, filtered_filter.
  split; [|split].
  - symmetry. apply sort_perm.
  - apply ranked_sorted.
  - apply withRanks_snd.
Qed.

(** X14.  The filters never reorder the board.  The list shown under a
    date filter is the all-time list with the entries outside the period
    left out: two entries shown under both stand in the same order. *)
Theorem page_filters_keep_order f now l :
  map fst (entries (show f now l)) =
  filter (keep f now) (map fst (entries (show alltime now l))).
Proof.
  unfold LeaderboardPage.show. cbn [entries].
  rewrite !withRanks_fst, filtered_filter. unfold ranked. cbn [LeaderboardPage.filtered].
  symmetry. apply filter_sort.
  - exact by_score_then_recent_total.
  - exact by_score_then_recent_trans.
Qed.

(** *** Statistics *)

Lemma fold_max_le (l : list Z) (a : Z) :
  a <= fold_left Z.max l a /\ forall x, In x l -> x <= fold_left Z.max l a.
Proof.
  revert a. induction l as [|y l IH]; intros a; simpl.
  - split; [lia | intros x []].
  - destruct (IH (Z.max a y)) as [H1 H2]. split; [lia|].
    intros x [<-|Hx]; [lia | now apply H2].
Qed.

Lemma fold_max_In (l : list Z) (a : Z) :
  fold_left Z.max l a = a \/ In (fold_left Z.max l a) l.
Proof.
  revert a. induction l as [|y l IH]; intros a; simpl; [now left|].
  destruct (IH (Z.max a y)) as [H|H]; [|now right; right].
  rewrite H. destruct (Z.max_spec a y) as [[_ ->]|[_ ->]]; [right|]; auto.
Qed.

Lemma maxScore_upper l e : In e l -> score e <= maxScore l.
Proof.
  unfold maxScore. intros Hin. apply (in_map score) in Hin.
  destruct (map score l) as [|s rest]; [contradiction|].
  destruct (fold_max_le rest s) as [H1 H2].
  destruct Hin as [<-|Hin]; [exact H1 | now apply H2].
Qed.

Lemma maxScore_attained l : l <> [] -> exists e, In e l /\ score e = maxScore l.
Proof.
  unfold maxScore. intros Hne.
  assert (Hin : forall s, In s (map score l) -> exists e, In e l /\ score e = s).
  { intros s Hs. apply in_map_iff in Hs as (e & He & Hin). now exists e. }
  destruct (map score l) as [|s rest] eqn:E.
  - destruct l; [contradiction | discriminate].
  - destruct (fold_max_In rest s) as [->|H]; apply Hin; [now left | now right].
Qed.

(** X15.  The statistics of the page are those of the whole stored array,
    whatever the filter: the games are its entries, the players are the
    distinct names as they are spelt (never more than the games), and the
    high score is 0 on an empty board and otherwise the score of an entry
    that no entry exceeds; under the all-time filter it is the score of the
    entry ranked first. *)
Theorem page_statistics f now l :
  let s := stats (show f now l) in
  gamesPlayed s = List.length l /\
  (totalPlayers s <= gamesPlayed s)%nat /\
  (forall e, In e l -> score e <= highScore s) /\
  (l = [] -> highScore s = 0) /\
  (l <> [] -> exists e, In e l /\ score e = highScore s) /\
  (forall first others,
     entries (show alltime now l) = first :: others ->
     score (fst first) = highScore s).
Proof.
  cbv zeta. unfold LeaderboardPage.show. cbn [stats gamesPlayed totalPlayers highScore entries].
  split; [reflexivity|]. split; [|split; [|split; [|split]]].
  - unfold uniquePlayers. rewrite <- (length_map name l).
    apply NoDup_incl_length; [apply NoDup_nodup|].
    intros x Hx. now apply nodup_In in Hx.
  - intros e. apply maxScore_upper.
  - now intros ->.
  - apply maxScore_attained.
  - intros first others E.
    assert (Hf : map fst (withRanks (ranked (filtered alltime now l))) =
                 fst first :: map fst others) by now rewrite E.
    rewrite withRanks_fst in Hf. cbn [LeaderboardPage.filtered] in Hf.
    pose proof (ranked_sorted l) as Hs. rewrite Hf in Hs.
    assert (Hperm : Permutation l (fst first :: map fst others)).
    { rewrite <- Hf. apply sort_perm. }
    assert (Hin : In (fst first) l).
    { apply (Permutation_in _ (Permutation_sym Hperm)). now left. }
    assert (Hne : l <> []) by (intros ->; contradiction).
    destruct (maxScore_attained l Hne) as (e & He & Hmax).
    pose proof (maxScore_upper l (fst first) Hin) as Hup.
    apply (Permutation_in _ Hperm) in He. destruct He as [<-|He]; [exact Hmax|].
    inversion Hs as [|x xs _ Hall]; subst. rewrite Forall_forall in Hall.
    specialize (Hall e He). unfold score_descending_recent_first in Hall. lia.
Qed.

End PageFacts.

Section PlayersFacts.

Variable toLowerCase : string -> string.

Lemma NoDup_map_inv' {A B} (f : A -> B) l : NoDup (map f l) -> NoDup l.
Proof.
  induction l as [|a l IH]; simpl; intros H; [constructor|].
  inversion H as [|x xs Hnotin Hnd]; subst. constructor; [|auto].
  intros Hin. apply Hnotin. now apply in_map.
Qed.

Lemma all_entries_valid items :
  all_valid items -> all_entries items = Some (valid_entries items).
Proof.
  induction 1 as [|[|e] items Hit _ IH]; [reflexivity | now elim Hit |].
  simpl. now rewrite IH.
Qed.

(** X16.  On a board of entries with one entry per case-insensitive
    name, as the cumulative merge keeps it, the page counts every entry as
    one player and one game, whatever the filter: both statistics are the
    number of stored entries. *)
Theorem page_counts_each_player_once toDateString f now items page :
  all_valid items -> unique_names toLowerCase items ->
  exists page',
    loadLeaderboard toDateString f now (ArrayOf items) page = Some page' /\
    totalPlayers (stats page') = List.length items /\
    gamesPlayed (stats page') = List.length items.
Proof.
  intros Hv Hu. unfold loadLeaderboard.
  rewrite (all_entries_valid items Hv). cbn [option_map].
  eexists. split; [reflexivity|]. unfold LeaderboardPage.show.
  cbn [stats totalPlayers gamesPlayed].
  rewrite <- (all_valid_length items Hv). split; [|reflexivity].
  unfold uniquePlayers. rewrite nodup_fixed_point; [apply length_map|].
  unfold LeaderboardSpec.unique_names, keys, LeaderboardSpec.key in Hu.
  rewrite <- (map_map name toLowerCase) in Hu.
  now apply NoDup_map_inv' in Hu.
Qed.

Lemma filter_withRanks (p : LeaderboardEntry -> bool) m l :
  filter p l = [m] ->
  exists r,
    filter (fun d : DisplayEntry => p (fst d)) (withRanks l) = [(m, r)] /\
    (1 <= r <= List.length l)%nat.
Proof.
  unfold withRanks.
  assert (G : forall n,
    filter p l = [m] ->
    exists r,
      filter (fun d : DisplayEntry => p (fst d))
             (combine l (seq n (List.length l))) = [(m, r)] /\
      (n <= r < n + List.length l)%nat).
  { induction l as [|e l IH]; intros n H; [discriminate|].
    simpl in *. destruct (p e) eqn:Hp.
    - injection H as -> H. exists n. split; [|lia]. f_equal.
      clear IH. revert H. generalize (S n).
      induction l as [|e' l IH]; intros n' H; [reflexivity|].
      simpl in *. destruct (p e'); [discriminate | now apply IH].
    - destruct (IH (S n) H) as (r & E & Hr). exists r. split; [exact E | lia]. }
  intros H. destruct (G 1%nat H) as (r & E & Hr). exists r. split; [exact E|lia].
Qed.

(** X17.  A finished game is on the page.  After the cumulative merge of
    a session into a board of well-formed entries, one per
    case-insensitive name, with room for it, the all-time list of the page
    shows exactly one entry under the player's case-insensitive name: the
    new entry, or the previous one with the session added, at a rank
    between 1 and the number of entries. *)
Theorem finished_game_is_on_the_page toDateString l who s a t now page :
  well_formed l -> unique_names toLowerCase l ->
  (List.length l <= MAX_ENTRIES)%nat ->
  (entries_of toLowerCase who l = [] -> (List.length l < MAX_ENTRIES)%nat) ->
  exists stored' page' r,
    finishGame toLowerCase (ArrayOf l) who s a t = Return stored' /\
    loadLeaderboard toDateString alltime now stored' page = Some page' /\
    filter (fun d : DisplayEntry => same_player toLowerCase (name (fst d)) who)
           (entries page') =
      [(merged_entry (entries_of toLowerCase who l) who s a t, r)] /\
    (1 <= r <= List.length (entries page'))%nat.
Proof.
  intros Hwf Hu Hlen Hroom.
  destruct (finishGame_once toLowerCase l who s a t Hwf Hu Hlen Hroom)
    as (l' & R & [Hv' _] & _ & _ & E).
  unfold loadLeaderboard.
  exists (ArrayOf l'). rewrite (all_entries_valid l' Hv'). cbn [option_map].
  assert (F : filter (fun e => same_player toLowerCase (name e) who)
                (ranked (valid_entries l')) =
              [merged_entry (entries_of toLowerCase who l) who s a t]).
  { apply Permutation_length_1_inv. rewrite <- E. unfold entries_of.
    apply Permutation_filter, sort_perm. }
  destruct (filter_withRanks _ _ _ F) as (r & Er & Hr).
  eexists. exists r. split; [exact R|]. split; [reflexivity|].
  unfold LeaderboardPage.show. cbn [entries LeaderboardPage.filtered].
  split; [exact Er|]. now rewrite withRanks_length.
Qed.

End PlayersFacts.

(** *** The podium *)

(** X18.  What the page renders.  With two entries or more the podium
    holds the second entry, the first and the third (in the order of the
    markup) and the rows below hold the others, so every entry is rendered
    once; with a single entry the only slot of the podium looks for a
    second entry and nothing is rendered. *)
Theorem page_renders_entries (l : list DisplayEntry) :
  rendered l =
    match l with
    | first :: second :: others => second :: first :: others
    | _ => []
    end /\
  ((2 <= List.length l)%nat -> Permutation (rendered l) l) /\
  (List.length l = 1%nat -> rendered l = []).
Proof.
  assert (E : rendered l =
              match l with
              | first :: second :: others => second :: first :: others
              | _ => []
              end).
  { destruct l as [|a [|b [|c [|d l]]]]; reflexivity. }
  split; [exact E|]. rewrite E. split.
  - destruct l as [|a [|b l]]; simpl; try lia. intros _. apply perm_swap.
  - destruct l as [|a [|b l]]; simpl; try discriminate. reflexivity.
Qed.

(** *** A sample board *)

Definition Bob_20 : LeaderboardEntry := mkEntry "Bob" 20 85 2000 (Some 1).

Lemma page_counts_each_player_once_witness :
  exists page',
    loadLeaderboard (fun _ => "Sun Nov 01 2026") week 5000
      (ArrayOf [Valid Ana_10; Valid Bob_20]) initial = Some page' /\
    totalPlayers (stats page') = 2%nat /\
    gamesPlayed (stats page') = 2%nat.
Proof.
  refine (page_counts_each_player_once toLowerCase_ascii
            (fun _ => "Sun Nov 01 2026") week 5000
            [Valid Ana_10; Valid Bob_20] initial _ _).
  - repeat constructor; discriminate.
  - apply nodupb_NoDup. reflexivity.
Defined.

Lemma finished_game_is_on_the_page_witness :
  exists stored' page' r,
    finishGame toLowerCase_ascii (ArrayOf [Valid Ana_10]) "ANA" 15 90 2000
      = Return stored' /\
    loadLeaderboard (fun _ => "Sun Nov 01 2026") alltime 5000 stored' initial
      = Some page' /\
    filter (fun d : DisplayEntry =>
              same_player toLowerCase_ascii (name (fst d)) "ANA")
           (entries page') =
      [(merged_entry (entries_of toLowerCase_ascii "ANA" [Valid Ana_10])
          "ANA" 15 90 2000, r)] /\
    (1 <= r <= List.length (entries page'))%nat.
Proof.
  refine (finished_game_is_on_the_page toLowerCase_ascii
            (fun _ => "Sun Nov 01 2026") [Valid Ana_10] "ANA" 15 90 2000 5000
            initial well_formed_Ana _ _ _).
  - apply nodupb_NoDup. reflexivity.
  - unfold MAX_ENTRIES. simpl. lia.
  - intros _. unfold MAX_ENTRIES. simpl. lia.
Defined.

End LeaderboardPageSpec.

(** ** The geometry kernel *)

Module GeometrySpec.

Import JS Geometry.
Open Scope list_scope.

(** *** The order of the numbers *)

Lemma SFcompare_antisym f1 f2 c :
  SFcompare f1 f2 = Some c -> SFcompare f2 f1 = Some (CompOpp c).
Proof.
  destruct f1 as [s1|s1| |s1 m1 e1], f2 as [s2|s2| |s2 m2 e2]; simpl;
    try discriminate; intros [= <-]; try reflexivity;
    try (destruct s1; reflexivity); try (destruct s2; reflexivity);
    try (destruct s1, s2; reflexivity).
  destruct s1, s2; try reflexivity;
    rewrite (Z.compare_antisym e1 e2);
    destruct (e1 ?= e2)%Z; try reflexivity; simpl;
    change (PosDef.Pos.compare_cont Eq m2 m1) with (Pos.compare m2 m1);
    change (PosDef.Pos.compare_cont Eq m1 m2) with (Pos.compare m1 m2);
    rewrite (Pos.compare_antisym m1 m2); now destruct (m1 ?= m2)%positive.
Qed.

Lemma SFcompare_refl f : f <> S754_nan -> SFcompare f f = Some Eq.
Proof.
  destruct f as [s|s| |s m e]; simpl; intros H; try reflexivity.
  - now destruct s.
  - contradiction.
  - rewrite Z.compare_refl.
    change (PosDef.Pos.compare_cont Eq m m) with (Pos.compare m m).
    rewrite Pos.compare_refl. now destruct s.
Qed.

Lemma SFcompare_defined f1 f2 :
  f1 <> S754_nan -> f2 <> S754_nan -> exists c, SFcompare f1 f2 = Some c.
Proof.
  destruct f1, f2; simpl; intros H1 H2; try contradiction; eexists; reflexivity.
Qed.

Lemma is_nan_false (x : float) :
  PrimFloat.is_nan x = false <-> Prim2SF x <> S754_nan.
Proof.
  unfold PrimFloat.is_nan. rewrite FloatAxioms.eqb_spec. unfold SFeqb. split.
  - intros H E. rewrite E in H. discriminate.
  - intros H. now rewrite SFcompare_refl.
Qed.

Lemma is_nan_true (x : float) : PrimFloat.is_nan x = true -> x = nan.
Proof.
  intros H. destruct (Prim2SF x) eqn:E.
  - assert (PrimFloat.is_nan x = false) by (apply is_nan_false; congruence).
    congruence.
  - assert (PrimFloat.is_nan x = false) by (apply is_nan_false; congruence).
    congruence.
  - rewrite <- (FloatAxioms.SF2Prim_Prim2SF x), E. reflexivity.
  - assert (PrimFloat.is_nan x = false) by (apply is_nan_false; congruence).
    congruence.
Qed.

Lemma ltb_leb (x y : float) : (x <? y)%float = true -> (x <=? y)%float = true.
Proof.
  rewrite FloatAxioms.ltb_spec, FloatAxioms.leb_spec. unfold SFltb, SFleb.
  now destruct (SFcompare (Prim2SF x) (Prim2SF y)) as [[| |]|].
Qed.

Lemma not_ltb_leb (x y : float) :
  PrimFloat.is_nan x = false -> PrimFloat.is_nan y = false ->
  (x <? y)%float = false -> (y <=? x)%float = true.
Proof.
  rewrite !is_nan_false, FloatAxioms.ltb_spec, FloatAxioms.leb_spec.
  unfold SFltb, SFleb. intros Hx Hy.
  destruct (SFcompare_defined _ _ Hx Hy) as [c Hc]. rewrite Hc.
  rewrite (SFcompare_antisym _ _ c Hc). now destruct c.
Qed.

Lemma leb_refl (x : float) :
  PrimFloat.is_nan x = false -> (x <=? x)%float = true.
Proof.
  rewrite is_nan_false, FloatAxioms.leb_spec. unfold SFleb. intros H.
  now rewrite SFcompare_refl.
Qed.

(** [Math.min] and [Math.max] of two numbers return one of them. *)
Lemma Math_min_cases (a b : float) :
  PrimFloat.is_nan a = false -> PrimFloat.is_nan b = false ->
  (Math_min a b = a /\ (a <=? b)%float = true) \/
  (Math_min a b = b /\ (b <=? a)%float = true).
Proof.
  intros Ha Hb. unfold Math_min. rewrite Ha, Hb. cbn [orb].
  destruct (a <? b)%float eqn:Hab.
  { left. split; [reflexivity | now apply ltb_leb]. }
  destruct (b <? a)%float eqn:Hba.
  { right. split; [reflexivity | now apply ltb_leb]. }
  pose proof (not_ltb_leb a b Ha Hb Hab) as H1.
  pose proof (not_ltb_leb b a Hb Ha Hba) as H2.
  destruct (PrimFloat.is_zero a && PrimFloat.is_zero b);
    [destruct (get_sign a)|]; auto.
Qed.

Lemma Math_max_cases (a b : float) :
  PrimFloat.is_nan a = false -> PrimFloat.is_nan b = false ->
  (Math_max a b = a /\ (b <=? a)%float = true) \/
  (Math_max a b = b /\ (a <=? b)%float = true).
Proof.
  intros Ha Hb. unfold Math_max. rewrite Ha, Hb. cbn [orb].
  destruct (a <? b)%float eqn:Hab.
  { right. split; [reflexivity | now apply ltb_leb]. }
  destruct (b <? a)%float eqn:Hba.
  { left. split; [reflexivity | now apply ltb_leb]. }
  pose proof (not_ltb_leb a b Ha Hb Hab) as H1.
  pose proof (not_ltb_leb b a Hb Ha Hba) as H2.
  destruct (PrimFloat.is_zero a && PrimFloat.is_zero b);
    [destruct (get_sign a)|]; auto.
Qed.

(** X19.  [clamp] keeps a number within its bounds, and lets [NaN]
    through.  For numbers [value], [min] <= [max] the result is one of the
    three, at least [min] and at most [max]; when [value] is [NaN] so is
    the result, and so is the percentage [score01To100] makes of it. *)
Theorem clamp_within_bounds (value min max : float) :
  PrimFloat.is_nan min = false -> PrimFloat.is_nan max = false ->
  (min <=? max)%float = true ->
  (PrimFloat.is_nan value = false ->
   (clamp value min max = value \/ clamp value min max = min \/
    clamp value min max = max) /\
   (min <=? clamp value min max)%float = true /\
   (clamp value min max <=? max)%float = true) /\
  (PrimFloat.is_nan value = true ->
   PrimFloat.is_nan (clamp value min max) = true /\
   PrimFloat.is_nan (score01To100 value) = true).
Proof.
  intros Hmin Hmax Hle. split.
  - intros Hv. unfold clamp.
    destruct (Math_min_cases max value Hmax Hv) as [[Em Hm]|[Em Hm]];
      rewrite Em;
      [destruct (Math_max_cases min max Hmin Hmax) as [[Er Hr]|[Er Hr]]
      |destruct (Math_max_cases min value Hmin Hv) as [[Er Hr]|[Er Hr]]];
      rewrite Er; (split; [tauto|]); split;
      try assumption; try (now apply leb_refl).
  - intros Hv. apply is_nan_true in Hv. subst value.
    unfold score01To100, clamp, Math_min, Math_max.
    rewrite Hmin, Hmax. split; reflexivity.
Qed.

Lemma clamp_within_bounds_witness :
  (0 <=? clamp 1.7 0 1)%float = true /\
  (clamp 1.7 0 1 <=? 1)%float = true /\
  PrimFloat.is_nan (clamp nan 0 1) = true /\
  PrimFloat.is_nan (score01To100 nan) = true.
Proof.
  destruct (clamp_within_bounds 1.7 0 1 eq_refl eq_refl eq_refl) as [H _].
  destruct (H eq_refl) as (_ & H1 & H2).
  destruct (clamp_within_bounds nan 0 1 eq_refl eq_refl eq_refl) as [_ H'].
  destruct (H' eq_refl) as [H3 H4].
  repeat split; assumption.
Defined.

End GeometrySpec.

(** ** The skeleton overlay *)

Module OverlaySpec.

Import JS Geometry Overlay GeometrySpec.
Open Scope string_scope.
Open Scope list_scope.

(** A score that [getKp] accepts is truthy and above 0.3, unless it is
    [NaN]. *)
Lemma compare_cont_Eq (p q : positive) :
  PosDef.Pos.compare_cont Eq p q = Pos.compare p q.
Proof. reflexivity. Qed.

Lemma accepted_score_is_drawn (s : float) :
  (s <? MIN_KP_SCORE)%float = false -> PrimFloat.is_nan s = false ->
  truthy s = true /\ (0.3 <? s)%float = true.
Proof.
  intros Hlow Hnan. unfold truthy, PrimFloat.is_zero. rewrite Hnan.
  pose proof (proj1 (is_nan_false s) Hnan) as Hs.
  revert Hlow. rewrite !FloatAxioms.ltb_spec, FloatAxioms.eqb_spec.
  replace (Prim2SF MIN_KP_SCORE)
    with (S754_finite false 6305039478318694 (-54)) by (vm_compute; reflexivity).
  replace (Prim2SF 0.3%float)
    with (S754_finite false 5404319552844595 (-54)) by (vm_compute; reflexivity).
  replace (Prim2SF PrimFloat.zero) with (S754_zero false) by (vm_compute; reflexivity).
  unfold SFltb, SFeqb.
  destruct (Prim2SF s) as [sg|sg| |sg m e]; try contradiction;
    cbn [SFcompare orb negb].
  - discriminate.
  - destruct sg; [discriminate | auto].
  - destruct sg; [discriminate|].
    rewrite (Z.compare_antisym e (-54)).
    destruct (Z.compare_spec e (-54)) as [->|Hlt|Hgt]; cbn [CompOpp].
    + destruct (PosDef.Pos.compare_cont Eq m 6305039478318694) eqn:E;
        try discriminate; intros _; (split; [reflexivity|]);
        rewrite compare_cont_Eq in E;
        destruct (PosDef.Pos.compare_cont Eq 5404319552844595 m) eqn:E';
        try reflexivity; exfalso; rewrite compare_cont_Eq in E'.
      * apply Pos.compare_eq in E, E'. subst m. discriminate E'.
      * apply Pos.compare_eq in E. subst m. discriminate E'.
      * apply Pos.compare_eq in E'. subst m. discriminate E.
      * apply Pos.compare_gt_iff in E, E'.
        apply (Pos.lt_irrefl m). eapply Pos.lt_trans; [exact E'|].
        eapply Pos.lt_trans; [|exact E]. reflexivity.
    + discriminate.
    + intros _. now split.
Qed.

(** The score of a keypoint is a number, not [NaN]. *)
Definition numeric (k : Keypoint) : Prop :=
  forall s, score k = Some s -> PrimFloat.is_nan s = false.

Lemma getKp_found pose nm k :
  getKp pose nm = Some k ->
  find (has_name nm) (keypoints pose) = Some k /\
  exists s, score k = Some s /\ (s <? MIN_KP_SCORE)%float = false.
Proof.
  unfold getKp, getKp_min.
  destruct (find (has_name nm) (keypoints pose)) as [k'|]; [|discriminate].
  destruct (score k') as [s|] eqn:Hs; simpl.
  - destruct (s <? MIN_KP_SCORE)%float eqn:Hlow; [discriminate|].
    intros [= <-]. split; [reflexivity|]. now exists s.
  - discriminate.
Qed.

Lemma usable_is_confident pose nm k :
  getKp pose nm = Some k -> numeric k ->
  has_score (Some k) = true /\ above_03 k = true.
Proof.
  intros Hk Hn. destruct (getKp_found pose nm k Hk) as (_ & s & Hs & Hlow).
  unfold has_score, above_03. rewrite Hs.
  now apply accepted_score_is_drawn; [|apply Hn].
Qed.

Lemma flat_map_split {A B} (f : A -> list B) (l : list A) (a : A) :
  In a l -> exists pre post, flat_map f l = pre ++ f a ++ post.
Proof.
  intros Hin. apply in_split in Hin as (l1 & l2 & ->).
  exists (flat_map f l1), (flat_map f l2).
  now rewrite flat_map_app.
Qed.

(** X20.  The joints the validators use are on the overlay.  A keypoint
    [getKp] accepts (found under its name with a score of 0.35 or more,
    the score being a number) is drawn as a dot; and when [getKp] accepts
    both ends of one of the twelve connections, the line between the two
    is drawn. *)
Theorem usable_joints_are_drawn (pose : Pose) :
  (forall nm k,
     getKp pose nm = Some k -> numeric k ->
     exists before after, drawSkeleton pose = before ++ dot k ++ after) /\
  (forall a b ka kb,
     In (a, b) connections ->
     getKp pose a = Some ka -> getKp pose b = Some kb ->
     numeric ka -> numeric kb ->
     exists before after, drawSkeleton pose = before ++ line ka kb ++ after).
Proof.
  split.
  - intros nm k Hk Hn.
    destruct (usable_is_confident pose nm k Hk Hn) as [H1 H2].
    destruct (getKp_found pose nm k Hk) as (Hf & _).
    apply find_some in Hf as [Hin _].
    destruct (flat_map_split drawKeypoint _ k Hin) as (pre & post & E).
    exists (flat_map (drawConnection pose) connections ++ pre), post.
    unfold drawSkeleton. rewrite E. unfold drawKeypoint. rewrite H1, H2.
    cbn [andb]. now rewrite <- app_assoc.
  - intros a b ka kb Hc Ha Hb Hna Hnb.
    destruct (usable_is_confident pose a ka Ha Hna) as [A1 A2].
    destruct (usable_is_confident pose b kb Hb Hnb) as [B1 B2].
    destruct (getKp_found pose a ka Ha) as (Hfa & _).
    destruct (getKp_found pose b kb Hb) as (Hfb & _).
    destruct (flat_map_split (drawConnection pose) _ (a, b) Hc)
      as (pre & post & E).
    exists pre, (post ++ flat_map drawKeypoint (keypoints pose)).
    unfold drawSkeleton. rewrite E. unfold drawConnection.
    rewrite Hfa, Hfb, A1, A2, B1, B2. cbn [andb]. now rewrite <- !app_assoc.
Qed.

(** *** Dots and lines *)

Definition is_arc (c : CanvasCall) : bool :=
  match c with arc _ _ _ _ _ => true | _ => false end.

Definition is_lineTo (c : CanvasCall) : bool :=
  match c with lineTo _ _ => true | _ => false end.

(** The test of [hasGoodDetection] on one keypoint. *)
Definition counted (kp : Keypoint) : bool :=
  (0.3 <? match score kp with
          | Some v => or_else v 0%float
          | None => 0%float
          end)%float.

Lemma counted_drawn kp : counted kp = has_score (Some kp) && above_03 kp.
Proof.
  unfold counted, has_score, above_03, or_else.
  destruct (score kp) as [s|]; [|reflexivity].
  destruct (truthy s); reflexivity.
Qed.

Lemma drawConnection_calls pose c :
  drawConnection pose c = [] \/
  exists s e,
    In s (keypoints pose) /\ In e (keypoints pose) /\
    has_score (Some s) && above_03 s = true /\
    has_score (Some e) && above_03 e = true /\
    drawConnection pose c = line s e.
Proof.
  unfold drawConnection. destruct c as [a b].
  destruct (find (has_name a) (keypoints pose)) as [s|] eqn:Hs;
    [|now left].
  destruct (find (has_name b) (keypoints pose)) as [e|] eqn:He;
    [|left; now rewrite andb_false_r].
  destruct (has_score (Some s)) eqn:H1; [|now left].
  destruct (has_score (Some e)) eqn:H2; [|now left].
  destruct (above_03 s) eqn:H3; [|now left].
  destruct (above_03 e) eqn:H4; [|now left].
  right. exists s, e. apply find_some in Hs as [Hs _].
  apply find_some in He as [He _].
  split; [exact Hs|]. split; [exact He|].
  rewrite H1, H2, H3, H4. repeat split.
Qed.

Lemma connections_no_arc pose cs :
  filter is_arc (flat_map (drawConnection pose) cs) = [].
Proof.
  induction cs as [|c cs IH]; [reflexivity|]. simpl.
  rewrite filter_app, IH, app_nil_r.
  destruct (drawConnection_calls pose c) as [->|(s & e & _ & _ & _ & _ & ->)];
    reflexivity.
Qed.

Lemma keypoints_arcs ks :
  List.length (filter is_arc (flat_map drawKeypoint ks)) =
  List.length (filter counted ks).
Proof.
  induction ks as [|k ks IH]; [reflexivity|]. simpl.
  rewrite filter_app, length_app, IH, counted_drawn. unfold drawKeypoint.
  now destruct (has_score (Some k) && above_03 k).
Qed.

(** X21.  The body check of page.tsx counts the dots of the overlay: a
    pose is a plausible body ([hasGoodDetection]) exactly when
    [drawSkeleton] draws ten dots or more for it. *)
Theorem good_detection_counts_dots (pose : Pose) :
  SimpleRound.hasGoodDetection pose =
  (10 <=? List.length (filter is_arc (drawSkeleton pose)))%nat.
Proof.
  unfold SimpleRound.hasGoodDetection, drawSkeleton.
  rewrite filter_app, connections_no_arc. cbn [app].
  rewrite keypoints_arcs. reflexivity.
Qed.

Lemma dots_no_line ks c :
  In c (flat_map drawKeypoint ks) ->
  match c with moveTo _ _ | lineTo _ _ => False | _ => True end.
Proof.
  intros H. apply in_flat_map in H as (k & _ & H). unfold drawKeypoint in H.
  destruct (has_score (Some k) && above_03 k); [|contradiction].
  simpl in H. repeat (destruct H as [<-|H]; [exact I|]). contradiction.
Qed.

Lemma lineTo_count pose cs :
  (List.length (filter is_lineTo (flat_map (drawConnection pose) cs))
   <= List.length cs)%nat.
Proof.
  induction cs as [|c cs IH]; [reflexivity|]. simpl.
  rewrite filter_app, length_app.
  destruct (drawConnection_calls pose c) as [->|(s & e & _ & _ & _ & _ & ->)];
    simpl; lia.
Qed.

Lemma keypoints_no_lineTo ks :
  filter is_lineTo (flat_map drawKeypoint ks) = [].
Proof.
  induction ks as [|k ks IH]; [reflexivity|]. simpl.
  rewrite filter_app, IH, app_nil_r. unfold drawKeypoint.
  now destruct (has_score (Some k) && above_03 k).
Qed.

(** X22.  No line of the overlay dangles.  [drawSkeleton] draws twelve
    lines at most, and every point a line starts from or goes to is the
    centre of a dot it draws. *)
Theorem lines_join_drawn_dots (pose : Pose) :
  (List.length (filter is_lineTo (drawSkeleton pose)) <= 12)%nat /\
  forall px py,
    In (moveTo px py) (drawSkeleton pose) \/
    In (lineTo px py) (drawSkeleton pose) ->
    In (arc px py 6 0 (2 * Math_PI)) (drawSkeleton pose).
Proof.
  split.
  - unfold drawSkeleton. rewrite filter_app, keypoints_no_lineTo, app_nil_r.
    apply (lineTo_count pose connections).
  - intros px py H.
    assert (Hk : exists k, In k (keypoints pose) /\
                   has_score (Some k) && above_03 k = true /\
                   x k = px /\ y k = py).
    { unfold drawSkeleton in H. rewrite !in_app_iff in H.
      assert (Hc : exists c, In c [moveTo px py; lineTo px py] /\
                     In c (flat_map (drawConnection pose) connections)).
      { destruct H as [[H|H]|[H|H]].
        - exists (moveTo px py). split; [now left | exact H].
        - destruct (dots_no_line _ _ H).
        - exists (lineTo px py). split; [right; now left | exact H].
        - destruct (dots_no_line _ _ H). }
      destruct Hc as (c & Hc & Hin).
      apply in_flat_map in Hin as (conn & _ & Hin).
      destruct (drawConnection_calls pose conn)
        as [E|(s & e & Hs & He & Cs & Ce & E)]; rewrite E in Hin;
        [contradiction|].
      destruct Hc as [<-|[<-|[]]]; simpl in Hin.
      - destruct Hin as [Hin|[Hin|Hin]]; try discriminate.
        + injection Hin as <- <-. now exists s.
        + repeat (destruct Hin as [Hin|Hin]; [discriminate|]). contradiction.
      - destruct Hin as [Hin|[Hin|[Hin|Hin]]]; try discriminate.
        + injection Hin as <- <-. now exists e.
        + repeat (destruct Hin as [Hin|Hin]; [discriminate|]). contradiction. }
    destruct Hk as (k & Hin & Hc & <- & <-).
    unfold drawSkeleton. apply in_or_app. right. apply in_flat_map.
    exists k. split; [exact Hin|]. unfold drawKeypoint. rewrite Hc.
    right. now left.
Qed.

(** *** Joints the validators refuse *)

Lemma above_03_truthy (s : float) :
  (0.3 <? s)%float = true -> truthy s = true.
Proof.
  intros H. unfold truthy, PrimFloat.is_zero.
  assert (Hn : Prim2SF s <> S754_nan).
  { intros E. rewrite FloatAxioms.ltb_spec, E in H. discriminate H. }
  rewrite (proj2 (is_nan_false s) Hn), orb_false_r.
  revert H. rewrite FloatAxioms.ltb_spec, FloatAxioms.eqb_spec.
  replace (Prim2SF 0.3%float)
    with (S754_finite false 5404319552844595 (-54)) by (vm_compute; reflexivity).
  replace (Prim2SF PrimFloat.zero) with (S754_zero false)
    by (vm_compute; reflexivity).
  unfold SFltb, SFeqb.
  destruct (Prim2SF s) as [sg|sg| |sg m e]; try contradiction;
    cbn [SFcompare]; try discriminate; intros _; now destruct sg.
Qed.

(** X23.  The overlay also shows joints the validators refuse.  A
    keypoint found under its name with a score above 0.3 and below 0.35 is
    drawn as a dot by [drawSkeleton], and [getKp] returns null for its
    name, so every validator that requires the joint answers 0. *)
Theorem overlay_shows_refused_joints (pose : Pose) nm k s :
  find (has_name nm) (keypoints pose) = Some k ->
  score k = Some s ->
  (0.3 <? s)%float = true -> (s <? MIN_KP_SCORE)%float = true ->
  getKp pose nm = None /\
  exists before after, drawSkeleton pose = before ++ dot k ++ after.
Proof.
  intros Hf Hs Hhi Hlo. split.
  - unfold getKp, getKp_min. rewrite Hf, Hs. simpl. now rewrite Hlo.
  - apply find_some in Hf as [Hin _].
    destruct (flat_map_split drawKeypoint _ k Hin) as (pre & post & E).
    exists (flat_map (drawConnection pose) connections ++ pre), post.
    unfold drawSkeleton. rewrite E. unfold drawKeypoint, has_score, above_03.
    rewrite Hs, Hhi, (above_03_truthy s Hhi). cbn [andb].
    now rewrite <- app_assoc.
Qed.

(** A nose tracked with confidence 0.32. *)
Definition faint_nose : Pose :=
  mkPose [ mkKeypoint 300 80 (Some 0.32%float) (Some "nose") ].

Lemma overlay_shows_refused_joints_witness :
  getKp faint_nose "nose" = None /\
  exists before after,
    drawSkeleton faint_nose =
    before ++ dot (mkKeypoint 300 80 (Some 0.32%float) (Some "nose")) ++ after.
Proof.
  refine (overlay_shows_refused_joints faint_nose "nose"
            (mkKeypoint 300 80 (Some 0.32%float) (Some "nose")) 0.32%float
            _ _ _ _); reflexivity.
Defined.

End OverlaySpec.

(** ** Opening the camera *)

Module CameraSpec.

Import Round Camera.
Open Scope string_scope.
Open Scope list_scope.

Definition resolves {A} (s : Settled A) : bool :=
  match s with Resolves _ => true | Rejects _ => false end.

(** The model [loadDetector] ends up with when one can be created. *)
Definition preferred {M} (browser : Browser M) : ModelType :=
  if resolves (createDetector browser SINGLEPOSE_THUNDER)
  then SINGLEPOSE_THUNDER else SINGLEPOSE_LIGHTNING.

(** X24.  How [initializeCamera] ends.  Called during the countdown, it
    leaves the game playing exactly when a stream was granted (the
    1280x720 request first, then 640x480), the video is mounted and loads
    its metadata, plays, and the library and one of the two models load;
    the accurate model is used when it can be created and the fast one
    otherwise.  When no stream is granted the page is back at the name
    entry with the access-denied message, whatever the reasons of the
    rejections were, and the loading flag is still set.  When the stream
    was granted and the metadata loaded but a later step fails, the tracks
    of the stream are stopped, the loading flag is cleared and the page is
    back at the name entry with the failed-to-start message.  When the
    stream was granted but the video is not mounted or its metadata does
    not load, the page stays in the countdown with the loading flag set
    and no message. *)
Theorem camera_startup_outcomes {M} (browser : Browser M) (st : Startup M) :
  gameState st = GS_countdown ->
  let st' := initializeCamera browser st in
  (forall mediaStream,
     getUserMedia browser (mkConstraints 1280 720 30 "user")
       = Resolves mediaStream ->
     firstGranted browser tryConstraints = Some mediaStream) /\
  (firstGranted browser tryConstraints = None ->
   gameState st' = GS_name /\ isLoading st' = true /\
   uiError st' =
     Some "Camera access was denied. Please allow camera access and try again.") /\
  (gameState st' = GS_playing <->
   firstGranted browser tryConstraints <> None /\
   videoMounted browser = true /\ metadataLoaded browser = true /\
   resolves (play browser) = true /\
   resolves (importPoseDetection browser) = true /\
   (resolves (createDetector browser SINGLEPOSE_THUNDER) = true \/
    resolves (createDetector browser SINGLEPOSE_LIGHTNING) = true)) /\
  (gameState st' = GS_playing ->
   isLoading st' = false /\ uiError st' = None /\ roundArmed st' = true /\
   stream st' = firstGranted browser tryConstraints /\
   detector st' = Some (preferred browser)) /\
  (firstGranted browser tryConstraints <> None ->
   videoMounted browser = true -> metadataLoaded browser = true ->
   gameState st' <> GS_playing ->
   gameState st' = GS_name /\ tracksStopped st' = true /\
   isLoading st' = false /\
   uiError st' =
     Some "Failed to start the game. Please refresh and try again.") /\
  (firstGranted browser tryConstraints <> None ->
   videoMounted browser && metadataLoaded browser = false ->
   gameState st' = GS_countdown /\ isLoading st' = true /\
   uiError st' = None /\
   stream st' = firstGranted browser tryConstraints).
Proof.
  intros Hg. cbv zeta.
  split; [intros m Hm; cbn; now rewrite Hm|].
  unfold initializeCamera, onloadedmetadata, loadDetector, preferred.
  destruct (firstGranted browser tryConstraints) as [m|]; cbn.
  2:{ repeat split; try discriminate; try congruence.
      intros (H & _). congruence. }
  rewrite Hg.
  destruct (videoMounted browser), (metadataLoaded browser); cbn;
    try (repeat split; try discriminate; try congruence;
         intros; intuition discriminate).
  destruct (play browser); cbn;
    try (repeat split; try discriminate; try congruence;
         intros; intuition discriminate).
  destruct (importPoseDetection browser); cbn;
    try (repeat split; try discriminate; try congruence;
         intros; intuition discriminate).
  destruct (createDetector browser SINGLEPOSE_THUNDER); cbn;
    try (repeat split; try discriminate; try congruence;
         intros; intuition discriminate).
  destruct (createDetector browser SINGLEPOSE_LIGHTNING); cbn;
    repeat split; try discriminate; try congruence;
    intros; intuition discriminate.
Qed.

(** A device without a camera: both requests are rejected with a
    NotFoundError. *)
Definition no_camera : Browser nat :=
  mkBrowser (fun _ => Rejects (Some "NotFoundError")) true true
    (Resolves tt) (Resolves tt) (fun _ => Resolves tt).

Definition counting_down : Startup nat :=
  mkStartup GS_countdown false None None false None false.

Lemma camera_startup_outcomes_witness :
  gameState (initializeCamera no_camera counting_down) = GS_name /\
  isLoading (initializeCamera no_camera counting_down) = true /\
  uiError (initializeCamera no_camera counting_down) =
    Some "Camera access was denied. Please allow camera access and try again.".
Proof.
  exact (proj1 (proj2 (camera_startup_outcomes no_camera counting_down
                          eq_refl)) eq_refl).
Defined.

End CameraSpec.
